(** * A model of [vector.h]: [RawMemory<T>] and [Vector<T>]

    The two class templates are embedded as programs of a small state and
    exception monad.  The state holds the blocks handed out by
    [operator new], every [Vector] and [RawMemory] object by identity, the
    script of the exceptions still to come and the log of what was done to
    memory and to elements.  [size_t] is a 64-bit unsigned integer, kept in
    [Z] with its wrap-around written out. *)

From Stdlib Require Import ZArith Lia.
From stdpp Require Import base gmap list.

Open Scope Z_scope.

(** ** The element type *)

(** What the templates need to know about [T]. *)
Class Element (T : Type) := {
  sizeof : Z;                          (* sizeof(T) *)
  sizeof_range : 0 < sizeof < 2 ^ 63;
  value_init : T;                      (* the value of T() *)
  moved_from : T -> T;                 (* what an object holds after a move from it *)
  nothrow_move_constructible : bool;   (* std::is_nothrow_move_constructible_v<T> *)
  copy_constructible : bool;           (* std::is_copy_constructible_v<T> *)
}.

(** ** Memory, objects and the state *)

Definition addr := nat.

(** A [T*]: the block it points into ([None] is [nullptr]) and the offset
    in elements. *)
Record pointer := Ptr { base : option addr; off : Z }.

#[global] Instance pointer_eq_dec : EqDecision pointer.
Proof. solve_decision. Defined.

Definition ptr_add (p : pointer) (k : Z) : pointer := Ptr (base p) (off p + k).
Infix "+ₚ" := ptr_add (at level 50, left associativity).

Record RawMemory := mkRawMemory { buffer_ : option addr; capacity_ : Z }.

Record Vector := mkVector { data_ : RawMemory; size_ : Z }.

(** A [RawMemory&]: the [data_] member of a [Vector] object, or an object
    with automatic storage (a local or a temporary). *)
Inductive raw_ref := Member (v : nat) | Local (l : nat).

#[global] Instance raw_ref_eq_dec : EqDecision raw_ref.
Proof. solve_decision. Defined.

(** What a constructor call [T(std::forward<Args>(args)...)] is given. *)
Inductive ctor_args (T : Type) :=
  | Forward (x : T)        (* arguments that designate no modelled object; they build the value x *)
  | CopyElem (q : pointer) (* a const T& to a live object in a modelled block *)
  | MoveElem (q : pointer) (* a T&& to a live object in a modelled block *).
Arguments Forward {T} x.
Arguments CopyElem {T} q.
Arguments MoveElem {T} q.

Inductive event (T : Type) :=
  | EvNew (a : addr) (bytes : Z)          (* operator new(bytes) returned a *)
  | EvDelete (a : addr)                   (* operator delete(a) *)
  | EvConstruct (p : pointer) (x : T)     (* placement new at p of T(args...) *)
  | EvCopyConstruct (dst src : pointer)   (* copy construction at dst from the object at src *)
  | EvMoveConstruct (dst src : pointer)   (* move construction at dst from the object at src *)
  | EvValueConstruct (p : pointer)        (* placement new at p of T() *)
  | EvCopyAssign (dst src : pointer)      (* copy assignment to dst from src *)
  | EvMoveAssign (dst src : pointer)      (* move assignment to dst from src *)
  | EvTemporary (x : T)                   (* a temporary T(args...) *)
  | EvAssignTemporary (dst : pointer)     (* move assignment to dst from the temporary *)
  | EvDestroy (p : pointer)               (* p->~T() *).
Arguments EvNew {T} a bytes.
Arguments EvDelete {T} a.
Arguments EvConstruct {T} p x.
Arguments EvCopyConstruct {T} dst src.
Arguments EvMoveConstruct {T} dst src.
Arguments EvValueConstruct {T} p.
Arguments EvCopyAssign {T} dst src.
Arguments EvMoveAssign {T} dst src.
Arguments EvTemporary {T} x.
Arguments EvAssignTemporary {T} dst.
Arguments EvDestroy {T} p.

Record state (T : Type) := State {
  heap : gmap addr (list (option T));
    (* the blocks obtained from operator new and not yet deleted; a slot is
       None while it is raw storage and Some x while it holds a live T *)
  vecs : gmap nat Vector;       (* the Vector objects, by identity *)
  raws : gmap nat RawMemory;    (* the local and temporary RawMemory objects *)
  script : list bool;           (* for each coming operation that may throw: does it? *)
  trace : list (event T);       (* what has been done, oldest first *)
}.
Arguments State {T} heap vecs raws script trace.
Arguments heap {T} s.
Arguments vecs {T} s.
Arguments raws {T} s.
Arguments script {T} s.
Arguments trace {T} s.

(** An operation returns, throws, or has no defined behaviour (a failed
    [assert] or undefined behaviour). *)
Inductive outcome (T A : Type) :=
  | Ok (a : A) (s : state T)
  | Throw (s : state T)
  | Fault.
Arguments Ok {T A} a s.
Arguments Throw {T A} s.
Arguments Fault {T A}.

Definition M (T A : Type) : Type := state T -> outcome T A.

Section Monad.
Context {T : Type}.

Definition ret {A} (a : A) : M T A := fun s => Ok a s.

Definition bind {A B} (m : M T A) (f : A -> M T B) : M T B :=
  fun s => match m s with
           | Ok a s' => f a s'
           | Throw s' => Throw s'
           | Fault => Fault
           end.

Definition throw {A} : M T A := fun s => Throw s.

Definition fault {A} : M T A := fun _ => Fault.

Definition assert (b : bool) : M T unit := if b then ret tt else fault.

(** [try { m } catch (...) { h; throw; }]; an exception that leaves the
    handler itself ends the program. *)
Definition on_throw {A} (m : M T A) (h : M T unit) : M T A :=
  fun s => match m s with
           | Throw s' => match h s' with
                         | Ok _ s'' => Throw s''
                         | _ => Fault
                         end
           | r => r
           end.

(** A scope exit: [c] runs when [m] returns and when it throws. *)
Definition finally {A} (m : M T A) (c : M T unit) : M T A :=
  fun s => match m s with
           | Ok a s' => match c s' with
                        | Ok _ s'' => Ok a s''
                        | _ => Fault
                        end
           | Throw s' => match c s' with
                         | Ok _ s'' => Throw s''
                         | _ => Fault
                         end
           | Fault => Fault
           end.

Definition get_state : M T (state T) := fun s => Ok s s.
Definition put_state (s : state T) : M T unit := fun _ => Ok tt s.
End Monad.

Notation "x <- m ;; k" := (bind m (fun x => k))
  (at level 100, m at next level, right associativity,
   format "'[' x  <-  m  ;;  '/' k ']'").
Notation "m ;; k" := (bind m (fun _ => k))
  (at level 100, right associativity, format "'[' m  ;;  '/' k ']'").

Section Code.
Context {T : Type} `{!Element T}.

(** [size_t] arithmetic is modulo 2^64. *)
Definition wrap (z : Z) : Z := z mod 2 ^ 64.

Definition PTRDIFF_MAX : Z := 2 ^ 63 - 1.

(** *** Access to the state *)

Definition log (e : event T) : M T unit :=
  fun s => Ok tt (State (heap s) (vecs s) (raws s) (script s) (trace s ++ [e])).

(** An operation that may throw asks the script; an empty script means
    that nothing throws any more. *)
Definition may_throw : M T unit :=
  fun s => match script s with
           | [] => Ok tt s
           | b :: bs =>
               let s' := State (heap s) (vecs s) (raws s) bs (trace s) in
               if b then Throw s' else Ok tt s'
           end.

Definition set_heap (h : gmap addr (list (option T))) : M T unit :=
  fun s => Ok tt (State h (vecs s) (raws s) (script s) (trace s)).

Definition get_vec (v : nat) : M T Vector :=
  fun s => match vecs s !! v with Some x => Ok x s | None => Fault end.

Definition put_vec (v : nat) (x : Vector) : M T unit :=
  fun s => Ok tt (State (heap s) (<[v:=x]> (vecs s)) (raws s) (script s) (trace s)).

Definition remove_vec (v : nat) : M T unit :=
  fun s => Ok tt (State (heap s) (delete v (vecs s)) (raws s) (script s) (trace s)).

Definition get_size (v : nat) : M T Z := x <- get_vec v ;; ret (size_ x).

Definition set_size (v : nat) (n : Z) : M T unit :=
  x <- get_vec v ;; put_vec v (mkVector (data_ x) n).

Definition get_raw (r : raw_ref) : M T RawMemory :=
  match r with
  | Member v => x <- get_vec v ;; ret (data_ x)
  | Local l => fun s => match raws s !! l with Some m => Ok m s | None => Fault end
  end.

Definition set_raw (r : raw_ref) (m : RawMemory) : M T unit :=
  match r with
  | Member v => x <- get_vec v ;; put_vec v (mkVector m (size_ x))
  | Local l =>
      fun s => Ok tt (State (heap s) (vecs s) (<[l:=m]> (raws s)) (script s) (trace s))
  end.

Definition remove_local (r : raw_ref) : M T unit :=
  match r with
  | Member _ => ret tt
  | Local l =>
      fun s => Ok tt (State (heap s) (vecs s) (delete l (raws s)) (script s) (trace s))
  end.

(** *** The free store *)

(** [operator new(bytes)]: throws [std::bad_alloc] or returns a fresh
    block, which has room for [bytes / sizeof(T)] objects.  No block is
    larger than [PTRDIFF_MAX] bytes. *)
Definition operator_new (bytes : Z) : M T (option addr) :=
  (if PTRDIFF_MAX <? bytes then throw else ret tt) ;;
  may_throw ;;
  s <- get_state ;;
  let a := fresh (dom (heap s)) in
  set_heap (<[a := replicate (Z.to_nat (bytes / sizeof)) None]> (heap s)) ;;
  log (EvNew a bytes) ;;
  ret (Some a).

(** [operator delete(buf)]: nothing for [nullptr]; deleting a block that
    is not live (twice, say) is undefined. *)
Definition operator_delete (buf : option addr) : M T unit :=
  match buf with
  | None => ret tt
  | Some a =>
      s <- get_state ;;
      match heap s !! a with
      | Some _ => set_heap (delete a (heap s)) ;; log (EvDelete a)
      | None => fault
      end
  end.

(** The slot a pointer designates, when it designates one. *)
Definition slot (p : pointer) : M T (option T) :=
  fun s => match base p with
           | Some a =>
               match heap s !! a with
               | Some blk =>
                   if 0 <=? off p then
                     match blk !! Z.to_nat (off p) with
                     | Some o => Ok o s
                     | None => Fault
                     end
                   else Fault
               | None => Fault
               end
           | None => Fault
           end.

(** Reading an object: the slot must hold a live one. *)
Definition read (p : pointer) : M T T :=
  o <- slot p ;; match o with Some x => ret x | None => fault end.

Definition write (p : pointer) (o : option T) : M T unit :=
  slot p ;;
  s <- get_state ;;
  match base p with
  | Some a =>
      match heap s !! a with
      | Some blk => set_heap (<[a := <[Z.to_nat (off p) := o]> blk]> (heap s))
      | None => fault
      end
  | None => fault
  end.

(** *** The operations of [T] *)

Definition copy_construct (p q : pointer) : M T unit :=
  x <- read q ;;
  may_throw ;;
  write p (Some x) ;;
  log (EvCopyConstruct p q).

Definition move_construct (p q : pointer) : M T unit :=
  x <- read q ;;
  (if nothrow_move_constructible then ret tt else may_throw) ;;
  write p (Some x) ;;
  write q (Some (moved_from x)) ;;
  log (EvMoveConstruct p q).

Definition value_construct (p : pointer) : M T unit :=
  may_throw ;;
  write p (Some value_init) ;;
  log (EvValueConstruct p).

Definition copy_assign (p q : pointer) : M T unit :=
  x <- read q ;;
  read p ;;
  may_throw ;;
  write p (Some x) ;;
  log (EvCopyAssign p q).

Definition move_assign (p q : pointer) : M T unit :=
  x <- read q ;;
  read p ;;
  may_throw ;;
  write p (Some x) ;;
  write q (Some (moved_from x)) ;;
  log (EvMoveAssign p q).

Definition destroy_at (p : pointer) : M T unit :=
  read p ;;
  write p None ;;
  log (EvDestroy p).

(** [new (p) T(std::forward<Args>(args)...)] *)
Definition construct_at (p : pointer) (args : ctor_args T) : M T unit :=
  match args with
  | Forward x => may_throw ;; write p (Some x) ;; log (EvConstruct p x)
  | CopyElem q => copy_construct p q
  | MoveElem q => move_construct p q
  end.

(** The temporary [T(std::forward<Args>(args)...)]; its value. *)
Definition temporary (args : ctor_args T) : M T T :=
  match args with
  | Forward x => may_throw ;; log (EvTemporary x) ;; ret x
  | CopyElem q => x <- read q ;; may_throw ;; log (EvTemporary x) ;; ret x
  | MoveElem q =>
      x <- read q ;;
      (if nothrow_move_constructible then ret tt else may_throw) ;;
      write q (Some (moved_from x)) ;;
      log (EvTemporary x) ;;
      ret x
  end.

(** Move assignment to the object at p from a temporary that holds x. *)
Definition assign_temporary (p : pointer) (x : T) : M T unit :=
  read p ;;
  may_throw ;;
  write p (Some x) ;;
  log (EvAssignTemporary p).

(** *** The algorithms of <memory> and <algorithm> that the code calls *)

Fixpoint destroy_n (first : pointer) (n : nat) : M T unit :=
  match n with
  | O => ret tt
  | S n' => destroy_at first ;; destroy_n (first +ₚ 1) n'
  end.

(** The loop of the [std::uninitialized_*] algorithms: when a
    construction throws, the objects constructed so far are destroyed and
    the exception goes on. *)
Fixpoint uninitialized_loop (ctor : pointer -> pointer -> M T unit)
    (d_first : pointer) (done : nat) (first : pointer) (n : nat) : M T unit :=
  match n with
  | O => ret tt
  | S n' =>
      on_throw (ctor (d_first +ₚ Z.of_nat done) first) (destroy_n d_first done) ;;
      uninitialized_loop ctor d_first (S done) (first +ₚ 1) n'
  end.

Definition uninitialized_copy_n (first : pointer) (count : Z) (d_first : pointer) : M T unit :=
  uninitialized_loop copy_construct d_first 0 first (Z.to_nat count).

Definition uninitialized_move_n (first : pointer) (count : Z) (d_first : pointer) : M T unit :=
  uninitialized_loop move_construct d_first 0 first (Z.to_nat count).

Definition uninitialized_value_construct_n (first : pointer) (count : Z) : M T unit :=
  uninitialized_loop (fun p _ => value_construct p) first 0 first (Z.to_nat count).

(** [last - first], for two pointers into one array. *)
Definition distance (first last : pointer) : M T Z :=
  if decide (base first = base last) then ret (off last - off first) else fault.

(** The number of steps from [first] up to [last]. *)
Definition range_length (first last : pointer) : M T nat :=
  d <- distance first last ;;
  assert (0 <=? d) ;;
  ret (Z.to_nat d).

Definition uninitialized_copy (first last d_first : pointer) : M T unit :=
  n <- range_length first last ;;
  uninitialized_loop copy_construct d_first 0 first n.

Definition uninitialized_move (first last d_first : pointer) : M T unit :=
  n <- range_length first last ;;
  uninitialized_loop move_construct d_first 0 first n.

Fixpoint copy_loop (first : pointer) (n : nat) (result : pointer) : M T unit :=
  match n with
  | O => ret tt
  | S n' => copy_assign result first ;; copy_loop (first +ₚ 1) n' (result +ₚ 1)
  end.

Definition copy_n (first : pointer) (count : Z) (result : pointer) : M T unit :=
  copy_loop first (Z.to_nat count) result.

Fixpoint move_loop (first : pointer) (n : nat) (d_first : pointer) : M T unit :=
  match n with
  | O => ret tt
  | S n' => move_assign d_first first ;; move_loop (first +ₚ 1) n' (d_first +ₚ 1)
  end.

(** [std::move(first, last, d_first)] *)
Definition move (first last d_first : pointer) : M T unit :=
  n <- range_length first last ;;
  move_loop first n d_first.

Fixpoint move_backward_loop (last : pointer) (n : nat) (d_last : pointer) : M T unit :=
  match n with
  | O => ret tt
  | S n' =>
      move_assign (d_last +ₚ -1) (last +ₚ -1) ;;
      move_backward_loop (last +ₚ -1) n' (d_last +ₚ -1)
  end.

Definition move_backward (first last d_last : pointer) : M T unit :=
  n <- range_length first last ;;
  move_backward_loop last n d_last.
End Code.

(** ** [RawMemory<T>] *)

Section RawMemoryCode.
Context {T : Type} `{!Element T}.

Definition Allocate (n : Z) : M T (option addr) :=
  if n =? 0 then ret None else operator_new (wrap (n * sizeof)).

Definition Deallocate (buf : option addr) : M T unit := operator_delete buf.

(** [RawMemory() = default], with the default member initializers. *)
Definition RawMemory_default (this : raw_ref) : M T unit :=
  set_raw this (mkRawMemory None 0).

(** [explicit RawMemory(size_t capacity)] *)
Definition RawMemory_ctor (this : raw_ref) (capacity : Z) : M T unit :=
  buf <- Allocate capacity ;;
  set_raw this (mkRawMemory buf capacity).

(** [~RawMemory()] *)
Definition RawMemory_dtor (this : raw_ref) : M T unit :=
  m <- get_raw this ;;
  Deallocate (buffer_ m).

(** [void Swap(RawMemory &other) noexcept]: the two members change
    places. *)
Definition RawMemory_Swap (this other : raw_ref) : M T unit :=
  a <- get_raw this ;;
  b <- get_raw other ;;
  set_raw this b ;;
  set_raw other a.

(** [RawMemory(RawMemory &&other) noexcept] *)
Definition RawMemory_move_ctor (this other : raw_ref) : M T unit :=
  RawMemory_default this ;;
  RawMemory_Swap this other.

(** [RawMemory &operator=(RawMemory &&rhs) noexcept] *)
Definition RawMemory_move_assign (this rhs : raw_ref) : M T unit :=
  if decide (this <> rhs) then
    m <- get_raw this ;;
    Deallocate (buffer_ m) ;;
    RawMemory_Swap this rhs
  else ret tt.

(** [T *operator+(size_t offset) noexcept] *)
Definition RawMemory_plus (this : raw_ref) (offset : Z) : M T pointer :=
  m <- get_raw this ;;
  assert (offset <=? capacity_ m) ;;
  ret (Ptr (buffer_ m) offset).

(** [T &operator[](size_t index) noexcept]; the reference is a pointer. *)
Definition RawMemory_index (this : raw_ref) (index : Z) : M T pointer :=
  m <- get_raw this ;;
  assert (index <? capacity_ m) ;;
  ret (Ptr (buffer_ m) index).

Definition GetAddress (this : raw_ref) : M T pointer :=
  m <- get_raw this ;;
  ret (Ptr (buffer_ m) 0).

Definition RawMemory_Capacity (this : raw_ref) : M T Z :=
  m <- get_raw this ;;
  ret (capacity_ m).

(** A local or temporary [RawMemory]: it is initialised by [init], lives
    while [body] runs and is destroyed when [body] returns or throws. *)
Definition with_local {A} (init : raw_ref -> M T unit) (body : raw_ref -> M T A) : M T A :=
  s <- get_state ;;
  let l := Local (fresh (dom (raws s))) in
  init l ;;
  finally (body l) (RawMemory_dtor l ;; remove_local l).

(** [std::swap(a, b)] for two [RawMemory] objects: the generic three
    moves. *)
Definition std_swap_RawMemory (a b : raw_ref) : M T unit :=
  with_local (fun tmp => RawMemory_move_ctor tmp a) (fun tmp =>
    RawMemory_move_assign a b ;;
    RawMemory_move_assign b tmp).
End RawMemoryCode.

(** ** [Vector<T>] *)

Section VectorCode.
Context {T : Type} `{!Element T}.

Definition Size (this : nat) : M T Z := get_size this.

Definition Capacity (this : nat) : M T Z := RawMemory_Capacity (Member this).

Definition begin (this : nat) : M T pointer := GetAddress (Member this).

Definition end_ (this : nat) : M T pointer :=
  p <- GetAddress (Member this) ;;
  n <- get_size this ;;
  ret (p +ₚ n).

Definition cbegin (this : nat) : M T pointer := begin this.

Definition cend (this : nat) : M T pointer := end_ this.

(** [T &operator[](size_t index) noexcept] *)
Definition Vector_index (this : nat) (index : Z) : M T pointer :=
  n <- get_size this ;;
  assert (index <? n) ;;
  RawMemory_index (Member this) index.

(** [Vector() = default] *)
Definition Vector_default (this : nat) : M T unit :=
  put_vec this (mkVector (mkRawMemory None 0) 0).

(** [explicit Vector(size_t size)]: when the body throws, the member
    [data_] is destroyed and no object comes to exist. *)
Definition Vector_ctor (this : nat) (size : Z) : M T unit :=
  buf <- Allocate size ;;
  put_vec this (mkVector (mkRawMemory buf size) size) ;;
  on_throw
    (p <- GetAddress (Member this) ;;
     uninitialized_value_construct_n p size)
    (RawMemory_dtor (Member this) ;; remove_vec this).

(** [~Vector()], followed by the destruction of the member [data_]. *)
Definition Vector_dtor (this : nat) : M T unit :=
  p <- GetAddress (Member this) ;;
  n <- get_size this ;;
  destroy_n p (Z.to_nat n) ;;
  RawMemory_dtor (Member this) ;;
  remove_vec this.

(** [Vector(const Vector &other)] *)
Definition Vector_copy_ctor (this other : nat) : M T unit :=
  n <- get_size other ;;
  buf <- Allocate n ;;
  put_vec this (mkVector (mkRawMemory buf n) n) ;;
  on_throw
    (src <- GetAddress (Member other) ;;
     n <- get_size other ;;
     dst <- GetAddress (Member this) ;;
     uninitialized_copy_n src n dst)
    (RawMemory_dtor (Member this) ;; remove_vec this).

(** [void Swap(Vector &other) noexcept] *)
Definition Swap (this other : nat) : M T unit :=
  std_swap_RawMemory (Member this) (Member other) ;;
  a <- get_size this ;;
  b <- get_size other ;;
  set_size this b ;;
  set_size other a.

(** [Vector(Vector &&other) noexcept] *)
Definition Vector_move_ctor (this other : nat) : M T unit :=
  Vector_default this ;;
  Swap this other.

(** A local [Vector]. *)
Definition with_local_vector {A} (init : nat -> M T unit) (body : nat -> M T A) : M T A :=
  s <- get_state ;;
  let l := fresh (dom (vecs s)) in
  init l ;;
  finally (body l) (Vector_dtor l).

(** [Vector &operator=(const Vector &rhs)] *)
Definition Vector_copy_assign (this rhs : nat) : M T unit :=
  if decide (this <> rhs) then
    rhs_size <- get_size rhs ;;
    cap <- Capacity this ;;
    if cap <? rhs_size then
      with_local_vector (fun rhs_copy => Vector_copy_ctor rhs_copy rhs)
        (fun rhs_copy => Swap this rhs_copy)
    else
      size <- get_size this ;;
      src <- GetAddress (Member rhs) ;;
      dst <- GetAddress (Member this) ;;
      (if size <=? rhs_size then
         copy_n src size dst ;;
         let offset := wrap (rhs_size - size) in
         uninitialized_copy_n (src +ₚ size) offset (dst +ₚ size)
       else
         copy_n src rhs_size dst ;;
         let offset := wrap (size - rhs_size) in
         destroy_n (dst +ₚ rhs_size) (Z.to_nat offset)) ;;
      rhs_size <- get_size rhs ;;
      set_size this rhs_size
  else ret tt.

(** [Vector &operator=(Vector &&rhs) noexcept] *)
Definition Vector_move_assign (this rhs : nat) : M T unit :=
  if decide (this <> rhs) then Swap this rhs else ret tt.

(** The choice made by [if constexpr]. *)
Definition relocate_by_move : bool :=
  nothrow_move_constructible || negb copy_constructible.

(** [void MoveOrCopyDataAndReplace(RawMemory<T> &&new_data)] *)
Definition MoveOrCopyDataAndReplace (this : nat) (new_data : raw_ref) : M T unit :=
  src <- GetAddress (Member this) ;;
  n <- get_size this ;;
  dst <- GetAddress new_data ;;
  (if relocate_by_move then uninitialized_move_n src n dst
   else uninitialized_copy_n src n dst) ;;
  destroy_n src (Z.to_nat n) ;;
  RawMemory_Swap (Member this) new_data.

(** [void MoveOrCopyDataByPartAndReplace(RawMemory<T> &&new_data, size_t count)] *)
Definition MoveOrCopyDataByPartAndReplace (this : nat) (new_data : raw_ref) (count : Z)
    : M T unit :=
  b <- begin this ;;
  e <- end_ this ;;
  dst <- GetAddress new_data ;;
  (if relocate_by_move then
     uninitialized_move b (b +ₚ count) dst ;;
     uninitialized_move (b +ₚ count) e (dst +ₚ count +ₚ 1)
   else
     uninitialized_copy b (b +ₚ count) dst ;;
     uninitialized_copy (b +ₚ count) e (dst +ₚ count +ₚ 1)) ;;
  src <- GetAddress (Member this) ;;
  n <- get_size this ;;
  destroy_n src (Z.to_nat n) ;;
  RawMemory_Swap (Member this) new_data.

(** [void Reserve(size_t new_capacity)] *)
Definition Reserve (this : nat) (new_capacity : Z) : M T unit :=
  cap <- Capacity this ;;
  if new_capacity <=? cap then ret tt
  else
    with_local (fun tmp => RawMemory_ctor tmp new_capacity)
      (fun tmp => MoveOrCopyDataAndReplace this tmp).

(** [void Resize(size_t new_size)] *)
Definition Resize (this : nat) (new_size : Z) : M T unit :=
  size <- get_size this ;;
  (if new_size <=? size then
     let offset := wrap (size - new_size) in
     p <- GetAddress (Member this) ;;
     destroy_n (p +ₚ new_size) (Z.to_nat offset)
   else
     Reserve this new_size ;;
     size <- get_size this ;;
     let offset := wrap (new_size - size) in
     p <- GetAddress (Member this) ;;
     uninitialized_value_construct_n (p +ₚ size) offset) ;;
  set_size this new_size.

(** [template<typename... Args> T &EmplaceBack(Args &&...args)]; the
    reference it returns is a pointer. *)
Definition EmplaceBack (this : nat) (args : ctor_args T) : M T pointer :=
  size <- get_size this ;;
  cap <- Capacity this ;;
  (if size =? cap then
     with_local (fun new_data => RawMemory_ctor new_data (if size =? 0 then 1 else wrap (size * 2)))
       (fun new_data =>
          p <- RawMemory_plus new_data size ;;
          construct_at p args ;;
          MoveOrCopyDataAndReplace this new_data)
   else
     p <- RawMemory_plus (Member this) size ;;
     construct_at p args) ;;
  size <- get_size this ;;
  p <- RawMemory_plus (Member this) size ;;
  set_size this (wrap (size + 1)) ;;
  ret p.

(** [void PushBack(const T &value)] and [void PushBack(T &&value)] *)
Definition PushBack (this : nat) (value : ctor_args T) : M T unit :=
  EmplaceBack this value ;; ret tt.

(** [void PopBack() noexcept] *)
Definition PopBack (this : nat) : M T unit :=
  size <- get_size this ;;
  assert (0 <? size) ;;
  set_size this (wrap (size - 1)) ;;
  p <- GetAddress (Member this) ;;
  size <- get_size this ;;
  destroy_n (p +ₚ size) 1.

(** [template<typename... Args> iterator Emplace(const_iterator pos, Args &&...args)] *)
Definition Emplace (this : nat) (pos : pointer) (args : ctor_args T) : M T pointer :=
  e <- cend this ;;
  if decide (pos = e) then EmplaceBack this args
  else
    b <- cbegin this ;;
    d <- distance b pos ;;
    let count := wrap d in
    size <- get_size this ;;
    cap <- Capacity this ;;
    (if size =? cap then
       with_local (fun new_data => RawMemory_ctor new_data (if size =? 0 then 1 else wrap (size * 2)))
         (fun new_data =>
            p <- RawMemory_plus new_data count ;;
            construct_at p args ;;
            MoveOrCopyDataByPartAndReplace this new_data count)
     else
       e <- end_ this ;;
       move_construct e (e +ₚ -1) ;;
       b <- begin this ;;
       e <- end_ this ;;
       move_backward (b +ₚ count) (e +ₚ -1) e ;;
       x <- temporary args ;;
       b <- begin this ;;
       assign_temporary (b +ₚ count) x) ;;
    size <- get_size this ;;
    set_size this (wrap (size + 1)) ;;
    b <- begin this ;;
    ret (b +ₚ count).

(** [iterator Insert(const_iterator pos, const T &value)] and
    [iterator Insert(const_iterator pos, T &&value)] *)
Definition Insert (this : nat) (pos : pointer) (value : ctor_args T) : M T pointer :=
  Emplace this pos value.

(** [iterator Erase(const_iterator pos)] *)
Definition Erase (this : nat) (pos : pointer) : M T pointer :=
  e <- cend this ;;
  d <- distance pos e ;;
  let count := wrap d in
  e <- end_ this ;;
  move (e +ₚ -count +ₚ 1) e (e +ₚ -count) ;;
  PopBack this ;;
  e <- end_ this ;;
  ret (e +ₚ -count +ₚ 1).
End VectorCode.

(** ** Two element types to run the code on *)

(** [int]: trivially copyable, nothing throws. *)
#[local] Program Instance int_element : Element Z := {|
  sizeof := 4;
  value_init := 0;
  moved_from := fun x => x;
  nothrow_move_constructible := true;
  copy_constructible := true;
|}.
Next Obligation. lia. Qed.

(** A string-like type: a move empties the source, and the move
    constructor is not [noexcept], so that relocation copies. *)
#[local] Program Instance text_element : Element (list Z) := {|
  sizeof := 32;
  value_init := [];
  moved_from := fun _ => [];
  nothrow_move_constructible := false;
  copy_constructible := true;
|}.
Next Obligation. lia. Qed.

(** The state before anything was created. *)
Definition initial {T} (sc : list bool) : state T := State ∅ ∅ ∅ sc [].

(** ** What it means for a [Vector] object to hold a sequence of values *)

Section Representation.
Context {T : Type} `{!Element T}.

(** A block of [cap] slots of which the first [length xs] hold [xs]. *)
Definition block_of (xs : list T) (cap : Z) : list (option T) :=
  (Some <$> xs) ++ replicate (Z.to_nat cap - length xs)%nat None.

(** In state [s] the object [this] is a [Vector] with buffer [buf] and
    capacity [cap] whose elements are [xs]. *)
Definition is_vector (s : state T) (this : nat) (buf : option addr) (cap : Z)
    (xs : list T) : Prop :=
  vecs s !! this = Some (mkVector (mkRawMemory buf cap) (Z.of_nat (length xs))) /\
  Z.of_nat (length xs) <= cap /\
  cap * sizeof <= PTRDIFF_MAX /\
  match buf with
  | Some a => 0 < cap /\ heap s !! a = Some (block_of xs cap)
  | None => cap = 0
  end.
End Representation.

(** ** Concrete programs and states *)

(** A vector of [int] that holds 1, 2 in a block of two. *)
Definition two_ints : state Z :=
  State {[ 0%nat := [Some 1; Some 2] ]}
        {[ 0%nat := mkVector (mkRawMemory (Some 0%nat) 2) 2 ]} ∅ [] [].

(** Two vectors of [int]: the first holds 1, 2 in a block of two, the
    second 7, 8, 9 in a block of four. *)
Definition two_vectors (sc : list bool) : state Z :=
  State {[ 0%nat := [Some 1; Some 2]; 1%nat := [Some 7; Some 8; Some 9; None] ]}
        {[ 0%nat := mkVector (mkRawMemory (Some 0%nat) 2) 2;
           1%nat := mkVector (mkRawMemory (Some 1%nat) 4) 3 ]} ∅ sc [].

(** [Vector<int> v; v.Reserve(4); v.PushBack(1); v.PushBack(2);
    v.PushBack(3); v.Insert(v.begin(), v[2]);]: the insertion finds spare
    capacity. *)
Definition insert_own_element_spare : M Z pointer :=
  Vector_default 0 ;;
  Reserve 0 4 ;;
  PushBack 0 (Forward 1) ;;
  PushBack 0 (Forward 2) ;;
  PushBack 0 (Forward 3) ;;
  b <- begin 0 ;;
  r <- Vector_index 0 2 ;;
  Insert 0 b (CopyElem r).

(** [Vector<int> v; v.PushBack(1); v.PushBack(2); v.PushBack(3);
    v.PushBack(4); v.Insert(v.begin(), v[3]);]: the insertion finds the
    vector full. *)
Definition insert_own_element_full : M Z pointer :=
  Vector_default 0 ;;
  PushBack 0 (Forward 1) ;;
  PushBack 0 (Forward 2) ;;
  PushBack 0 (Forward 3) ;;
  PushBack 0 (Forward 4) ;;
  b <- begin 0 ;;
  r <- Vector_index 0 3 ;;
  Insert 0 b (CopyElem r).

(** [RawMemory<int> dst(2), src(3); dst = std::move(src);] *)
Definition move_assign_nonempty : M Z unit :=
  RawMemory_ctor (Local 0) 2 ;;
  RawMemory_ctor (Local 1) 3 ;;
  RawMemory_move_assign (Local 0) (Local 1).

(** ** The events of the loops *)

Section Events.
Context {T : Type}.

(** A loop that steps two pointers upwards. *)
Definition loop_events (mk : pointer -> pointer -> event T) (d q : pointer) (n : nat)
    : list (event T) :=
  (fun k : nat => mk (d +ₚ Z.of_nat k) (q +ₚ Z.of_nat k)) <$> seq 0 n.

(** A loop that steps two pointers downwards, starting below them. *)
Definition backward_events (mk : pointer -> pointer -> event T) (d q : pointer) (n : nat)
    : list (event T) :=
  (fun k : nat => mk (d +ₚ (- Z.of_nat (S k))) (q +ₚ (- Z.of_nat (S k)))) <$> seq 0 n.

Definition destroy_events (p : pointer) (n : nat) : list (event T) :=
  (fun k : nat => EvDestroy (p +ₚ Z.of_nat k)) <$> seq 0 n.

Definition value_events (p : pointer) (n : nat) : list (event T) :=
  (fun k : nat => EvValueConstruct (p +ₚ Z.of_nat k)) <$> seq 0 n.
End Events.

(** ** Moved-from values left behind by the shifting loops *)

Section Shifts.
Context {T : Type} `{!Element T}.

(** After the objects [ys] were move-assigned one slot down, onto a slot
    that held [x], the slot on top holds this. *)
Fixpoint after_move_down (ys : list T) (x : T) : T :=
  match ys with
  | [] => x
  | y :: ys' => after_move_down ys' (moved_from y)
  end.

(** After the objects [ys] were move-assigned one slot up, onto a slot
    that held [x], the slot at the bottom holds this. *)
Definition after_move_up (ys : list T) (x : T) : T :=
  match ys with
  | [] => x
  | y :: _ => moved_from y
  end.
End Shifts.

(** ** What the arguments of a constructor call denote *)

Section Arguments.
Context {T : Type} `{!Element T}.

(** The live object that [q] points to in heap [h], if there is one. *)
Definition peek (h : gmap addr (list (option T))) (q : pointer) : option T :=
  match base q with
  | Some a =>
      match h !! a with
      | Some blk =>
          if 0 <=? off q then
            match blk !! Z.to_nat (off q) with
            | Some (Some x) => Some x
            | _ => None
            end
          else None
      | None => None
      end
  | None => None
  end.

(** The value that [args] build on heap [h], for arguments that leave
    every modelled object as it is: values and const references. *)
Definition arg_value (h : gmap addr (list (option T))) (args : ctor_args T) : option T :=
  match args with
  | Forward x => Some x
  | CopyElem q => peek h q
  | MoveElem _ => None
  end.

(** The event of [construct_at p args]. *)
Definition arg_event (p : pointer) (args : ctor_args T) : event T :=
  match args with
  | Forward x => EvConstruct p x
  | CopyElem q => EvCopyConstruct p q
  | MoveElem q => EvMoveConstruct p q
  end.

(** Relocation moves or copies, as [relocate_by_move] says. *)
Definition EvRelocate : pointer -> pointer -> event T :=
  if relocate_by_move then EvMoveConstruct else EvCopyConstruct.

(** What the source objects hold after relocation. *)
Definition relocated (ys : list T) : list T :=
  if relocate_by_move then moved_from <$> ys else ys.

(** The capacity that [EmplaceBack] and [Emplace] grow a full vector of
    size [n] to. *)
Definition grown (n : Z) : Z := if n =? 0 then 1 else wrap (n * 2).

(** The heap without the block of a buffer. *)
Definition release (buf : option addr) (h : gmap addr (list (option T)))
    : gmap addr (list (option T)) :=
  match buf with
  | Some a => delete a h
  | None => h
  end.

Definition release_events (buf : option addr) : list (event T) :=
  match buf with
  | Some a => [EvDelete a]
  | None => []
  end.
End Arguments.


(** ** The block in the middle of an insertion into spare capacity *)

Section Shifted.
Context {T : Type} `{!Element T}.

(** A vector holds [xs1 ++ ys ++ [z]] in a block of [cap] slots.  This is
    its block once the last element was move-constructed into the first
    raw slot and [ys] was moved one slot up: the slot at offset
    [length xs1] waits for the new value. *)
Definition shifted_block (xs1 ys : list T) (z : T) (cap : Z) : list (option T) :=
  (Some <$> xs1) ++ Some (after_move_up ys (moved_from z)) :: (Some <$> ys) ++
  Some z :: replicate (Z.to_nat cap - (length xs1 + length ys + 1) - 1)%nat None.
End Shifted.

(** ** Arguments that do not designate an element of the vector itself *)

(** The arguments designate no object in the block of buffer [buf]. *)
Definition outside {T} (buf : option addr) (args : ctor_args T) : Prop :=
  match args with
  | Forward _ => True
  | CopyElem q | MoveElem q => base q <> buf
  end.

(** ** The invariant of a vector and the calls of the interface *)

Section Interface.
Context {T : Type} `{!Element T}.

(** The members of a [Vector] object are in order: the size is within
    the capacity and the capacity is one that a block can have. *)
Definition vector_ok (v : Vector) : Prop :=
  0 <= size_ v <= capacity_ (data_ v) /\
  capacity_ (data_ v) * sizeof <= PTRDIFF_MAX.

Definition all_ok (s : state T) : Prop :=
  forall r v, vecs s !! r = Some v -> vector_ok v.

(** No vector of [s] has a smaller capacity in [s']. *)
Definition capacities_kept (s s' : state T) : Prop :=
  forall r v, vecs s !! r = Some v ->
    exists v', vecs s' !! r = Some v' /\
               capacity_ (data_ v) <= capacity_ (data_ v').

Definition capacity_of (s : state T) (r : nat) : option Z :=
  (fun v => capacity_ (data_ v)) <$> vecs s !! r.

Definition size_of (s : state T) (r : nat) : option Z :=
  size_ <$> vecs s !! r.

(** A call of a constructor or of a member function. *)
Inductive call :=
  | CallDefault (this : nat)                  (* Vector() *)
  | CallSized (this : nat) (size : Z)         (* Vector(size) *)
  | CallCopy (this other : nat)               (* Vector(const Vector&) *)
  | CallMove (this other : nat)               (* Vector(Vector&&) *)
  | CallCopyAssign (this rhs : nat)
  | CallMoveAssign (this rhs : nat)
  | CallSwap (this other : nat)
  | CallReserve (this : nat) (new_capacity : Z)
  | CallResize (this : nat) (new_size : Z)
  | CallPushBack (this : nat) (value : ctor_args T)
  | CallPopBack (this : nat)
  | CallInsert (this : nat) (pos : pointer) (value : ctor_args T)
  | CallErase (this : nat) (pos : pointer).

Definition run_call (c : call) : M T unit :=
  match c with
  | CallDefault this => Vector_default this
  | CallSized this size => Vector_ctor this size
  | CallCopy this other => Vector_copy_ctor this other
  | CallMove this other => Vector_move_ctor this other
  | CallCopyAssign this rhs => Vector_copy_assign this rhs
  | CallMoveAssign this rhs => Vector_move_assign this rhs
  | CallSwap this other => Swap this other
  | CallReserve this n => Reserve this n
  | CallResize this n => Resize this n
  | CallPushBack this value => PushBack this value
  | CallPopBack this => PopBack this
  | CallInsert this pos value => Insert this pos value ;; ret tt
  | CallErase this pos => Erase this pos ;; ret tt
  end.

(** What the types of a call promise: a constructor runs on storage that
    holds no object yet, with a source that is another object, and a
    [size_t] argument is in range.  A request for capacity is moreover one
    whose size in bytes is a [size_t]. *)
Definition call_ok (s : state T) (c : call) : Prop :=
  match c with
  | CallDefault this => vecs s !! this = None
  | CallCopy this other | CallMove this other => vecs s !! this = None /\ this <> other
  | CallSized this n => vecs s !! this = None /\ 0 <= n /\ n * sizeof < 2 ^ 64
  | CallReserve _ n | CallResize _ n => 0 <= n /\ n * sizeof < 2 ^ 64
  | _ => True
  end.

(** What a call does to the capacities: [Swap] and the move assignment
    exchange those of the two vectors, the move constructor gives the new
    vector the capacity of the source and leaves the source with none, and
    after any other call no vector has a smaller capacity than before. *)
Definition capacities_after (c : call) (s s' : state T) : Prop :=
  match c with
  | CallSwap a b | CallMoveAssign a b =>
      capacity_of s' a = capacity_of s b /\
      capacity_of s' b = capacity_of s a /\
      forall r, r <> a -> r <> b -> capacity_of s' r = capacity_of s r
  | CallMove a b =>
      capacity_of s' a = capacity_of s b /\
      capacity_of s' b = Some 0 /\
      forall r, r <> a -> r <> b -> capacity_of s' r = capacity_of s r
  | _ => capacities_kept s s'
  end.

(** How [PushBack] changes a capacity: not at all, from 0 to 1, or to
    its double. *)
Definition grows (c c' : Z) : Prop :=
  c' = c \/ (c = 0 /\ c' = 1) \/ (0 < c /\ c' = 2 * c).

Inductive back_op :=
  | OpPushBack (value : ctor_args T)
  | OpPopBack.

Definition run_back_op (this : nat) (o : back_op) : M T unit :=
  match o with
  | OpPushBack value => PushBack this value
  | OpPopBack => PopBack this
  end.

(** The states seen after each of a sequence of calls, up to the first
    call without defined behaviour; a call that throws is observed like one
    that returns. *)
Fixpoint observe (this : nat) (ops : list back_op) (s : state T) : list (state T) :=
  match ops with
  | [] => []
  | o :: ops' =>
      match run_back_op this o s with
      | Ok _ s' | Throw s' => s' :: observe this ops' s'
      | Fault => []
      end
  end.

(** The size of [this] is within its capacity in [s]. *)
Definition size_within (this : nat) (s : state T) : Prop :=
  exists n c, size_of s this = Some n /\ capacity_of s this = Some c /\ 0 <= n <= c.

(** From [s1] to [s2] the capacity of [this] stayed or grew as [grows]
    says. *)
Definition capacity_step (this : nat) (s1 s2 : state T) : Prop :=
  exists c1 c2,
    capacity_of s1 this = Some c1 /\ capacity_of s2 this = Some c2 /\
    c1 <= c2 /\ grows c1 c2.

(** What holds of the state in which a call returns or throws. *)
Definition after {A} (m : M T A) (s : state T) (P : state T -> Prop) : Prop :=
  match m s with
  | Ok _ s' | Throw s' => P s'
  | Fault => True
  end.

(** The call changed the vector [this] and nothing else. *)
Definition changes (this : nat) (s : state T) (P : Vector -> Prop) (s' : state T) : Prop :=
  exists v', vecs s' = <[this := v']> (vecs s) /\ raws s' = raws s /\ P v'.

(** The call made the vector [this], or threw and made nothing. *)
Definition creates (this : nat) (s : state T) (P : Vector -> Prop) (s' : state T) : Prop :=
  raws s' = raws s /\
  (vecs s' = vecs s \/ exists v', vecs s' = <[this := v']> (vecs s) /\ P v').

(** [m] changes no [Vector] and no [RawMemory] object, whatever it does
    to the heap, and its result satisfies [R]. *)
Definition mem_only {A} (m : M T A) (R : A -> Prop) : Prop :=
  forall s,
    match m s with
    | Ok a s' => vecs s' = vecs s /\ raws s' = raws s /\ R a
    | Throw s' => vecs s' = vecs s /\ raws s' = raws s
    | Fault => True
    end.
End Interface.

(** ** Sequences of calls *)

Section Programs.
Context {T : Type} `{!Element T}.

(** [for (const T &y : ys) v.PushBack(y);], for values [ys] that live
    outside the vector. *)
Fixpoint push_all (this : nat) (ys : list T) : M T unit :=
  match ys with
  | [] => ret tt
  | y :: ys' => PushBack this (Forward y) ;; push_all this ys'
  end.
End Programs.
(** ** Reasoning about monadic programs *)

Section Rules.
Context {T : Type} `{!Element T}.

Lemma bind_Ok {A B} (m : M T A) (f : A -> M T B) s a s' :
  m s = Ok a s' -> bind m f s = f a s'.
Proof. unfold bind. intros ->. reflexivity. Qed.

Lemma bind_Throw {A B} (m : M T A) (f : A -> M T B) s s' :
  m s = Throw s' -> bind m f s = Throw s'.
Proof. unfold bind. intros ->. reflexivity. Qed.

Lemma bind_Fault {A B} (m : M T A) (f : A -> M T B) s :
  m s = Fault -> bind m f s = Fault.
Proof. unfold bind. intros ->. reflexivity. Qed.
End Rules.

(** Running a program on a state whose objects are known: unfold the
    straight-line part, then look the objects up. *)
Ltac munfold :=
  cbv beta iota delta
    [bind ret fault throw assert on_throw finally get_state put_state log set_heap
     get_vec put_vec remove_vec get_size set_size get_raw set_raw remove_local
     operator_delete Deallocate
     RawMemory_default RawMemory_ctor RawMemory_dtor RawMemory_Swap RawMemory_move_ctor
     RawMemory_move_assign RawMemory_plus RawMemory_index GetAddress RawMemory_Capacity
     with_local std_swap_RawMemory
     Size Capacity begin end_ cbegin cend Vector_default Swap Vector_move_ctor
     Vector_move_assign PopBack Vector_dtor ptr_add distance];
  cbn [heap vecs raws script trace data_ size_ buffer_ capacity_ base off];
  rewrite ?Z.add_0_l, ?Z.sub_0_r.

Ltac mlookup :=
  repeat first
    [ rewrite insert_insert_eq
    | rewrite lookup_insert_eq
    | rewrite lookup_delete_eq
    | rewrite lookup_insert_ne by congruence
    | rewrite lookup_delete_ne by congruence
    | match goal with
      | H : ?m !! ?k = _ |- context [?m !! ?k] => rewrite H
      end ].

Ltac mdecide :=
  repeat match goal with
    | |- context [decide (?a <> ?b)] =>
        first [ rewrite (decide_True (P := a <> b)) by congruence
              | rewrite (decide_False (P := a <> b)) by (intros ?; congruence) ]
    | |- context [decide (?a = ?b)] =>
        first [ rewrite (decide_True (P := a = b)) by congruence
              | rewrite (decide_False (P := a = b)) by congruence ]
    end.

Ltac mbool :=
  repeat match goal with
    | |- context [?a <=? ?b] =>
        first [ rewrite (proj2 (Z.leb_le a b)) by lia
              | rewrite (proj2 (Z.leb_gt a b)) by lia ]
    | |- context [?a <? ?b] =>
        first [ rewrite (proj2 (Z.ltb_lt a b)) by lia
              | rewrite (proj2 (Z.ltb_ge a b)) by lia ]
    | |- context [?a =? ?b] =>
        first [ rewrite (proj2 (Z.eqb_eq a b)) by lia
              | rewrite (proj2 (Z.eqb_neq a b)) by lia ]
    end.

(** Equality of two blocks written with the same shape. *)
Ltac block_eq :=
  repeat match goal with
    | |- _ ++ _ = _ ++ _ => f_equal
    | |- _ :: _ = _ :: _ => f_equal
    | |- replicate _ _ = replicate _ _ => f_equal; lia
    end;
  try done.

Ltac mrun := repeat (progress (munfold; mlookup; mdecide; mbool)).

(** ** Objects and [Swap] *)

Section Objects.
Context {T : Type} `{!Element T}.

Lemma is_vector_empty (s : state T) this :
  vecs s !! this = Some (mkVector (mkRawMemory None 0) 0) ->
  is_vector s this None 0 [].
Proof. intros H. repeat split; simpl; try done; unfold PTRDIFF_MAX; lia. Qed.

Lemma fresh_local_None (rs : gmap nat RawMemory) : rs !! fresh (dom rs) = None.
Proof. apply not_elem_of_dom, is_fresh. Qed.

Lemma fresh_block_None (h : gmap addr (list (option T))) : h !! fresh (dom h) = None.
Proof. apply not_elem_of_dom, is_fresh. Qed.

Lemma delete_fresh_insert {V} (m : gmap nat V) (x : V) :
  delete (fresh (dom m)) (<[fresh (dom m) := x]> m) = m.
Proof.
  rewrite delete_insert_eq. apply delete_id, not_elem_of_dom, is_fresh.
Qed.

(** [Swap] of two different vectors exchanges their members and nothing
    else. *)
Lemma Swap_distinct (s : state T) this other a b :
  this <> other ->
  vecs s !! this = Some a -> vecs s !! other = Some b ->
  Swap this other s =
    Ok tt (State (heap s) (<[other := a]> (<[this := b]> (vecs s)))
             (raws s) (script s) (trace s)).
Proof.
  intros Hne Ha Hb. destruct a as [[bufa capa] na], b as [[bufb capb] nb].
  mrun. rewrite delete_fresh_insert. do 2 f_equal.
  apply map_eq. intros k.
  destruct (decide (k = other)) as [->|]; [mlookup; done|].
  destruct (decide (k = this)) as [->|]; mlookup; done.
Qed.

(** [Swap] of a vector with itself changes nothing. *)
Lemma Swap_self (s : state T) this a :
  vecs s !! this = Some a ->
  Swap this this s = Ok tt s.
Proof.
  intros Ha. destruct a as [[bufa capa] na]. destruct s as [h vs rs sc tr].
  simpl in Ha. mrun. rewrite delete_fresh_insert. do 2 f_equal.
  by apply insert_id.
Qed.
End Objects.

(** ** Reading and writing slots *)

Section Slots.
Context {T : Type} `{!Element T}.
Implicit Types (h : gmap addr (list (option T))) (vs : gmap nat Vector)
  (rs : gmap nat RawMemory) (sc : list bool) (tr : list (event T)).

Lemma lookup_mid {A} (pre post : list A) (x : A) (i : Z) :
  i = Z.of_nat (length pre) -> (pre ++ x :: post) !! Z.to_nat i = Some x.
Proof. intros ->. rewrite Nat2Z.id. by apply list_lookup_middle. Qed.

Lemma insert_mid {A} (pre post : list A) (x y : A) (i : Z) :
  i = Z.of_nat (length pre) ->
  <[Z.to_nat i := y]> (pre ++ x :: post) = pre ++ y :: post.
Proof.
  intros ->. rewrite Nat2Z.id.
  replace (length pre) with (length pre + 0)%nat by lia.
  by rewrite insert_app_r.
Qed.

Lemma slot_mid h vs rs sc tr a pre o post i :
  h !! a = Some (pre ++ o :: post) -> i = Z.of_nat (length pre) ->
  slot (Ptr (Some a) i) (State h vs rs sc tr) = Ok o (State h vs rs sc tr).
Proof.
  intros Hh Hi. unfold slot. cbn. rewrite Hh.
  destruct (0 <=? i) eqn:Hpos; [|lia].
  by rewrite (lookup_mid pre post o i Hi).
Qed.

Lemma read_mid h vs rs sc tr a pre x post i :
  h !! a = Some (pre ++ Some x :: post) -> i = Z.of_nat (length pre) ->
  read (Ptr (Some a) i) (State h vs rs sc tr) = Ok x (State h vs rs sc tr).
Proof.
  intros Hh Hi. unfold read, bind. by rewrite (slot_mid _ _ _ _ _ _ _ _ _ _ Hh Hi).
Qed.

Lemma write_mid h vs rs sc tr a pre o o' post i :
  h !! a = Some (pre ++ o :: post) -> i = Z.of_nat (length pre) ->
  write (Ptr (Some a) i) o' (State h vs rs sc tr) =
    Ok tt (State (<[a := pre ++ o' :: post]> h) vs rs sc tr).
Proof.
  intros Hh Hi. unfold write, bind.
  rewrite (slot_mid _ _ _ _ _ _ _ _ _ _ Hh Hi). cbn. rewrite Hh. cbn.
  by rewrite (insert_mid pre post o o' i Hi).
Qed.

Lemma may_throw_quiet h vs rs tr :
  may_throw (State h vs rs [] tr) = Ok tt (State h vs rs [] tr).
Proof. reflexivity. Qed.

Lemma destroy_at_mid h vs rs sc tr a pre x post i :
  h !! a = Some (pre ++ Some x :: post) -> i = Z.of_nat (length pre) ->
  destroy_at (Ptr (Some a) i) (State h vs rs sc tr) =
    Ok tt (State (<[a := pre ++ None :: post]> h) vs rs sc
             (tr ++ [EvDestroy (Ptr (Some a) i)])).
Proof.
  intros Hh Hi. unfold destroy_at, bind.
  rewrite (read_mid _ _ _ _ _ _ _ _ _ _ Hh Hi).
  by rewrite (write_mid _ _ _ _ _ _ _ _ None _ _ Hh Hi).
Qed.
End Slots.

(** ** The loops *)

Section Loops.
Context {T : Type} `{!Element T}.
Implicit Types (h : gmap addr (list (option T))) (vs : gmap nat Vector)
  (rs : gmap nat RawMemory) (sc : list bool) (tr : list (event T)).

Lemma ptr_add_0 p : p +ₚ 0 = p.
Proof. destruct p. unfold ptr_add. cbn. f_equal. lia. Qed.

Lemma ptr_add_add p a b : p +ₚ a +ₚ b = p +ₚ (a + b).
Proof. destruct p. unfold ptr_add. cbn. f_equal. lia. Qed.

Lemma loop_events_S (mk : pointer -> pointer -> event T) d q n :
  loop_events mk d q (S n) = mk d q :: loop_events mk (d +ₚ 1) (q +ₚ 1) n.
Proof.
  unfold loop_events. cbn [seq fmap list_fmap]. rewrite !ptr_add_0. f_equal.
  rewrite <- fmap_S_seq, <- list_fmap_compose. apply list_fmap_ext.
  intros _ k _. cbn. rewrite !ptr_add_add. do 2 f_equal; lia.
Qed.

Lemma destroy_events_S (p : pointer) n :
  destroy_events (T := T) p (S n) = EvDestroy p :: destroy_events (p +ₚ 1) n.
Proof.
  unfold destroy_events. cbn [seq fmap list_fmap]. rewrite !ptr_add_0. f_equal.
  rewrite <- fmap_S_seq, <- list_fmap_compose. apply list_fmap_ext.
  intros _ k _. cbn. rewrite !ptr_add_add. do 2 f_equal; lia.
Qed.

Lemma value_events_S (p : pointer) n :
  value_events (T := T) p (S n) = EvValueConstruct p :: value_events (p +ₚ 1) n.
Proof.
  unfold value_events. cbn [seq fmap list_fmap]. rewrite !ptr_add_0. f_equal.
  rewrite <- fmap_S_seq, <- list_fmap_compose. apply list_fmap_ext.
  intros _ k _. cbn. rewrite !ptr_add_add. do 2 f_equal; lia.
Qed.

Lemma backward_events_S (mk : pointer -> pointer -> event T) d q n :
  backward_events mk d q (S n) =
    mk (d +ₚ -1) (q +ₚ -1) :: backward_events mk (d +ₚ -1) (q +ₚ -1) n.
Proof.
  unfold backward_events. cbn [seq fmap list_fmap]. f_equal.
  rewrite <- fmap_S_seq, <- list_fmap_compose. apply list_fmap_ext.
  intros _ k _. cbn. rewrite !ptr_add_add. do 2 f_equal; lia.
Qed.

(** [destroy_n] over live objects leaves raw storage. *)
Lemma destroy_n_spec (ys : list T) : forall h tr pre post i a vs rs sc,
  h !! a = Some (pre ++ (Some <$> ys) ++ post) ->
  i = Z.of_nat (length pre) ->
  destroy_n (Ptr (Some a) i) (length ys) (State h vs rs sc tr) =
    Ok tt (State (<[a := pre ++ replicate (length ys) None ++ post]> h) vs rs sc
             (tr ++ destroy_events (Ptr (Some a) i) (length ys))).
Proof.
  induction ys as [|y ys IH]; intros h tr pre post i a vs rs sc Hh Hi.
  - cbn. unfold ret. rewrite app_nil_r. by rewrite insert_id.
  - cbn [length destroy_n]. unfold bind.
    rewrite fmap_cons, <- app_comm_cons in Hh.
    rewrite (destroy_at_mid _ _ _ _ _ _ _ _ _ _ Hh Hi).
    rewrite (IH _ _ (pre ++ [None]) post (i + 1) a).
    + rewrite insert_insert_eq, destroy_events_S, <- !app_assoc. reflexivity.
    + rewrite lookup_insert_eq, <- app_assoc. reflexivity.
    + rewrite length_app. cbn. lia.
Qed.

(** *** The operations of [T] on known slots *)

Lemma copy_construct_spec h vs rs sc tr a a' pre y post dpre o dpost i d :
  h !! a = Some (pre ++ Some y :: post) -> i = Z.of_nat (length pre) ->
  h !! a' = Some (dpre ++ o :: dpost) -> d = Z.of_nat (length dpre) ->
  copy_construct (Ptr (Some a') d) (Ptr (Some a) i) (State h vs rs sc tr) =
    match sc with
    | true :: sc' => Throw (State h vs rs sc' tr)
    | _ => Ok tt (State (<[a' := dpre ++ Some y :: dpost]> h) vs rs (tail sc)
                    (tr ++ [EvCopyConstruct (Ptr (Some a') d) (Ptr (Some a) i)]))
    end.
Proof.
  intros Hs Hi Hd Hd0. unfold copy_construct, bind.
  rewrite (read_mid _ _ _ _ _ _ _ _ _ _ Hs Hi).
  destruct sc as [|[] sc']; cbn [may_throw script heap vecs raws trace tail]; try done;
    by rewrite (write_mid _ _ _ _ _ _ _ _ (Some y) _ _ Hd Hd0).
Qed.

Lemma move_construct_spec h vs rs sc tr a a' pre y post dpre o dpost i d :
  a <> a' ->
  (nothrow_move_constructible = false -> sc = []) ->
  h !! a = Some (pre ++ Some y :: post) -> i = Z.of_nat (length pre) ->
  h !! a' = Some (dpre ++ o :: dpost) -> d = Z.of_nat (length dpre) ->
  move_construct (Ptr (Some a') d) (Ptr (Some a) i) (State h vs rs sc tr) =
    Ok tt (State (<[a := pre ++ Some (moved_from y) :: post]>
                    (<[a' := dpre ++ Some y :: dpost]> h)) vs rs sc
             (tr ++ [EvMoveConstruct (Ptr (Some a') d) (Ptr (Some a) i)])).
Proof.
  intros Hne Hq Hs Hi Hd Hd0. unfold move_construct, bind.
  rewrite (read_mid _ _ _ _ _ _ _ _ _ _ Hs Hi).
  assert ((if nothrow_move_constructible then ret tt else may_throw)
            (State h vs rs sc tr) = Ok tt (State h vs rs sc tr)) as ->.
  { destruct nothrow_move_constructible; [done|]. by rewrite Hq. }
  rewrite (write_mid _ _ _ _ _ _ _ _ (Some y) _ _ Hd Hd0).
  erewrite write_mid; [done| |done].
  rewrite lookup_insert_ne by done. exact Hs.
Qed.

Lemma value_construct_spec h vs rs tr a pre o post i :
  h !! a = Some (pre ++ o :: post) -> i = Z.of_nat (length pre) ->
  value_construct (Ptr (Some a) i) (State h vs rs [] tr) =
    Ok tt (State (<[a := pre ++ Some value_init :: post]> h) vs rs []
             (tr ++ [EvValueConstruct (Ptr (Some a) i)])).
Proof.
  intros Hd Hi. unfold value_construct, bind. cbn [may_throw script].
  by rewrite (write_mid _ _ _ _ _ _ _ _ (Some value_init) _ _ Hd Hi).
Qed.

Lemma copy_assign_spec h vs rs tr a a' pre y post dpre x dpost i d :
  h !! a = Some (pre ++ Some y :: post) -> i = Z.of_nat (length pre) ->
  h !! a' = Some (dpre ++ Some x :: dpost) -> d = Z.of_nat (length dpre) ->
  copy_assign (Ptr (Some a') d) (Ptr (Some a) i) (State h vs rs [] tr) =
    Ok tt (State (<[a' := dpre ++ Some y :: dpost]> h) vs rs []
             (tr ++ [EvCopyAssign (Ptr (Some a') d) (Ptr (Some a) i)])).
Proof.
  intros Hs Hi Hd Hd0. unfold copy_assign, bind.
  rewrite (read_mid _ _ _ _ _ _ _ _ _ _ Hs Hi).
  rewrite (read_mid _ _ _ _ _ _ _ _ _ _ Hd Hd0). cbn [may_throw script].
  by rewrite (write_mid _ _ _ _ _ _ _ _ (Some y) _ _ Hd Hd0).
Qed.

(** Move assignment to the slot just below the source. *)
Lemma move_assign_down h vs rs tr a pre x y post d :
  h !! a = Some (pre ++ Some x :: Some y :: post) -> d = Z.of_nat (length pre) ->
  move_assign (Ptr (Some a) d) (Ptr (Some a) (d + 1)) (State h vs rs [] tr) =
    Ok tt (State (<[a := pre ++ Some y :: Some (moved_from y) :: post]> h) vs rs []
             (tr ++ [EvMoveAssign (Ptr (Some a) d) (Ptr (Some a) (d + 1))])).
Proof.
  intros Hh Hd. unfold move_assign, bind.
  assert (h !! a = Some ((pre ++ [Some x]) ++ Some y :: post)) as Hh'
    by (by rewrite <- app_assoc).
  assert (d + 1 = Z.of_nat (length (pre ++ [Some x]))) as Hd'
    by (rewrite length_app; cbn; lia).
  rewrite (read_mid _ _ _ _ _ _ _ _ _ _ Hh' Hd').
  rewrite (read_mid _ _ _ _ _ _ _ _ _ _ Hh Hd). cbn [may_throw script].
  rewrite (write_mid _ _ _ _ _ _ _ _ (Some y) _ _ Hh Hd).
  erewrite (write_mid _ _ _ _ _ _ (pre ++ [Some y]) (Some y) (Some (moved_from y)) post).
  - rewrite insert_insert_eq, <- app_assoc. reflexivity.
  - rewrite lookup_insert_eq, <- app_assoc. reflexivity.
  - rewrite length_app; cbn; lia.
Qed.

(** Move assignment to the slot just above the source. *)
Lemma move_assign_up h vs rs tr a pre x y post i :
  h !! a = Some (pre ++ Some y :: Some x :: post) -> i = Z.of_nat (length pre) ->
  move_assign (Ptr (Some a) (i + 1)) (Ptr (Some a) i) (State h vs rs [] tr) =
    Ok tt (State (<[a := pre ++ Some (moved_from y) :: Some y :: post]> h) vs rs []
             (tr ++ [EvMoveAssign (Ptr (Some a) (i + 1)) (Ptr (Some a) i)])).
Proof.
  intros Hh Hi. unfold move_assign, bind.
  assert (h !! a = Some ((pre ++ [Some y]) ++ Some x :: post)) as Hh'
    by (by rewrite <- app_assoc).
  assert (i + 1 = Z.of_nat (length (pre ++ [Some y]))) as Hi'
    by (rewrite length_app; cbn; lia).
  rewrite (read_mid _ _ _ _ _ _ _ _ _ _ Hh Hi).
  rewrite (read_mid _ _ _ _ _ _ _ _ _ _ Hh' Hi'). cbn [may_throw script].
  rewrite (write_mid _ _ _ _ _ _ _ _ (Some y) _ _ Hh' Hi').
  erewrite (write_mid _ _ _ _ _ _ pre (Some y) (Some (moved_from y)) (Some y :: post)).
  - rewrite insert_insert_eq. reflexivity.
  - rewrite lookup_insert_eq, <- app_assoc. reflexivity.
  - done.
Qed.

(** *** The loops on known blocks *)

Lemma on_throw_Ok {A} (m : M T A) (hd : M T unit) s a s' :
  m s = Ok a s' -> on_throw m hd s = Ok a s'.
Proof. unfold on_throw. by intros ->. Qed.

(** The copying loop, whatever the script: either every object is
    copied, or a copy throws and the destination is raw storage again. *)
Lemma uninitialized_copy_loop_spec (ys : list T) :
  forall h tr sc pre post dn dpre dpost i d0 a a' vs rs,
  a <> a' ->
  h !! a = Some (pre ++ (Some <$> ys) ++ post) -> i = Z.of_nat (length pre) ->
  h !! a' = Some (dpre ++ (Some <$> dn) ++ replicate (length ys) None ++ dpost) ->
  d0 = Z.of_nat (length dpre) ->
  match uninitialized_loop copy_construct (Ptr (Some a') d0) (length dn)
          (Ptr (Some a) i) (length ys) (State h vs rs sc tr) with
  | Ok _ s' =>
      s' = State (<[a' := dpre ++ (Some <$> dn ++ ys) ++ dpost]> h) vs rs
             (drop (length ys) sc)
             (tr ++ loop_events EvCopyConstruct
                      (Ptr (Some a') (d0 + Z.of_nat (length dn))) (Ptr (Some a) i)
                      (length ys))
  | Throw s' =>
      heap s' = <[a' := dpre ++ replicate (length dn + length ys) None ++ dpost]> h /\
      vecs s' = vs /\ raws s' = rs /\ sc <> []
  | Fault => False
  end.
Proof.
  induction ys as [|y ys IH];
    intros h tr sc pre post dn dpre dpost i d0 a a' vs rs Hne Hs Hi Hd Hd0.
  - cbn. rewrite !app_nil_r, drop_0. f_equal.
    symmetry. apply insert_id. exact Hd.
  - cbn [length uninitialized_loop]. unfold bind at 1.
    rewrite fmap_cons, <- app_comm_cons in Hs.
    assert (h !! a' = Some ((dpre ++ (Some <$> dn)) ++
              None :: replicate (length ys) None ++ dpost)) as Hd'.
    { rewrite Hd. cbn. by rewrite <- app_assoc. }
    assert (d0 + Z.of_nat (length dn) = Z.of_nat (length (dpre ++ (Some <$> dn)))) as Hd0'.
    { rewrite length_app, length_fmap. lia. }
    unfold on_throw, ptr_add. cbn [base off].
    rewrite (copy_construct_spec _ _ _ _ _ _ _ _ _ _ _ _ _ _ _ Hs Hi Hd' Hd0').
    assert (forall sc', match
        uninitialized_loop copy_construct (Ptr (Some a') d0) (S (length dn))
          (Ptr (Some a) (i + 1)) (length ys)
          (State (<[a' := (dpre ++ (Some <$> dn)) ++
                     Some y :: replicate (length ys) None ++ dpost]> h) vs rs sc'
             (tr ++ [EvCopyConstruct (Ptr (Some a') (d0 + Z.of_nat (length dn)))
                       (Ptr (Some a) i)])) with
      | Ok _ s' =>
          s' = State (<[a' := dpre ++ (Some <$> dn ++ y :: ys) ++ dpost]> h) vs rs
                 (drop (length ys) sc')
                 (tr ++ loop_events EvCopyConstruct
                          (Ptr (Some a') (d0 + Z.of_nat (length dn))) (Ptr (Some a) i)
                          (S (length ys)))
      | Throw s' =>
          heap s' = <[a' := dpre ++ replicate (length dn + S (length ys)) None ++ dpost]> h /\
          vecs s' = vs /\ raws s' = rs /\ sc' <> []
      | Fault => False
      end) as Hnext.
    { intros sc'.
      specialize (IH (<[a' := (dpre ++ (Some <$> dn)) ++
                     Some y :: replicate (length ys) None ++ dpost]> h)
        (tr ++ [EvCopyConstruct (Ptr (Some a') (d0 + Z.of_nat (length dn)))
                       (Ptr (Some a) i)])
        sc' (pre ++ [Some y]) post (dn ++ [y]) dpre dpost (i + 1) d0 a a' vs rs Hne).
      replace (length (dn ++ [y])) with (S (length dn)) in IH
        by (rewrite length_app; cbn; lia).
      lapply IH; [clear IH; intros IH|].
      2:{ rewrite lookup_insert_ne by done. rewrite Hs, <- app_assoc. done. }
      lapply IH; [clear IH; intros IH|].
      2:{ rewrite length_app; cbn; lia. }
      lapply IH; [clear IH; intros IH|].
      2:{ rewrite lookup_insert_eq, fmap_app, <- !app_assoc. done. }
      specialize (IH Hd0).
      destruct (uninitialized_loop _ _ _ _ _ _) as [[] s'|s'|]; [| |done].
      - rewrite IH, insert_insert_eq, loop_events_S, <- !app_assoc.
        unfold ptr_add. cbn [base off].
        replace (d0 + Z.of_nat (length dn) + 1) with (d0 + Z.of_nat (S (length dn))) by lia.
        reflexivity.
      - destruct IH as (Hh & Hv & Hr & Hsc). rewrite Hh, insert_insert_eq.
        replace (S (length dn) + length ys)%nat with (length dn + S (length ys))%nat by lia.
        done. }
    destruct sc as [|[] sc'].
    + specialize (Hnext []). cbn [tail]. destruct (uninitialized_loop _ _ _ _ _ _)
        as [[] s'|s'|]; [| |done].
      * by rewrite drop_nil in *.
      * by destruct Hnext as (_ & _ & _ & ?).
    + rewrite (destroy_n_spec dn h tr dpre (replicate (S (length ys)) None ++ dpost)
                 d0 a' vs rs sc' Hd Hd0).
      cbn [heap vecs raws]. repeat split; try done.
      by rewrite replicate_add, <- app_assoc.
    + specialize (Hnext sc'). cbn [tail drop]. destruct (uninitialized_loop _ _ _ _ _ _)
        as [[] s'|s'|]; [done| |done].
      destruct Hnext as (? & ? & ? & _). done.
Qed.

(** The copying loop when nothing throws. *)
Lemma uninitialized_copy_loop_quiet (ys : list T) h tr pre post dpre dpost i d0 a a' vs rs :
  a <> a' ->
  h !! a = Some (pre ++ (Some <$> ys) ++ post) -> i = Z.of_nat (length pre) ->
  h !! a' = Some (dpre ++ replicate (length ys) None ++ dpost) ->
  d0 = Z.of_nat (length dpre) ->
  uninitialized_loop copy_construct (Ptr (Some a') d0) 0 (Ptr (Some a) i) (length ys)
    (State h vs rs [] tr) =
  Ok tt (State (<[a' := dpre ++ (Some <$> ys) ++ dpost]> h) vs rs []
           (tr ++ loop_events EvCopyConstruct (Ptr (Some a') d0) (Ptr (Some a) i)
                    (length ys))).
Proof.
  intros Hne Hs Hi Hd Hd0.
  pose proof (uninitialized_copy_loop_spec ys h tr [] pre post [] dpre dpost i d0 a a'
                vs rs Hne Hs Hi Hd Hd0) as Hspec.
  cbn [length] in Hspec.
  destruct (uninitialized_loop _ _ _ _ _ _) as [[] s'|s'|]; [| |done].
  - rewrite Hspec, drop_nil. cbn. by rewrite Z.add_0_r.
  - by destruct Hspec as (_ & _ & _ & ?).
Qed.

(** The moving loop when no move throws. *)
Lemma uninitialized_move_loop_spec (ys : list T) :
  forall h tr sc pre post dpre dpost i d0 done a a' vs rs,
  a <> a' ->
  (nothrow_move_constructible = false -> sc = []) ->
  h !! a = Some (pre ++ (Some <$> ys) ++ post) -> i = Z.of_nat (length pre) ->
  h !! a' = Some (dpre ++ replicate (length ys) None ++ dpost) ->
  d0 + Z.of_nat done = Z.of_nat (length dpre) ->
  uninitialized_loop move_construct (Ptr (Some a') d0) done (Ptr (Some a) i) (length ys)
    (State h vs rs sc tr) =
  Ok tt (State (<[a := pre ++ (Some <$> (moved_from <$> ys)) ++ post]>
                  (<[a' := dpre ++ (Some <$> ys) ++ dpost]> h)) vs rs sc
           (tr ++ loop_events EvMoveConstruct (Ptr (Some a') (d0 + Z.of_nat done))
                    (Ptr (Some a) i) (length ys))).
Proof.
  induction ys as [|y ys IH];
    intros h tr sc pre post dpre dpost i d0 done a a' vs rs Hne Hq Hs Hi Hd Hd0.
  - cbn. rewrite app_nil_r. unfold ret. f_equal. f_equal.
    rewrite (insert_id h a') by exact Hd. symmetry. by apply insert_id.
  - cbn [length uninitialized_loop]. unfold bind at 1.
    rewrite fmap_cons, <- app_comm_cons in Hs.
    cbn [length replicate] in Hd. rewrite <- app_comm_cons in Hd.
    unfold ptr_add. cbn [base off].
    erewrite on_throw_Ok;
      [| exact (move_construct_spec _ _ _ _ _ _ _ _ _ _ _ _ _ _ _ Hne Hq Hs Hi Hd Hd0)].
    rewrite (IH _ _ _ (pre ++ [Some (moved_from y)]) post (dpre ++ [Some y]) dpost
               (i + 1) d0 (S done) a a' vs rs Hne Hq).
    + rewrite loop_events_S, <- !app_assoc. unfold ptr_add. cbn [base off].
      replace (d0 + Z.of_nat done + 1) with (d0 + Z.of_nat (S done)) by lia.
      rewrite (insert_insert_ne _ a' a) by done.
      rewrite !insert_insert_eq. reflexivity.
    + rewrite lookup_insert_eq, <- app_assoc. reflexivity.
    + rewrite length_app. cbn. lia.
    + rewrite lookup_insert_ne by done. rewrite lookup_insert_eq, <- app_assoc. reflexivity.
    + rewrite length_app. cbn. lia.
Qed.

(** Value construction of a run of raw slots when nothing throws. *)
Lemma uninitialized_value_loop_spec (n : nat) :
  forall h tr dpre dpost d0 done q a vs rs,
  h !! a = Some (dpre ++ replicate n None ++ dpost) ->
  d0 + Z.of_nat done = Z.of_nat (length dpre) ->
  uninitialized_loop (fun p _ => value_construct p) (Ptr (Some a) d0) done q n
    (State h vs rs [] tr) =
  Ok tt (State (<[a := dpre ++ replicate n (Some value_init) ++ dpost]> h) vs rs []
           (tr ++ value_events (Ptr (Some a) (d0 + Z.of_nat done)) n)).
Proof.
  induction n as [|n IH]; intros h tr dpre dpost d0 done q a vs rs Hd Hd0.
  - cbn. rewrite app_nil_r. unfold ret. do 2 f_equal. symmetry. by apply insert_id.
  - cbn [uninitialized_loop]. unfold bind at 1.
    cbn [replicate] in Hd. rewrite <- app_comm_cons in Hd.
    unfold ptr_add. cbn [base off].
    erewrite on_throw_Ok; [| exact (value_construct_spec _ _ _ _ _ _ _ _ _ Hd Hd0)].
    rewrite (IH _ _ (dpre ++ [Some value_init]) dpost d0 (S done)).
    + rewrite value_events_S, <- !app_assoc, insert_insert_eq.
      unfold ptr_add. cbn [base off].
      replace (d0 + Z.of_nat done + 1) with (d0 + Z.of_nat (S done)) by lia.
      reflexivity.
    + rewrite lookup_insert_eq, <- app_assoc. reflexivity.
    + rewrite length_app. cbn. lia.
Qed.

(** Element-wise copy assignment between two blocks when nothing throws. *)
Lemma copy_loop_spec (ys : list T) :
  forall (xs : list T) h tr pre post dpre dpost i d a a' vs rs,
  length xs = length ys ->
  a <> a' ->
  h !! a = Some (pre ++ (Some <$> ys) ++ post) -> i = Z.of_nat (length pre) ->
  h !! a' = Some (dpre ++ (Some <$> xs) ++ dpost) -> d = Z.of_nat (length dpre) ->
  copy_loop (Ptr (Some a) i) (length ys) (Ptr (Some a') d) (State h vs rs [] tr) =
  Ok tt (State (<[a' := dpre ++ (Some <$> ys) ++ dpost]> h) vs rs []
           (tr ++ loop_events EvCopyAssign (Ptr (Some a') d) (Ptr (Some a) i) (length ys))).
Proof.
  induction ys as [|y ys IH];
    intros xs h tr pre post dpre dpost i d a a' vs rs Hlen Hne Hs Hi Hd Hd0.
  - destruct xs; [|done]. cbn. rewrite app_nil_r. unfold ret. do 2 f_equal.
    symmetry. by apply insert_id.
  - destruct xs as [|x xs]; [done|]. cbn [length copy_loop]. unfold bind at 1.
    rewrite fmap_cons, <- app_comm_cons in Hs, Hd.
    rewrite (copy_assign_spec _ _ _ _ _ _ _ _ _ _ _ _ _ _ Hs Hi Hd Hd0).
    unfold ptr_add. cbn [base off].
    rewrite (IH xs _ _ (pre ++ [Some y]) post (dpre ++ [Some y]) dpost (i + 1) (d + 1)
               a a' vs rs).
    + rewrite loop_events_S, <- !app_assoc, insert_insert_eq. reflexivity.
    + cbn in Hlen. lia.
    + done.
    + rewrite lookup_insert_ne by done. rewrite Hs, <- app_assoc. reflexivity.
    + rewrite length_app. cbn. lia.
    + rewrite lookup_insert_eq, <- app_assoc. reflexivity.
    + rewrite length_app. cbn. lia.
Qed.

(** [std::move] of a range onto the slot just below it. *)
Lemma move_loop_spec (ys : list T) :
  forall (x : T) h tr pre post d a vs rs,
  h !! a = Some (pre ++ Some x :: (Some <$> ys) ++ post) -> d = Z.of_nat (length pre) ->
  move_loop (Ptr (Some a) (d + 1)) (length ys) (Ptr (Some a) d) (State h vs rs [] tr) =
  Ok tt (State (<[a := pre ++ (Some <$> ys) ++ Some (after_move_down ys x) :: post]> h)
           vs rs []
           (tr ++ loop_events EvMoveAssign (Ptr (Some a) d) (Ptr (Some a) (d + 1))
                    (length ys))).
Proof.
  induction ys as [|y ys IH]; intros x h tr pre post d a vs rs Hh Hd.
  - cbn. rewrite app_nil_r. unfold ret. do 2 f_equal. symmetry. by apply insert_id.
  - cbn [length move_loop]. unfold bind at 1.
    rewrite fmap_cons, <- app_comm_cons in Hh.
    rewrite (move_assign_down _ _ _ _ _ _ _ _ _ _ Hh Hd).
    unfold ptr_add. cbn [base off].
    rewrite (IH (moved_from y) _ _ (pre ++ [Some y]) post (d + 1) a vs rs).
    + rewrite loop_events_S, <- !app_assoc, insert_insert_eq. reflexivity.
    + rewrite lookup_insert_eq, <- app_assoc. reflexivity.
    + rewrite length_app. cbn. lia.
Qed.

Lemma after_move_up_snoc (ys : list T) (y x : T) :
  after_move_up (ys ++ [y]) x = after_move_up ys (moved_from y).
Proof. by destruct ys. Qed.

(** [std::move_backward] of a range onto the slot just above it. *)
Lemma move_backward_loop_spec (ys : list T) :
  forall (x : T) h tr pre post e dl a vs rs,
  h !! a = Some (pre ++ (Some <$> ys) ++ Some x :: post) ->
  e = Z.of_nat (length pre + length ys) -> dl = e + 1 ->
  move_backward_loop (Ptr (Some a) e) (length ys) (Ptr (Some a) dl) (State h vs rs [] tr) =
  Ok tt (State (<[a := pre ++ Some (after_move_up ys x) :: (Some <$> ys) ++ post]> h)
           vs rs []
           (tr ++ backward_events EvMoveAssign (Ptr (Some a) dl) (Ptr (Some a) e)
                    (length ys))).
Proof.
  induction ys as [|y ys IH] using rev_ind; intros x h tr pre post e dl a vs rs Hh He Hdl.
  - cbn. rewrite app_nil_r. unfold ret. do 2 f_equal. symmetry. by apply insert_id.
  - rewrite length_app, Nat.add_1_r in *. cbn [move_backward_loop]. unfold bind at 1.
    rewrite fmap_app, <- app_assoc in Hh. cbn [fmap list_fmap app] in Hh.
    rewrite app_assoc in Hh.
    unfold ptr_add. cbn [base off].
    replace (dl + -1) with (e + -1 + 1) by lia.
    erewrite move_assign_up; [| exact Hh | rewrite length_app, length_fmap; lia].
    rewrite (IH (moved_from y) _ _ pre (Some y :: post) (e + -1) (e + -1 + 1) a vs rs).
    + rewrite backward_events_S, <- !app_assoc, insert_insert_eq.
      unfold ptr_add. cbn [base off].
      replace (dl + -1) with (e + -1 + 1) by lia.
      rewrite after_move_up_snoc, fmap_app, <- !app_assoc. reflexivity.
    + rewrite lookup_insert_eq, <- app_assoc. reflexivity.
    + lia.
    + done.
Qed.
End Loops.

(** ** Allocation, construction and relocation *)

Section Operations.
Context {T : Type} `{!Element T}.
Implicit Types (h : gmap addr (list (option T))) (vs : gmap nat Vector)
  (rs : gmap nat RawMemory) (sc : list bool) (tr : list (event T)).

Lemma wrap_small z : 0 <= z < 2 ^ 64 -> wrap z = z.
Proof. intros. unfold wrap. by apply Z.mod_small. Qed.

Lemma Allocate_spec h vs rs sc tr n :
  0 < n -> n * sizeof <= PTRDIFF_MAX ->
  Allocate n (State h vs rs sc tr) =
    match sc with
    | true :: sc' => Throw (State h vs rs sc' tr)
    | _ => Ok (Some (fresh (dom h)))
             (State (<[fresh (dom h) := replicate (Z.to_nat n) None]> h) vs rs (tail sc)
                (tr ++ [EvNew (fresh (dom h)) (n * sizeof)]))
    end.
Proof.
  intros Hn Hfit. pose proof sizeof_range as Hsz.
  unfold Allocate, operator_new. destruct (n =? 0) eqn:E; [lia|].
  unfold PTRDIFF_MAX in *.
  rewrite wrap_small by nia.
  unfold bind at 1. destruct (_ <? _) eqn:E'; [lia|]. unfold ret at 1.
  rewrite Z.div_mul by lia.
  destruct sc as [|[] sc']; reflexivity.
Qed.

Lemma peek_read h vs rs sc tr q x :
  peek h q = Some x ->
  read q (State h vs rs sc tr) = Ok x (State h vs rs sc tr).
Proof.
  unfold peek, read, slot, bind. cbn [heap]. destruct (base q); [|done].
  destruct (h !! _); [|done]. destruct (0 <=? off q); [|done].
  destruct (_ !! _) as [[y|]|]; try done. by intros [= ->].
Qed.

(** A block that comes or goes elsewhere does not change what a pointer
    designates. *)
Lemma peek_insert_other h a blk q x :
  peek h q = Some x -> h !! a = None -> peek (<[a := blk]> h) q = Some x.
Proof.
  unfold peek. destruct (base q) as [b|]; [|done]. intros Hq Ha.
  destruct (decide (a = b)) as [->|Hne]; [by rewrite Ha in Hq|].
  by rewrite lookup_insert_ne.
Qed.

Lemma arg_value_insert_other h a blk args x :
  arg_value h args = Some x -> h !! a = None ->
  arg_value (<[a := blk]> h) args = Some x.
Proof. destruct args; cbn; eauto using peek_insert_other. Qed.

Lemma construct_at_spec h vs rs tr a pre o post d args x :
  arg_value h args = Some x ->
  h !! a = Some (pre ++ o :: post) -> d = Z.of_nat (length pre) ->
  construct_at (Ptr (Some a) d) args (State h vs rs [] tr) =
    Ok tt (State (<[a := pre ++ Some x :: post]> h) vs rs []
             (tr ++ [arg_event (Ptr (Some a) d) args])).
Proof.
  intros Hx Hh Hd. destruct args as [y|q|q]; cbn in Hx; [| |done].
  - injection Hx as ->. cbn. unfold bind. cbn [may_throw script].
    by rewrite (write_mid _ _ _ _ _ _ _ _ (Some x) _ _ Hh Hd).
  - cbn. unfold copy_construct, bind. rewrite (peek_read _ _ _ _ _ _ _ Hx).
    cbn [may_throw script].
    by rewrite (write_mid _ _ _ _ _ _ _ _ (Some x) _ _ Hh Hd).
Qed.

(** Whatever it is given, a construction that throws has changed
    nothing but the script. *)
Lemma construct_at_Throw p args h vs rs sc tr s' :
  construct_at p args (State h vs rs sc tr) = Throw s' ->
  exists sc', s' = State h vs rs sc' tr.
Proof.
  assert (forall q x s1, read q (State h vs rs sc tr) = Ok x s1 ->
            s1 = State h vs rs sc tr) as Hread.
  { intros q x s1. unfold read, slot, bind. cbn [heap]. destruct (base q); [|done].
    destruct (h !! _); [|done]. destruct (0 <=? off q); [|done].
    destruct (_ !! _) as [[y|]|]; try done. by intros [= _ <-]. }
  assert (forall q (o : option T) (s1 s2 : state T), write q o s1 = Throw s2 -> False) as Hwrite.
  { intros q o s1 s2. unfold write, slot, bind, get_state, set_heap, fault.
    repeat case_match; congruence. }
  assert (forall sc0 (k : M T unit) s2,
            (forall s1 s3, k s1 = Throw s3 -> False) ->
            bind may_throw (fun _ => k) (State h vs rs sc0 tr) = Throw s2 ->
            exists sc', s2 = State h vs rs sc' tr) as Hmay.
  { intros sc0 k s2 Hk. unfold bind, may_throw. cbn [script heap vecs raws trace].
    destruct sc0 as [|[] sc']; intros E.
    - by apply Hk in E.
    - injection E as <-. by eexists.
    - by apply Hk in E. }
  assert (forall q (o : option T) (e : event T) (s1 s3 : state T),
            bind (write q o) (fun _ => log e) s1 = Throw s3 -> False) as Hwl.
  { intros q o e s1 s3. unfold bind. destruct (write q o s1) eqn:E; try done.
    intros _. by apply Hwrite in E. }
  destruct args as [y|q|q]; cbn [construct_at].
  - apply Hmay. apply Hwl.
  - unfold copy_construct. unfold bind at 1.
    destruct (read q _) as [x s1|s1|] eqn:E; [| |done].
    + apply Hread in E as ->. apply Hmay. apply Hwl.
    + unfold read, slot, bind in E. cbn [heap] in E. destruct (base q); [|done].
      destruct (h !! _); [|done]. destruct (0 <=? off q); [|done].
      by destruct (_ !! _) as [[y|]|].
  - unfold move_construct. unfold bind at 1.
    destruct (read q _) as [x s1|s1|] eqn:E; [| |done].
    + apply Hread in E as ->.
      destruct nothrow_move_constructible.
      * unfold bind at 1. unfold ret at 1. intros E.
        exfalso. revert E. unfold bind.
        destruct (write _ _ _) eqn:E1; [|by apply Hwrite in E1|done].
        destruct (write _ _ s) eqn:E2; [done|by apply Hwrite in E2|done].
      * apply Hmay. intros s1 s3. unfold bind.
        destruct (write _ _ _) eqn:E1; [|by apply Hwrite in E1|done].
        destruct (write _ _ s) eqn:E2; [done|by apply Hwrite in E2|done].
    + unfold read, slot, bind in E. cbn [heap] in E. destruct (base q); [|done].
      destruct (h !! _); [|done]. destruct (0 <=? off q); [|done].
      by destruct (_ !! _) as [[y|]|].
Qed.

(** Relocation of a run of objects into raw slots of another block, when
    nothing throws. *)
Lemma relocate_by_move_spec (ys : list T) h tr pre post dpre dpost i d0 a a' vs rs :
  relocate_by_move = true ->
  a <> a' ->
  h !! a = Some (pre ++ (Some <$> ys) ++ post) -> i = Z.of_nat (length pre) ->
  h !! a' = Some (dpre ++ replicate (length ys) None ++ dpost) ->
  d0 = Z.of_nat (length dpre) ->
  uninitialized_loop move_construct (Ptr (Some a') d0) 0 (Ptr (Some a) i) (length ys)
    (State h vs rs [] tr) =
  Ok tt (State (<[a := pre ++ (Some <$> relocated ys) ++ post]>
                  (<[a' := dpre ++ (Some <$> ys) ++ dpost]> h)) vs rs []
           (tr ++ loop_events EvRelocate (Ptr (Some a') d0) (Ptr (Some a) i) (length ys))).
Proof.
  intros E Hne Hs Hi Hd Hd0. unfold relocated, EvRelocate. rewrite E.
  rewrite (uninitialized_move_loop_spec ys h tr [] pre post dpre dpost i d0 0 a a' vs rs);
    try done; [|lia].
  cbn. by rewrite Z.add_0_r.
Qed.

Lemma relocate_by_copy_spec (ys : list T) h tr pre post dpre dpost i d0 a a' vs rs :
  relocate_by_move = false ->
  a <> a' ->
  h !! a = Some (pre ++ (Some <$> ys) ++ post) -> i = Z.of_nat (length pre) ->
  h !! a' = Some (dpre ++ replicate (length ys) None ++ dpost) ->
  d0 = Z.of_nat (length dpre) ->
  uninitialized_loop copy_construct (Ptr (Some a') d0) 0 (Ptr (Some a) i) (length ys)
    (State h vs rs [] tr) =
  Ok tt (State (<[a := pre ++ (Some <$> relocated ys) ++ post]>
                  (<[a' := dpre ++ (Some <$> ys) ++ dpost]> h)) vs rs []
           (tr ++ loop_events EvRelocate (Ptr (Some a') d0) (Ptr (Some a) i) (length ys))).
Proof.
  intros E Hne Hs Hi Hd Hd0. unfold relocated, EvRelocate. rewrite E.
  rewrite (uninitialized_copy_loop_quiet ys h tr pre post dpre dpost i d0 a a' vs rs);
    try done.
  do 2 f_equal. symmetry. apply insert_id. by rewrite lookup_insert_ne.
Qed.

Lemma length_relocated (ys : list T) : length (relocated ys) = length ys.
Proof. unfold relocated. destruct relocate_by_move; [apply length_fmap|done]. Qed.

(** [MoveOrCopyDataAndReplace] for a vector that owns a block. *)
Lemma MoveOrCopyDataAndReplace_spec h vs rs tr this l a cap (xs : list T) post
    a' n' dpost sz :
  vs !! this = Some (mkVector (mkRawMemory (Some a) cap) sz) ->
  sz = Z.of_nat (length xs) ->
  rs !! l = Some (mkRawMemory (Some a') n') ->
  a <> a' ->
  h !! a = Some ((Some <$> xs) ++ post) ->
  h !! a' = Some (replicate (length xs) None ++ dpost) ->
  MoveOrCopyDataAndReplace this (Local l) (State h vs rs [] tr) =
    Ok tt (State (<[a := replicate (length xs) None ++ post]>
                    (<[a' := (Some <$> xs) ++ dpost]> h))
             (<[this := mkVector (mkRawMemory (Some a') n') sz]> vs)
             (<[l := mkRawMemory (Some a) cap]> rs) []
             (tr ++ loop_events EvRelocate (Ptr (Some a') 0) (Ptr (Some a) 0) (length xs)
                 ++ destroy_events (Ptr (Some a) 0) (length xs))).
Proof.
  intros Hv -> Hl Hne Ha Ha'.
  unfold MoveOrCopyDataAndReplace, uninitialized_move_n, uninitialized_copy_n. mrun.
  rewrite Nat2Z.id.
  assert ((if relocate_by_move
           then uninitialized_loop move_construct (Ptr (Some a') 0) 0 (Ptr (Some a) 0)
                  (length xs)
           else uninitialized_loop copy_construct (Ptr (Some a') 0) 0 (Ptr (Some a) 0)
                  (length xs)) (State h vs rs [] tr) =
          Ok tt (State (<[a := (Some <$> relocated xs) ++ post]>
                          (<[a' := (Some <$> xs) ++ dpost]> h)) vs rs []
                   (tr ++ loop_events EvRelocate (Ptr (Some a') 0) (Ptr (Some a) 0)
                            (length xs)))) as ->.
  { destruct relocate_by_move eqn:E.
    - by apply (relocate_by_move_spec xs h tr [] post [] dpost).
    - by apply (relocate_by_copy_spec xs h tr [] post [] dpost). }
  rewrite <- (length_relocated xs) at 1.
  rewrite (destroy_n_spec (relocated xs) _ _ [] post 0 a); [| by mlookup | done].
  rewrite length_relocated. mrun. rewrite <- app_assoc. reflexivity.
Qed.

(** [MoveOrCopyDataAndReplace] for an empty vector without a block. *)
Lemma MoveOrCopyDataAndReplace_empty h vs rs tr this l m :
  vs !! this = Some (mkVector (mkRawMemory None 0) 0) ->
  rs !! l = Some m ->
  MoveOrCopyDataAndReplace this (Local l) (State h vs rs [] tr) =
    Ok tt (State h (<[this := mkVector m 0]> vs) (<[l := mkRawMemory None 0]> rs) [] tr).
Proof.
  intros Hv Hl.
  unfold MoveOrCopyDataAndReplace, uninitialized_move_n, uninitialized_copy_n. mrun.
  change (Z.to_nat 0) with 0%nat. cbn [uninitialized_loop destroy_n].
  destruct relocate_by_move; by mrun.
Qed.
End Operations.

(** ** [EmplaceBack] *)

Section EmplaceBackProofs.
Context {T : Type} `{!Element T}.
Implicit Types (h : gmap addr (list (option T))) (vs : gmap nat Vector)
  (rs : gmap nat RawMemory) (sc : list bool) (tr : list (event T)).

Lemma replicate_split {A} (x : A) (m k : nat) :
  (k < m)%nat -> replicate m x = replicate k x ++ x :: replicate (m - k - 1) x.
Proof.
  intros Hk. replace m with (k + S (m - k - 1))%nat at 1 by lia.
  by rewrite replicate_add.
Qed.

Lemma block_of_full (xs : list T) cap :
  Z.of_nat (length xs) = cap -> block_of xs cap = (Some <$> xs) ++ [].
Proof.
  intros <-. unfold block_of. rewrite Nat2Z.id, Nat.sub_diag. reflexivity.
Qed.

Lemma block_of_spare (xs : list T) cap :
  Z.of_nat (length xs) < cap ->
  block_of xs cap =
    (Some <$> xs) ++ None :: replicate (Z.to_nat cap - length xs - 1) None.
Proof.
  intros Hlt. unfold block_of. f_equal.
  rewrite (replicate_split None _ 0) by lia. cbn. do 2 f_equal. lia.
Qed.

Lemma block_of_insert (xs ys : list T) (x : T) cap :
  (Some <$> xs) ++ Some x :: (Some <$> ys) ++
      replicate (Z.to_nat cap - length xs - length ys - 1) None =
  block_of (xs ++ x :: ys) cap.
Proof.
  unfold block_of. rewrite fmap_app, fmap_cons, <- app_assoc, <- app_comm_cons.
  do 4 f_equal. rewrite length_app. cbn. lia.
Qed.

Lemma block_of_snoc (xs : list T) (x : T) cap :
  (Some <$> xs) ++ Some x :: replicate (Z.to_nat cap - length xs - 1) None =
  block_of (xs ++ [x]) cap.
Proof.
  rewrite <- block_of_insert. cbn. do 3 f_equal. lia.
Qed.

(** [EmplaceBack] into spare capacity. *)
Lemma EmplaceBack_spare h vs rs tr this a cap (xs : list T) args x :
  vs !! this = Some (mkVector (mkRawMemory (Some a) cap) (Z.of_nat (length xs))) ->
  Z.of_nat (length xs) < cap -> cap < 2 ^ 64 ->
  h !! a = Some (block_of xs cap) ->
  arg_value h args = Some x ->
  EmplaceBack this args (State h vs rs [] tr) =
    Ok (Ptr (Some a) (Z.of_nat (length xs)))
       (State (<[a := block_of (xs ++ [x]) cap]> h)
          (<[this := mkVector (mkRawMemory (Some a) cap) (Z.of_nat (length xs) + 1)]> vs)
          rs [] (tr ++ [arg_event (Ptr (Some a) (Z.of_nat (length xs))) args])).
Proof.
  intros Hv Hlt Hcap Hh Hx. unfold EmplaceBack. mrun.
  rewrite block_of_spare in Hh by done.
  rewrite (construct_at_spec _ _ _ _ _ _ _ _ _ _ _ Hx Hh) by (by rewrite length_fmap).
  mrun. rewrite wrap_small by lia.
  by rewrite block_of_snoc.
Qed.

Lemma grown_eq n : 0 <= n < 2 ^ 63 -> grown n = if n =? 0 then 1 else 2 * n.
Proof.
  intros Hn. unfold grown. destruct (n =? 0); [done|]. rewrite wrap_small; lia.
Qed.

Lemma grown_cases n :
  0 <= n < 2 ^ 63 -> (n = 0 /\ grown n = 1) \/ (0 < n /\ grown n = 2 * n).
Proof. intros Hn. rewrite grown_eq by done. destruct (n =? 0) eqn:E; lia. Qed.

Lemma capacity_bound cap : 0 <= cap -> cap * sizeof <= PTRDIFF_MAX -> cap < 2 ^ 63.
Proof. pose proof sizeof_range. unfold PTRDIFF_MAX. nia. Qed.

(** [EmplaceBack] into a full vector. *)
Lemma EmplaceBack_full h vs rs tr this buf (xs : list T) args x :
  let cap := Z.of_nat (length xs) in
  let a' := fresh (dom h) in
  vs !! this = Some (mkVector (mkRawMemory buf cap) cap) ->
  match buf with
  | Some a => h !! a = Some (block_of xs cap)
  | None => cap = 0
  end ->
  cap * sizeof <= PTRDIFF_MAX ->
  grown cap * sizeof <= PTRDIFF_MAX ->
  arg_value h args = Some x ->
  EmplaceBack this args (State h vs rs [] tr) =
    Ok (Ptr (Some a') cap)
       (State (<[a' := block_of (xs ++ [x]) (grown cap)]> (release buf h))
          (<[this := mkVector (mkRawMemory (Some a') (grown cap)) (cap + 1)]> vs)
          rs []
          (tr ++ [EvNew a' (grown cap * sizeof); arg_event (Ptr (Some a') cap) args]
              ++ loop_events EvRelocate (Ptr (Some a') 0) (Ptr buf 0) (length xs)
              ++ destroy_events (Ptr buf 0) (length xs)
              ++ release_events buf)).
Proof.
  intros cap a' Hv Hbuf Hfit Hfit' Hx.
  assert (cap < 2 ^ 63) as Hcap by (apply capacity_bound; [lia|done]).
  pose proof (grown_cases cap ltac:(lia)) as Hg.
  assert (cap < grown cap) as Hlt by lia.
  assert (h !! a' = None) as Hfresh by apply fresh_block_None.
  unfold EmplaceBack. mrun.
  unfold RawMemory_ctor.
  change (if cap =? 0 then 1 else wrap (cap * 2)) with (grown cap).
  rewrite Allocate_spec by (done || lia). fold a'. set (l := fresh (dom rs)). mrun.
  erewrite (construct_at_spec _ _ _ _ a' (replicate (length xs) None) None
              (replicate (Z.to_nat (grown cap) - length xs - 1) None) cap args x).
  2:{ by apply arg_value_insert_other. }
  2:{ rewrite lookup_insert_eq. f_equal. apply replicate_split. lia. }
  2:{ rewrite length_replicate. done. }
  mrun.
  destruct buf as [a|].
  - assert (a <> a') as Hne by (intros ->; congruence).
    rewrite block_of_full in Hbuf by done.
    erewrite (MoveOrCopyDataAndReplace_spec _ _ _ _ this l a cap xs [] a' (grown cap));
      [| done | done | by mlookup | done | by mlookup | by mlookup ].
    mrun. subst l. rewrite delete_fresh_insert. mrun.
    rewrite wrap_small by lia. cbn [release release_events].
    rewrite !app_nil_r, <- !app_assoc. cbn [app].
    rewrite delete_insert_eq.
    rewrite (delete_insert_ne _ a a') by done.
    rewrite block_of_snoc. reflexivity.
  - assert (xs = []) as -> by (apply length_zero_iff_nil; lia).
    erewrite (MoveOrCopyDataAndReplace_empty _ _ _ _ this l); [| done | by mlookup ].
    mrun. subst l. rewrite delete_fresh_insert. mrun.
    rewrite <- block_of_snoc, <- !app_assoc. reflexivity.
Qed.

Lemma peek_mid (h : gmap addr (list (option T))) a pre (x : T) post i :
  h !! a = Some (pre ++ Some x :: post) -> i = Z.of_nat (length pre) ->
  peek h (Ptr (Some a) i) = Some x.
Proof.
  intros Hh Hi. unfold peek. cbn. rewrite Hh.
  destruct (0 <=? i) eqn:E; [|lia]. by rewrite (lookup_mid pre post (Some x) i Hi).
Qed.

Lemma peek_block_of (h : gmap addr (list (option T))) a (xs ys : list T) x cap :
  h !! a = Some (block_of (xs ++ x :: ys) cap) ->
  peek h (Ptr (Some a) (Z.of_nat (length xs))) = Some x.
Proof.
  intros Hh. unfold block_of in Hh.
  rewrite fmap_app, fmap_cons, <- app_assoc, <- app_comm_cons in Hh.
  eapply peek_mid; [exact Hh|]. by rewrite length_fmap.
Qed.

Lemma is_vector_intro (s : state T) this buf cap n (xs : list T) :
  vecs s !! this = Some (mkVector (mkRawMemory buf cap) n) ->
  n = Z.of_nat (length xs) ->
  n <= cap ->
  cap * sizeof <= PTRDIFF_MAX ->
  match buf with
  | Some a => 0 < cap /\ heap s !! a = Some (block_of xs cap)
  | None => cap = 0
  end ->
  is_vector s this buf cap xs.
Proof. intros Hv -> Hle Hfit Hbuf. by repeat split. Qed.

Lemma EmplaceBack_ok (s : state T) this buf cap xs args x :
  is_vector s this buf cap xs ->
  script s = [] ->
  arg_value (heap s) args = Some x ->
  (Z.of_nat (length xs) = cap -> grown cap * sizeof <= PTRDIFF_MAX) ->
  exists p s' buf' cap',
    EmplaceBack this args s = Ok p s' /\
    is_vector s' this buf' cap' (xs ++ [x]) /\
    p = Ptr buf' (Z.of_nat (length xs)) /\
    peek (heap s') p = Some x /\
    Vector_index this (Z.of_nat (length xs)) s' = Ok p s' /\
    script s' = [].
Proof.
  intros (Hv & Hle & Hfit & Hbuf) Hsc Hx Hgrow.
  destruct s as [h vs rs sc tr]. cbn in Hv, Hbuf, Hsc, Hx. subst sc.
  assert (cap < 2 ^ 63) as Hcap by (apply capacity_bound; [lia|done]).
  destruct (decide (Z.of_nat (length xs) = cap)) as [Heq|Hne].
  - specialize (Hgrow Heq). subst cap.
    pose proof (grown_cases (Z.of_nat (length xs)) ltac:(lia)) as Hg.
    assert (Z.of_nat (length xs) < grown (Z.of_nat (length xs))) as Hlt by lia.
    eexists _, _, (Some (fresh (dom h))), (grown (Z.of_nat (length xs))).
    split.
    { apply EmplaceBack_full; try done. destruct buf; [by destruct Hbuf|done]. }
    split; [|split; [done|split; [|split; [|done]]]].
    + eapply is_vector_intro; cbn; mlookup; try done.
      * rewrite length_app. cbn. lia.
      * lia.
      * split; [lia|done].
    + cbn. eapply peek_block_of. by mlookup.
    + unfold Vector_index. by mrun.
  - destruct buf as [a|]; [|lia]. destruct Hbuf as (Hpos & Hh).
    eexists _, _, (Some a), cap. split.
    { apply EmplaceBack_spare; try done; lia. }
    split; [|split; [done|split; [|split; [|done]]]].
    + eapply is_vector_intro; cbn; mlookup; try done.
      * rewrite length_app. cbn. lia.
      * lia.
    + cbn. eapply peek_block_of. by mlookup.
    + unfold Vector_index. by mrun.
Qed.
End EmplaceBackProofs.

(** ** [Emplace] and [Erase] *)

Section EmplaceProofs.
Context {T : Type} `{!Element T}.
Implicit Types (h : gmap addr (list (option T))) (vs : gmap nat Vector)
  (rs : gmap nat RawMemory) (sc : list bool) (tr : list (event T)).

Lemma relocated_app (xs ys : list T) : relocated (xs ++ ys) = relocated xs ++ relocated ys.
Proof. unfold relocated. destruct relocate_by_move; [apply fmap_app|done]. Qed.

Lemma range_length_spec (s : state T) b i j :
  i <= j ->
  range_length (Ptr b i) (Ptr b j) s = Ok (Z.to_nat (j - i)) s.
Proof.
  intros Hij. unfold range_length, distance. cbn [base off].
  rewrite decide_True by done. by mrun.
Qed.

(** [MoveOrCopyDataByPartAndReplace] around a new element that sits at
    offset [length xs1] of the new block. *)
Lemma MoveOrCopyDataByPartAndReplace_spec h vs rs tr this l a cap (xs1 xs2 : list T) post
    a' n' (x : T) dpost sz count :
  vs !! this = Some (mkVector (mkRawMemory (Some a) cap) sz) ->
  sz = Z.of_nat (length (xs1 ++ xs2)) ->
  count = Z.of_nat (length xs1) ->
  rs !! l = Some (mkRawMemory (Some a') n') ->
  a <> a' ->
  h !! a = Some ((Some <$> xs1 ++ xs2) ++ post) ->
  h !! a' = Some (replicate (length xs1) None ++ Some x ::
                  replicate (length xs2) None ++ dpost) ->
  MoveOrCopyDataByPartAndReplace this (Local l) count (State h vs rs [] tr) =
    Ok tt (State (<[a := replicate (length (xs1 ++ xs2)) None ++ post]>
                    (<[a' := (Some <$> xs1) ++ Some x :: (Some <$> xs2) ++ dpost]> h))
             (<[this := mkVector (mkRawMemory (Some a') n') sz]> vs)
             (<[l := mkRawMemory (Some a) cap]> rs) []
             (tr ++ loop_events EvRelocate (Ptr (Some a') 0) (Ptr (Some a) 0) (length xs1)
                 ++ loop_events EvRelocate (Ptr (Some a') (count + 1)) (Ptr (Some a) count)
                      (length xs2)
                 ++ destroy_events (Ptr (Some a) 0) (length (xs1 ++ xs2)))).
Proof.
  intros Hv -> -> Hl Hne Ha Ha'.
  rewrite fmap_app, <- app_assoc in Ha.
  assert (forall (ctor : pointer -> pointer -> M T unit) st,
    (forall ys h tr pre post dpre dpost i d0,
       h !! a = Some (pre ++ (Some <$> ys) ++ post) -> i = Z.of_nat (length pre) ->
       h !! a' = Some (dpre ++ replicate (length ys) None ++ dpost) ->
       d0 = Z.of_nat (length dpre) ->
       uninitialized_loop ctor (Ptr (Some a') d0) 0 (Ptr (Some a) i) (length ys)
         (State h vs rs [] tr) =
       Ok tt (State (<[a := pre ++ (Some <$> relocated ys) ++ post]>
                       (<[a' := dpre ++ (Some <$> ys) ++ dpost]> h)) vs rs []
                (tr ++ loop_events EvRelocate (Ptr (Some a') d0) (Ptr (Some a) i)
                         (length ys)))) ->
    st = State h vs rs [] tr ->
    bind (bind (range_length (Ptr (Some a) 0) (Ptr (Some a) 0 +ₚ Z.of_nat (length xs1)))
            (fun n => uninitialized_loop ctor (Ptr (Some a') 0) 0 (Ptr (Some a) 0) n))
      (fun _ =>
         bind (range_length (Ptr (Some a) 0 +ₚ Z.of_nat (length xs1))
                 (Ptr (Some a) 0 +ₚ Z.of_nat (length (xs1 ++ xs2))))
           (fun n => uninitialized_loop ctor
                       (Ptr (Some a') 0 +ₚ Z.of_nat (length xs1) +ₚ 1) 0
                       (Ptr (Some a) 0 +ₚ Z.of_nat (length xs1)) n)) st =
    Ok tt (State (<[a := (Some <$> relocated (xs1 ++ xs2)) ++ post]>
                    (<[a' := (Some <$> xs1) ++ Some x :: (Some <$> xs2) ++ dpost]> h))
             vs rs []
             (tr ++ loop_events EvRelocate (Ptr (Some a') 0) (Ptr (Some a) 0) (length xs1)
                 ++ loop_events EvRelocate (Ptr (Some a') (Z.of_nat (length xs1) + 1))
                      (Ptr (Some a) (Z.of_nat (length xs1))) (length xs2)))) as Hboth.
  { intros ctor st Hctor ->. unfold ptr_add. cbn [base off].
    rewrite !Z.add_0_l, length_app. unfold bind at 1 2.
    rewrite range_length_spec by lia. rewrite Z.sub_0_r, Nat2Z.id.
    rewrite (Hctor xs1 h tr [] ((Some <$> xs2) ++ post) []
               (Some x :: replicate (length xs2) None ++ dpost) 0 0) by done.
    unfold bind. rewrite range_length_spec by lia.
    replace (Z.to_nat (Z.of_nat (length xs1 + length xs2) - Z.of_nat (length xs1)))
      with (length xs2) by lia.
    cbn [app].
    rewrite (Hctor xs2 _ _ (Some <$> relocated xs1) post ((Some <$> xs1) ++ [Some x])
               dpost (Z.of_nat (length xs1)) (Z.of_nat (length xs1) + 1)).
    - rewrite (insert_insert_ne _ a' a) by done.
      rewrite !insert_insert_eq, relocated_app, fmap_app, <- !app_assoc. reflexivity.
    - by rewrite lookup_insert_eq.
    - by rewrite length_fmap, length_relocated.
    - rewrite lookup_insert_ne by done. rewrite lookup_insert_eq, <- app_assoc.
      reflexivity.
    - rewrite length_app, length_fmap. cbn. lia. }
  unfold MoveOrCopyDataByPartAndReplace, uninitialized_move, uninitialized_copy.
  do 3 (erewrite bind_Ok; [| mrun; reflexivity ]; cbv beta).
  erewrite bind_Ok.
  2:{ destruct relocate_by_move eqn:E; apply Hboth; try done; intros.
      - by apply relocate_by_move_spec.
      - by apply relocate_by_copy_spec. }
  cbv beta. mrun.
  rewrite <- (length_relocated (xs1 ++ xs2)) at 1. rewrite Nat2Z.id.
  rewrite (destroy_n_spec (relocated (xs1 ++ xs2)) _ _ [] post 0 a); [| by mlookup | done].
  rewrite length_relocated. mrun. rewrite <- !app_assoc. reflexivity.
Qed.

(** [Emplace] before the end of a full vector. *)
Lemma Emplace_full h vs rs tr this a (xs1 xs2 : list T) args x :
  let n := Z.of_nat (length (xs1 ++ xs2)) in
  let k := Z.of_nat (length xs1) in
  let a' := fresh (dom h) in
  xs2 <> [] ->
  vs !! this = Some (mkVector (mkRawMemory (Some a) n) n) ->
  h !! a = Some (block_of (xs1 ++ xs2) n) ->
  n * sizeof <= PTRDIFF_MAX ->
  grown n * sizeof <= PTRDIFF_MAX ->
  arg_value h args = Some x ->
  Emplace this (Ptr (Some a) k) args (State h vs rs [] tr) =
    Ok (Ptr (Some a') k)
       (State (<[a' := block_of (xs1 ++ x :: xs2) (grown n)]> (delete a h))
          (<[this := mkVector (mkRawMemory (Some a') (grown n)) (n + 1)]> vs)
          rs []
          (tr ++ [EvNew a' (grown n * sizeof); arg_event (Ptr (Some a') k) args]
              ++ loop_events EvRelocate (Ptr (Some a') 0) (Ptr (Some a) 0) (length xs1)
              ++ loop_events EvRelocate (Ptr (Some a') (k + 1)) (Ptr (Some a) k)
                   (length xs2)
              ++ destroy_events (Ptr (Some a) 0) (length (xs1 ++ xs2))
              ++ [EvDelete a])).
Proof.
  intros n k a' Hxs2 Hv Ha Hfit Hfit' Hx.
  assert (0 < length xs2)%nat as Hlen2 by (destruct xs2; [done|cbn; lia]).
  assert (n = k + Z.of_nat (length xs2)) as Hn by (unfold n, k; rewrite length_app; lia).
  pose proof (length_app xs1 xs2) as Happ.
  assert (n < 2 ^ 63) as Hcap by (apply capacity_bound; [lia|done]).
  pose proof (grown_cases n ltac:(lia)) as Hg.
  assert (n < grown n) as Hlt by lia.
  assert (h !! a' = None) as Hfresh by apply fresh_block_None.
  assert (a <> a') as Hne by (intros ->; congruence).
  assert (grown n = n * 2) as Hgn by lia. rewrite !Hgn in *. clear Hg Hgn.
  unfold Emplace. mrun.
  rewrite (decide_False (P := Ptr (Some a) k = Ptr (Some a) n)) by (intros [=]; lia).
  mrun. rewrite !wrap_small by lia. mrun.
  unfold RawMemory_ctor.
  rewrite Allocate_spec by (done || lia). fold a'. mrun.
  erewrite (construct_at_spec _ _ _ _ a' (replicate (length xs1) None) None
              (replicate (length xs2) None ++
               replicate (Z.to_nat (n * 2) - length (xs1 ++ xs2) - 1) None) k args x).
  2:{ by apply arg_value_insert_other. }
  2:{ rewrite lookup_insert_eq. f_equal.
      rewrite (replicate_split None (Z.to_nat (n * 2)) (length xs1)) by lia.
      do 2 f_equal. rewrite <- replicate_add. f_equal. rewrite length_app. lia. }
  2:{ by rewrite length_replicate. }
  mrun.
  rewrite block_of_full in Ha by done.
  erewrite (MoveOrCopyDataByPartAndReplace_spec _ _ _ _ this _ a n xs1 xs2 [] a' (n * 2) x);
    [| done | done | done | by mlookup | done | by mlookup | by mlookup ].
  mrun. rewrite delete_fresh_insert. mrun.
  rewrite wrap_small by lia.
  rewrite !app_nil_r, <- !app_assoc. cbn [app].
  rewrite delete_insert_eq, (delete_insert_ne _ a a') by done.
  rewrite <- block_of_insert.
  replace (Z.to_nat (n * 2) - length (xs1 ++ xs2) - 1)%nat
    with (Z.to_nat (n * 2) - length xs1 - length xs2 - 1)%nat by lia.
  reflexivity.
Qed.

(** Move construction into the slot just above the source. *)
Lemma move_construct_up h vs rs tr a pre (z : T) o post i d :
  h !! a = Some (pre ++ Some z :: o :: post) -> i = Z.of_nat (length pre) -> d = i + 1 ->
  move_construct (Ptr (Some a) d) (Ptr (Some a) i) (State h vs rs [] tr) =
    Ok tt (State (<[a := pre ++ Some (moved_from z) :: Some z :: post]> h) vs rs []
             (tr ++ [EvMoveConstruct (Ptr (Some a) d) (Ptr (Some a) i)])).
Proof.
  intros Hh Hi Hd. unfold move_construct, bind.
  assert (h !! a = Some ((pre ++ [Some z]) ++ o :: post)) as Hh'
    by (by rewrite <- app_assoc).
  assert (d = Z.of_nat (length (pre ++ [Some z]))) as Hd'
    by (rewrite length_app; cbn; lia).
  rewrite (read_mid _ _ _ _ _ _ _ _ _ _ Hh Hi).
  assert ((if nothrow_move_constructible then ret tt else may_throw)
            (State h vs rs [] tr) = Ok tt (State h vs rs [] tr)) as ->
    by (by destruct nothrow_move_constructible).
  rewrite (write_mid _ _ _ _ _ _ _ _ (Some z) _ _ Hh' Hd').
  erewrite (write_mid _ _ _ _ _ _ pre (Some z) (Some (moved_from z)) (Some z :: post)).
  - rewrite insert_insert_eq. reflexivity.
  - rewrite lookup_insert_eq, <- app_assoc. reflexivity.
  - done.
Qed.

Lemma temporary_spec h vs rs tr args (x : T) :
  arg_value h args = Some x ->
  temporary args (State h vs rs [] tr) = Ok x (State h vs rs [] (tr ++ [EvTemporary x])).
Proof.
  intros Hx. destruct args as [y|q|q]; cbn in Hx; [| |done].
  - by injection Hx as ->.
  - cbn. unfold bind. by rewrite (peek_read _ _ _ _ _ _ _ Hx).
Qed.

Lemma assign_temporary_spec h vs rs tr a pre (y x : T) post i :
  h !! a = Some (pre ++ Some y :: post) -> i = Z.of_nat (length pre) ->
  assign_temporary (Ptr (Some a) i) x (State h vs rs [] tr) =
    Ok tt (State (<[a := pre ++ Some x :: post]> h) vs rs []
             (tr ++ [EvAssignTemporary (Ptr (Some a) i)])).
Proof.
  intros Hh Hi. unfold assign_temporary, bind.
  rewrite (read_mid _ _ _ _ _ _ _ _ _ _ Hh Hi). cbn [may_throw script].
  by rewrite (write_mid _ _ _ _ _ _ _ _ (Some x) _ _ Hh Hi).
Qed.

Lemma block_of_last_spare (xs1 ys : list T) (z : T) cap :
  Z.of_nat (length (xs1 ++ ys ++ [z])) < cap ->
  block_of (xs1 ++ ys ++ [z]) cap =
    ((Some <$> xs1) ++ (Some <$> ys)) ++ Some z :: None ::
      replicate (Z.to_nat cap - (length xs1 + length ys + 1) - 1) None.
Proof.
  intros Hlt. rewrite block_of_spare by done.
  rewrite !fmap_app, <- !app_assoc, !length_app. cbn. block_eq.
Qed.

(** [Emplace] before the end of a vector with spare capacity.  The value
    that is inserted is the one that the arguments denote once the
    elements have been shifted. *)
Lemma Emplace_spare h vs rs tr this a cap (xs1 ys : list T) (z : T) args x' :
  let n := Z.of_nat (length (xs1 ++ ys ++ [z])) in
  let k := Z.of_nat (length xs1) in
  vs !! this = Some (mkVector (mkRawMemory (Some a) cap) n) ->
  n < cap -> cap < 2 ^ 64 ->
  h !! a = Some (block_of (xs1 ++ ys ++ [z]) cap) ->
  arg_value (<[a := shifted_block xs1 ys z cap]> h) args = Some x' ->
  Emplace this (Ptr (Some a) k) args (State h vs rs [] tr) =
    Ok (Ptr (Some a) k)
       (State (<[a := block_of (xs1 ++ x' :: ys ++ [z]) cap]> h)
          (<[this := mkVector (mkRawMemory (Some a) cap) (n + 1)]> vs)
          rs []
          (tr ++ [EvMoveConstruct (Ptr (Some a) n) (Ptr (Some a) (n - 1))]
              ++ backward_events EvMoveAssign (Ptr (Some a) n) (Ptr (Some a) (n - 1))
                   (length ys)
              ++ [EvTemporary x'; EvAssignTemporary (Ptr (Some a) k)])).
Proof.
  intros n k Hv Hlt Hcap Ha Hx.
  assert (n = k + Z.of_nat (length ys) + 1) as Hn
    by (unfold n, k; rewrite !length_app; cbn; lia).
  rewrite block_of_last_spare in Ha by done.
  unfold Emplace, move_backward. mrun.
  rewrite (decide_False (P := Ptr (Some a) k = Ptr (Some a) n)) by (intros [=]; lia).
  mrun. rewrite !wrap_small by lia. mrun.
  erewrite move_construct_up; [| exact Ha | rewrite length_app, !length_fmap; lia | lia ].
  mrun. rewrite range_length_spec by lia.
  replace (Z.to_nat (n + -1 - k)) with (length ys) by lia.
  erewrite (move_backward_loop_spec ys (moved_from z) _ _ (Some <$> xs1)).
  2:{ rewrite lookup_insert_eq, <- app_assoc. reflexivity. }
  2:{ rewrite length_fmap. lia. }
  2:{ lia. }
  rewrite insert_insert_eq. fold (shifted_block xs1 ys z cap).
  rewrite (temporary_spec _ _ _ _ _ _ Hx). mrun.
  erewrite assign_temporary_spec;
    [| rewrite lookup_insert_eq; reflexivity | by rewrite length_fmap ].
  mrun. rewrite !wrap_small by lia. rewrite <- !app_assoc.
  rewrite <- block_of_insert, fmap_app, <- !app_assoc, length_app. cbn.
  replace (Z.to_nat cap - length xs1 - (length ys + 1) - 1)%nat
    with (Z.to_nat cap - (length xs1 + length ys + 1) - 1)%nat by lia.
  reflexivity.
Qed.

(** [Erase] of the element at offset [length xs1]. *)
Lemma Erase_spec h vs rs tr this a cap (xs1 : list T) (x : T) (xs2 : list T) :
  let n := Z.of_nat (length (xs1 ++ x :: xs2)) in
  let k := Z.of_nat (length xs1) in
  vs !! this = Some (mkVector (mkRawMemory (Some a) cap) n) ->
  n <= cap -> cap < 2 ^ 64 ->
  h !! a = Some (block_of (xs1 ++ x :: xs2) cap) ->
  Erase this (Ptr (Some a) k) (State h vs rs [] tr) =
    Ok (Ptr (Some a) k)
       (State (<[a := block_of (xs1 ++ xs2) cap]> h)
          (<[this := mkVector (mkRawMemory (Some a) cap) (n - 1)]> vs)
          rs []
          (tr ++ loop_events EvMoveAssign (Ptr (Some a) k) (Ptr (Some a) (k + 1))
                   (length xs2)
              ++ [EvDestroy (Ptr (Some a) (n - 1))])).
Proof.
  intros n k Hv Hle Hcap Ha.
  assert (n = k + Z.of_nat (length xs2) + 1) as Hn
    by (unfold n, k; rewrite !length_app; cbn; lia).
  unfold block_of in Ha. rewrite fmap_app, fmap_cons, <- app_assoc, <- app_comm_cons in Ha.
  unfold Erase, move. mrun. rewrite !wrap_small by lia.
  replace (n + - (n - k)) with k by lia.
  rewrite range_length_spec by lia.
  replace (Z.to_nat (n - (k + 1))) with (length xs2) by lia.
  rewrite (move_loop_spec xs2 x _ _ _ _ _ _ _ _ Ha) by (by rewrite length_fmap).
  mrun. rewrite !wrap_small by lia. mrun.
  cbn [destroy_n]. unfold bind.
  erewrite (destroy_at_mid _ _ _ _ _ _ ((Some <$> xs1) ++ (Some <$> xs2))).
  2:{ rewrite lookup_insert_eq, <- app_assoc. reflexivity. }
  2:{ rewrite length_app, !length_fmap. lia. }
  mrun.
  replace (n - 1 + - (n - k) + 1) with k by lia.
  rewrite <- !app_assoc.
  do 3 f_equal. unfold block_of. rewrite fmap_app, <- app_assoc.
  rewrite (replicate_split None (Z.to_nat cap - length (xs1 ++ xs2)) 0)
    by (rewrite length_app; lia).
  rewrite !length_app. cbn. block_eq.
Qed.

(** *** [Emplace] and [Erase] on a vector that holds a sequence *)

Lemma block_of_live (xs : list T) cap (j : nat) (y : T) :
  block_of xs cap !! j = Some (Some y) -> (j < length xs)%nat.
Proof.
  unfold block_of. intros Hj. destruct (decide (j < length xs)%nat) as [|Hge]; [done|].
  rewrite lookup_app_r in Hj by (rewrite length_fmap; lia).
  apply lookup_replicate in Hj as [? _]. done.
Qed.

Lemma shifted_block_live (xs1 ys : list T) (z : T) cap (j : nat) :
  (j < length xs1 + length ys + 2)%nat ->
  exists y, shifted_block xs1 ys z cap !! j = Some (Some y).
Proof.
  intros Hj. unfold shifted_block.
  set (junk := after_move_up ys (moved_from z)).
  assert (exists y, (xs1 ++ junk :: ys ++ [z]) !! j = Some y) as [y Hy].
  { apply lookup_lt_is_Some. rewrite !length_app. cbn. rewrite length_app. cbn. lia. }
  exists y.
  replace ((Some <$> xs1) ++ Some junk :: (Some <$> ys) ++ Some z ::
           replicate (Z.to_nat cap - (length xs1 + length ys + 1) - 1) None)
    with ((Some <$> xs1 ++ junk :: ys ++ [z]) ++
          replicate (Z.to_nat cap - (length xs1 + length ys + 1) - 1) None).
  2:{ rewrite !fmap_app, fmap_cons, fmap_app, <- !app_assoc. cbn.
      rewrite <- app_assoc. reflexivity. }
  rewrite lookup_app_l.
  - by rewrite list_lookup_fmap, Hy.
  - rewrite length_fmap. by eapply lookup_lt_Some.
Qed.

(** Arguments that can be read before the shift can be read after it. *)
Lemma arg_value_shifted h a (xs1 ys : list T) (z : T) cap args x :
  h !! a = Some (block_of (xs1 ++ ys ++ [z]) cap) ->
  arg_value h args = Some x ->
  exists x', arg_value (<[a := shifted_block xs1 ys z cap]> h) args = Some x' /\
             (outside (Some a) args -> x' = x).
Proof.
  intros Ha Hx. destruct args as [y|q|q]; cbn in Hx |- *; [by eauto| |done].
  unfold peek in *. destruct (base q) as [b|]; [|done].
  destruct (decide (b = a)) as [->|Hne].
  - rewrite lookup_insert_eq. rewrite Ha in Hx.
    destruct (0 <=? off q); [|done].
    destruct (block_of _ _ !! _) as [[y|]|] eqn:E; try done.
    apply block_of_live in E. rewrite !length_app in E. cbn in E.
    destruct (shifted_block_live xs1 ys z cap (Z.to_nat (off q)) ltac:(lia)) as [y' ->].
    exists y'. split; [done|]. intros Hout. by destruct Hout.
  - rewrite lookup_insert_ne by done. exists x. by split.
Qed.

Lemma Emplace_at_end (s : state T) this buf cap n args :
  vecs s !! this = Some (mkVector (mkRawMemory buf cap) n) ->
  Emplace this (Ptr buf n) args s = EmplaceBack this args s.
Proof.
  intros Hv. unfold Emplace. unfold bind at 1.
  assert (cend this s = Ok (Ptr buf n) s) as -> by (by mrun).
  by rewrite decide_True.
Qed.

Lemma Emplace_ok (s : state T) this buf cap xs (k : nat) args x :
  is_vector s this buf cap xs ->
  script s = [] ->
  (k <= length xs)%nat ->
  arg_value (heap s) args = Some x ->
  (Z.of_nat (length xs) = cap -> grown cap * sizeof <= PTRDIFF_MAX) ->
  exists p s' buf' cap' x',
    Emplace this (Ptr buf (Z.of_nat k)) args s = Ok p s' /\
    is_vector s' this buf' cap' (take k xs ++ x' :: drop k xs) /\
    p = Ptr buf' (Z.of_nat k) /\
    script s' = [] /\
    (outside buf args \/ Z.of_nat (length xs) = cap \/ k = length xs -> x' = x).
Proof.
  intros Hvec Hsc Hk Hx Hgrow.
  destruct (decide (k = length xs)) as [->|Hlt].
  - destruct (EmplaceBack_ok s this buf cap xs args x Hvec Hsc Hx Hgrow)
      as (p & s' & buf' & cap' & Hrun & Hvec' & Hp & _ & _ & Hsc').
    exists p, s', buf', cap', x. rewrite firstn_all, drop_all.
    destruct Hvec as (Hv & _). by erewrite Emplace_at_end.
  - destruct Hvec as (Hv & Hle & Hfit & Hbuf).
    destruct s as [h vs rs sc tr]. cbn in Hv, Hbuf, Hsc, Hx. subst sc.
    destruct buf as [a|]; [|lia]. destruct Hbuf as (Hpos & Ha).
    assert (cap < 2 ^ 63) as Hcap by (apply capacity_bound; [lia|done]).
    pose proof (take_drop k xs) as Hsplit.
    assert (length (take k xs) = k) as Hlen1 by (rewrite length_take; lia).
    assert (drop k xs <> []) as Hne.
    { intros E. apply (f_equal length) in E. rewrite length_drop in E. cbn in E. lia. }
    destruct (decide (Z.of_nat (length xs) = cap)) as [Heq|Hspare].
    + specialize (Hgrow Heq).
      pose proof (grown_cases cap ltac:(lia)) as Hg.
      pose proof (Emplace_full h vs rs tr this a (take k xs) (drop k xs) args x) as Hfull.
      cbv zeta in Hfull. rewrite Hsplit, Hlen1, Heq in Hfull. rewrite Heq in Hv.
      specialize (Hfull Hne Hv Ha Hfit Hgrow Hx).
      exists (Ptr (Some (fresh (dom h))) (Z.of_nat k)). eexists.
      exists (Some (fresh (dom h))), (grown cap), x.
      split; [exact Hfull|]. split; [|done].
      eapply is_vector_intro; cbn; mlookup; try done.
      * rewrite length_app. cbn. rewrite length_take, length_drop. lia.
      * lia.
      * split; [lia|done].
    + destruct (exists_last Hne) as (ys & z & Hys).
      pose proof (f_equal length Hsplit) as Hlen. rewrite length_app, Hys in Hlen.
      rewrite length_app in Hlen. cbn in Hlen.
      assert (h !! a = Some (block_of (take k xs ++ ys ++ [z]) cap)) as Ha'
        by (by rewrite <- Hys, Hsplit).
      destruct (arg_value_shifted h a (take k xs) ys z cap args x Ha' Hx)
        as (x' & Hx' & Hout).
      pose proof (Emplace_spare h vs rs tr this a cap (take k xs) ys z args x') as Hsp.
      cbv zeta in Hsp. rewrite <- Hys, Hsplit, Hlen1 in Hsp.
      specialize (Hsp Hv ltac:(lia) ltac:(lia) Ha).
      rewrite Hys in Hsp. specialize (Hsp Hx'). rewrite <- Hys in Hsp.
      exists (Ptr (Some a) (Z.of_nat k)). eexists. exists (Some a), cap, x'.
      split; [exact Hsp|]. split; [|split; [done|split; [done|]]].
      * eapply is_vector_intro; cbn; mlookup; try done.
        -- rewrite length_app. cbn. rewrite length_take, length_drop. lia.
        -- lia.
      * intros [Hout'|[Hfull|Hend]]; [by apply Hout|lia|lia].
Qed.

Lemma Erase_ok (s : state T) this buf cap (xs1 : list T) (x : T) (xs2 : list T) :
  is_vector s this buf cap (xs1 ++ x :: xs2) ->
  script s = [] ->
  exists s',
    Erase this (Ptr buf (Z.of_nat (length xs1))) s =
      Ok (Ptr buf (Z.of_nat (length xs1))) s' /\
    is_vector s' this buf cap (xs1 ++ xs2) /\
    script s' = [].
Proof.
  intros (Hv & Hle & Hfit & Hbuf) Hsc.
  destruct s as [h vs rs sc tr]. cbn in Hv, Hbuf, Hsc. subst sc.
  assert (0 < Z.of_nat (length (xs1 ++ x :: xs2))) as Hpos
    by (rewrite length_app; cbn; lia).
  destruct buf as [a|]; [|lia]. destruct Hbuf as (_ & Ha).
  assert (cap < 2 ^ 63) as Hcap by (apply capacity_bound; [lia|done]).
  eexists. split; [apply Erase_spec; try done; lia|]. split; [|done].
  rewrite length_app in *. cbn in *.
  eapply is_vector_intro; cbn; mlookup; try done.
  - rewrite length_app. lia.
  - lia.
  - split; [lia|done].
Qed.
End EmplaceProofs.

(** ** Copy construction, destruction and copy assignment *)

Section CopyProofs.
Context {T : Type} `{!Element T}.
Implicit Types (h : gmap addr (list (option T))) (vs : gmap nat Vector)
  (rs : gmap nat RawMemory) (sc : list bool) (tr : list (event T)).

(** [~Vector()] and the release of the buffer. *)
Lemma Vector_dtor_spec h vs rs sc tr l buf cap (xs : list T) post :
  vs !! l = Some (mkVector (mkRawMemory buf cap) (Z.of_nat (length xs))) ->
  match buf with
  | Some a => h !! a = Some ((Some <$> xs) ++ post)
  | None => xs = []
  end ->
  Vector_dtor l (State h vs rs sc tr) =
    Ok tt (State (release buf h) (delete l vs) rs sc
             (tr ++ destroy_events (Ptr buf 0) (length xs) ++ release_events buf)).
Proof.
  intros Hv Hbuf. mrun. rewrite Nat2Z.id. destruct buf as [a|].
  - rewrite (destroy_n_spec xs h tr [] post 0 a) by done. mrun.
    cbn [release release_events]. by rewrite delete_insert_eq, <- app_assoc.
  - subst xs. cbn [length destroy_n]. mrun. cbn. by rewrite !app_nil_r.
Qed.

(** The copy constructor, whatever the script: it returns with a new
    object that holds copies in a new block, or it throws and has changed
    neither the heap nor any object. *)
Lemma Vector_copy_ctor_spec h vs rs sc tr l b bufb capb (ys : list T) :
  vs !! b = Some (mkVector (mkRawMemory bufb capb) (Z.of_nat (length ys))) ->
  match bufb with
  | Some b0 => h !! b0 = Some (block_of ys capb)
  | None => ys = []
  end ->
  Z.of_nat (length ys) <= capb -> capb * sizeof <= PTRDIFF_MAX ->
  vs !! l = None ->
  match Vector_copy_ctor l b (State h vs rs sc tr) with
  | Ok _ s' =>
      exists buf' sc' tr',
        s' = State (match buf' with Some a' => <[a' := Some <$> ys]> h | None => h end)
               (<[l := mkVector (mkRawMemory buf' (Z.of_nat (length ys)))
                         (Z.of_nat (length ys))]> vs) rs sc' tr' /\
        match buf' with
        | Some a' => a' = fresh (dom h) /\ ys <> []
        | None => ys = []
        end /\
        (sc = [] -> sc' = [])
  | Throw s' => heap s' = h /\ vecs s' = vs /\ raws s' = rs /\ sc <> []
  | Fault => False
  end.
Proof.
  intros Hb Hbuf Hle Hfit Hl.
  assert (l <> b) as Hlb by (intros ->; congruence).
  unfold Vector_copy_ctor, uninitialized_copy_n.
  erewrite bind_Ok; [| mrun; reflexivity ]. cbv beta.
  destruct ys as [|y ys'].
  - cbn [length]. unfold Allocate. cbn. mrun. cbn [uninitialized_loop]. mrun.
    exists None, sc, tr. by repeat split.
  - set (ys := y :: ys') in *.
    assert (0 < Z.of_nat (length ys)) as Hpos by (cbn; lia).
    destruct bufb as [b0|]; [|done].
    assert (Z.of_nat (length ys) * sizeof <= PTRDIFF_MAX) as Hfit'.
    { pose proof sizeof_range. unfold PTRDIFF_MAX in *. nia. }
    unfold bind at 1. rewrite Allocate_spec by done.
    set (a' := fresh (dom h)).
    assert (h !! a' = None) as Hfresh by apply fresh_block_None.
    assert (b0 <> a') as Hne by (intros ->; congruence).
    destruct sc as [|[] sc']; [| by repeat split |].
    all: mrun; rewrite Nat2Z.id.
    all: match goal with
         | |- context [uninitialized_loop copy_construct _ _ _ _
                         (State ?h1 ?vs1 ?rs1 ?sc1 ?tr1)] =>
             pose proof (uninitialized_copy_loop_spec ys h1 tr1 sc1 []
                           (replicate (Z.to_nat capb - length ys) None) [] [] [] 0 0
                           b0 a' vs1 rs1 Hne) as Hloop
         end.
    all: lapply Hloop; [clear Hloop; intros Hloop
                       | by rewrite lookup_insert_ne by done ].
    all: specialize (Hloop eq_refl).
    all: lapply Hloop; [clear Hloop; intros Hloop
                       | by rewrite lookup_insert_eq, app_nil_r ].
    all: specialize (Hloop eq_refl).
    all: cbn [length] in Hloop.
    all: destruct (uninitialized_loop _ _ _ _ _ _) as [[] s'|s'|]; [| |done].
    + subst s'. exists (Some a'). eexists _, _. split.
      { rewrite insert_insert_eq, app_nil_r. reflexivity. }
      split; [done|]. intros _. cbn. by destruct (length ys').
    + destruct Hloop as (Hh & Hv & Hr & Hsc). done.
    + subst s'. exists (Some a'). eexists _, _. split.
      { rewrite insert_insert_eq, app_nil_r. reflexivity. }
      split; [done|]. intros [=].
    + destruct Hloop as (Hh & Hv & Hr & _). destruct s' as [h2 vs2 rs2 sc2 tr2].
      cbn in Hh, Hv, Hr. subst h2 vs2 rs2. mrun. cbn.
      rewrite !delete_insert_eq, !delete_id by done. done.
Qed.

(** Copy assignment to a vector whose capacity is too small, whatever the
    script. *)
Lemma Vector_copy_assign_grow h vs rs sc tr a b bufa capa (xs : list T)
    bufb capb (ys : list T) :
  a <> b ->
  vs !! a = Some (mkVector (mkRawMemory bufa capa) (Z.of_nat (length xs))) ->
  match bufa with
  | Some a0 => h !! a0 = Some (block_of xs capa)
  | None => xs = []
  end ->
  vs !! b = Some (mkVector (mkRawMemory bufb capb) (Z.of_nat (length ys))) ->
  match bufb with
  | Some b0 => h !! b0 = Some (block_of ys capb)
  | None => ys = []
  end ->
  Z.of_nat (length ys) <= capb -> capb * sizeof <= PTRDIFF_MAX ->
  0 <= capa < Z.of_nat (length ys) ->
  match Vector_copy_assign a b (State h vs rs sc tr) with
  | Ok _ s' =>
      exists sc' tr',
        s' = State (release bufa (<[fresh (dom h) := Some <$> ys]> h))
               (<[a := mkVector (mkRawMemory (Some (fresh (dom h)))
                                   (Z.of_nat (length ys)))
                         (Z.of_nat (length ys))]> vs) rs sc' tr' /\
        (sc = [] -> sc' = [])
  | Throw s' => heap s' = h /\ vecs s' = vs /\ raws s' = rs /\ sc <> []
  | Fault => False
  end.
Proof.
  intros Hab Ha Hbufa Hb Hbufb Hle Hfit Hgrow.
  set (l := fresh (dom vs)).
  assert (vs !! l = None) as Hl by apply not_elem_of_dom, is_fresh.
  assert (a <> l) as Hal by (intros ->; congruence).
  assert (b <> l) as Hbl by (intros ->; congruence).
  pose proof (Vector_copy_ctor_spec h vs rs sc tr l b bufb capb ys Hb Hbufb Hle Hfit Hl)
    as Hctor.
  unfold Vector_copy_assign, with_local_vector. rewrite decide_True by done.
  do 2 (erewrite bind_Ok; [| mrun; reflexivity ]; cbv beta). mbool.
  erewrite bind_Ok; [| reflexivity ]. cbv beta. cbn [vecs]. fold l.
  unfold bind at 1.
  destruct (Vector_copy_ctor l b _) as [[] s1|s1|]; [| done | done].
  destruct Hctor as (buf' & sc' & tr' & -> & Hbuf' & Hsc).
  destruct buf' as [a'|]; [|subst ys; cbn in Hgrow; lia].
  destruct Hbuf' as (-> & Hys).
  set (a' := fresh (dom h)).
  assert (h !! a' = None) as Hfresh by apply fresh_block_None.
  unfold finally.
  erewrite Swap_distinct; [| done | cbn; by mlookup | cbn; by mlookup ].
  cbn [heap vecs raws script trace].
  erewrite (Vector_dtor_spec _ _ _ _ _ l bufa capa xs
              (replicate (Z.to_nat capa - length xs) None)).
  2:{ by mlookup. }
  2:{ destruct bufa as [a0|]; [|done].
      rewrite lookup_insert_ne by (intros ->; congruence). exact Hbufa. }
  eexists _, _. split; [|exact Hsc].
  f_equal. rewrite delete_insert_eq, (delete_insert_ne _ l a) by done.
  by rewrite delete_insert_eq, delete_id.
Qed.

(** Copy assignment within the capacity of the target, when nothing
    throws: the buffer stays and holds copies of the source elements. *)
Lemma Vector_copy_assign_fit h vs rs tr a b bufa capa (xs : list T)
    bufb capb (ys : list T) :
  a <> b ->
  vs !! a = Some (mkVector (mkRawMemory bufa capa) (Z.of_nat (length xs))) ->
  match bufa with
  | Some a0 => h !! a0 = Some (block_of xs capa)
  | None => capa = 0
  end ->
  vs !! b = Some (mkVector (mkRawMemory bufb capb) (Z.of_nat (length ys))) ->
  match bufb with
  | Some b0 => h !! b0 = Some (block_of ys capb)
  | None => ys = []
  end ->
  bufa <> bufb \/ bufa = None ->
  Z.of_nat (length xs) <= capa -> capa < 2 ^ 64 ->
  Z.of_nat (length ys) <= capa ->
  exists tr',
    Vector_copy_assign a b (State h vs rs [] tr) =
      Ok tt (State (match bufa with
                    | Some a0 => <[a0 := block_of ys capa]> h
                    | None => h
                    end)
               (<[a := mkVector (mkRawMemory bufa capa) (Z.of_nat (length ys))]> vs)
               rs [] tr').
Proof.
  intros Hab Ha Hbufa Hb Hbufb Hdisj Hlea Hcapa Hfits.
  unfold Vector_copy_assign, copy_n, uninitialized_copy_n. rewrite decide_True by done.
  mrun.
  destruct ys as [|y ys'].
  { (* the source is empty *)
    cbn [length] in *. destruct xs as [|x xs'].
    - cbn [length]. mrun. rewrite ?wrap_small by lia.
      repeat match goal with
             | |- context [Z.to_nat ?z] => replace (Z.to_nat z) with 0%nat by lia
             end.
      cbn [copy_loop uninitialized_loop]. mrun.
      eexists. do 2 f_equal. destruct bufa as [a0|]; [|done].
      symmetry. by apply insert_id.
    - set (xs := x :: xs') in *.
      assert (0 < length xs)%nat as Hposa by (cbn; lia).
      destruct bufa as [a0|]; [|lia]. mrun.
      rewrite ?wrap_small by lia. rewrite !Nat2Z.id. cbn [copy_loop]. mrun.
      erewrite (destroy_n_spec xs h tr []
                  (replicate (Z.to_nat capa - length xs) None) _ a0); [| done | done ].
      mrun. eexists. do 2 f_equal. cbn [app]. unfold block_of. cbn [fmap list_fmap app length].
      rewrite <- replicate_add. do 2 f_equal. lia. }
  set (ys := y :: ys') in *.
  assert (0 < Z.of_nat (length ys)) as Hposb by (cbn; lia).
  destruct bufb as [b0|]; [|done].
  destruct bufa as [a0|]; [|lia].
  assert (b0 <> a0) as Hne by (destruct Hdisj as [?|?]; congruence).
  destruct (decide (length xs <= length ys)%nat) as [Hcase|Hcase].
  - (* overwrite the live elements, construct the rest *)
    eexists. mrun. rewrite wrap_small by lia. rewrite !Nat2Z.id.
    replace (Z.to_nat (Z.of_nat (length ys) - Z.of_nat (length xs)))
      with (length (drop (length xs) ys)) by (rewrite length_drop; lia).
    assert (length xs = length (take (length xs) ys)) as Hlen1
      by (rewrite length_take; lia).
    rewrite Hlen1 at 1.
    erewrite (copy_loop_spec (take (length xs) ys) xs h tr []
                ((Some <$> drop (length xs) ys) ++
                 replicate (Z.to_nat capb - length ys) None) []
                (replicate (Z.to_nat capa - length xs) None) 0 0 b0 a0);
      [| by rewrite <- Hlen1 | done | | done | done | done ].
    2:{ rewrite Hbufb. unfold block_of. cbn [app].
        by rewrite app_assoc, <- fmap_app, take_drop. }
    erewrite (uninitialized_copy_loop_quiet (drop (length xs) ys) _ _
                (Some <$> take (length xs) ys)
                (replicate (Z.to_nat capb - length ys) None)
                (Some <$> take (length xs) ys)
                (replicate (Z.to_nat capa - length ys) None)
                (Z.of_nat (length xs)) (Z.of_nat (length xs)) b0 a0); try done.
    + mrun. do 2 f_equal. cbn [app]. unfold block_of.
      by rewrite app_assoc, <- fmap_app, take_drop.
    + rewrite lookup_insert_ne by done. rewrite Hbufb. unfold block_of.
      by rewrite app_assoc, <- fmap_app, take_drop.
    + by rewrite length_fmap, <- Hlen1.
    + rewrite lookup_insert_eq. cbn [app]. do 2 f_equal.
      rewrite <- replicate_add. f_equal. rewrite length_drop. lia.
    + by rewrite length_fmap, <- Hlen1.
  - (* overwrite the first elements, destroy the rest *)
    eexists. mrun. rewrite wrap_small by lia. rewrite Nat2Z.id.
    replace (Z.to_nat (Z.of_nat (length xs) - Z.of_nat (length ys)))
      with (length (drop (length ys) xs)) by (rewrite length_drop; lia).
    erewrite (copy_loop_spec ys (take (length ys) xs) h tr []
                (replicate (Z.to_nat capb - length ys) None) []
                ((Some <$> drop (length ys) xs) ++
                 replicate (Z.to_nat capa - length xs) None) 0 0 b0 a0);
      [| rewrite length_take; lia | done | done | done | | done ].
    2:{ rewrite Hbufa. unfold block_of. cbn [app].
        by rewrite app_assoc, <- fmap_app, take_drop. }
    erewrite (destroy_n_spec (drop (length ys) xs) _ _ (Some <$> ys)
                (replicate (Z.to_nat capa - length xs) None) (Z.of_nat (length ys)) a0).
    + mrun. cbn [app]. unfold block_of. rewrite <- replicate_add.
      replace (length (drop (length ys) xs) + (Z.to_nat capa - length xs))%nat
        with (Z.to_nat capa - length ys)%nat by (rewrite length_drop; lia).
      reflexivity.
    + by rewrite lookup_insert_eq.
    + by rewrite length_fmap.
Qed.
End CopyProofs.

(** ** Operations that touch the heap and no object *)

Create HintDb mem_only.

Lemma fresh_None {V} (m : gmap nat V) : m !! fresh (dom m) = None.
Proof. apply not_elem_of_dom, is_fresh. Qed.

Section Frame.
Context {T : Type} `{!Element T}.

Ltac inner_case :=
  match goal with
  | |- context [match ?x with _ => _ end] =>
      lazymatch x with
      | context [match _ with _ => _ end] => fail
      | _ => destruct x eqn:?
      end
  end.

Lemma mem_only_weaken {A} (m : M T A) (R R' : A -> Prop) :
  mem_only m R -> (forall a, R a -> R' a) -> mem_only m R'.
Proof.
  intros Hm HR s. specialize (Hm s). destruct (m s); [|done|done].
  destruct Hm as (? & ? & ?). eauto.
Qed.

Lemma mem_only_ret {A} (a : A) (R : A -> Prop) : R a -> mem_only (T := T) (ret a) R.
Proof. intros Ha s. by cbn. Qed.

Lemma mem_only_fault {A} (R : A -> Prop) : mem_only (T := T) (fault (T := T)) R.
Proof. intros s. by cbn. Qed.

Lemma mem_only_throw {A} (R : A -> Prop) : mem_only (T := T) (throw (T := T)) R.
Proof. intros s. by cbn. Qed.

Lemma mem_only_bind {A B} (m : M T A) (f : A -> M T B) (R : A -> Prop) (R' : B -> Prop) :
  mem_only m R -> (forall a, R a -> mem_only (T := T) (f a) R') -> mem_only (T := T) (bind m f) R'.
Proof.
  intros Hm Hf s. unfold bind. specialize (Hm s).
  destruct (m s) as [a s1|s1|]; [|done|done].
  destruct Hm as (Hv & Hr & Ha). specialize (Hf a Ha s1).
  destruct (f a s1) as [b s2|s2|]; [| |done].
  - destruct Hf as (? & ? & ?). repeat split; congruence.
  - destruct Hf as (? & ?). repeat split; congruence.
Qed.

Lemma mem_only_on_throw {A} (m : M T A) (hd : M T unit) (R : A -> Prop) :
  mem_only m R -> mem_only hd (fun _ => True) -> mem_only (T := T) (on_throw m hd) R.
Proof.
  intros Hm Hh s. unfold on_throw. specialize (Hm s).
  destruct (m s) as [a s1|s1|]; [done| |done].
  destruct Hm as (Hv & Hr). specialize (Hh s1).
  destruct (hd s1) as [b s2|s2|]; [|done|done].
  destruct Hh as (? & ? & _). repeat split; congruence.
Qed.

Lemma mem_only_assert (b : bool) : mem_only (T := T) (assert (T := T) b) (fun _ => b = true).
Proof. intros s. destruct b; by cbn. Qed.

Lemma mem_only_may_throw : mem_only (T := T) may_throw (fun _ => True).
Proof. intros s. unfold may_throw. destruct (script s) as [|[] ?]; by cbn. Qed.

Lemma mem_only_log e : mem_only (T := T) (log e) (fun _ => True).
Proof. intros s. by cbn. Qed.

Lemma mem_only_slot p : mem_only (T := T) (slot p) (fun _ => True).
Proof. intros s. unfold slot. repeat inner_case; by cbn. Qed.

Lemma mem_only_read p : mem_only (T := T) (read p) (fun _ => True).
Proof.
  unfold read. eapply mem_only_bind; [apply mem_only_slot|].
  intros [x|] _; [by apply mem_only_ret|apply mem_only_fault].
Qed.

Lemma mem_only_write p o : mem_only (T := T) (write p o) (fun _ => True).
Proof.
  intros s. unfold write, bind, get_state, set_heap, fault.
  pose proof (mem_only_slot p s) as Hs.
  destruct (slot p s) as [a s1|s1|]; [|done|done].
  destruct Hs as (? & ? & _). repeat inner_case; by cbn.
Qed.

Lemma mem_only_operator_new bytes :
  mem_only (T := T) (operator_new bytes) (fun buf => bytes <= PTRDIFF_MAX /\ buf <> None).
Proof.
  intros s. unfold operator_new, bind, get_state, set_heap, log, ret, throw.
  destruct (PTRDIFF_MAX <? bytes) eqn:E; [done|].
  pose proof (mem_only_may_throw s) as Hs.
  destruct (may_throw s) as [a s1|s1|]; [|done|done].
  destruct Hs as (? & ? & _). cbn. repeat split; try done. lia.
Qed.

Lemma mem_only_Allocate n :
  mem_only (T := T) (Allocate n)
    (fun buf => (n = 0 /\ buf = None) \/
                (n <> 0 /\ wrap (n * sizeof) <= PTRDIFF_MAX /\ buf <> None)).
Proof.
  unfold Allocate. destruct (n =? 0) eqn:E.
  - apply mem_only_ret. left. split; [lia|done].
  - eapply mem_only_weaken; [apply mem_only_operator_new|].
    intros buf (? & ?). right. repeat split; try done. lia.
Qed.

Lemma mem_only_Deallocate buf : mem_only (T := T) (Deallocate buf) (fun _ => True).
Proof.
  intros s. unfold Deallocate, operator_delete, bind, get_state, set_heap, log, fault, ret.
  repeat inner_case; by cbn.
Qed.

Lemma mem_only_copy_construct p q : mem_only (T := T) (copy_construct p q) (fun _ => True).
Proof.
  unfold copy_construct.
  repeat (eapply mem_only_bind;
          [first [apply mem_only_read | apply mem_only_may_throw | apply mem_only_write]
          | intros ? _]).
  apply mem_only_log.
Qed.

Lemma mem_only_move_construct p q : mem_only (T := T) (move_construct p q) (fun _ => True).
Proof.
  unfold move_construct.
  eapply mem_only_bind; [apply mem_only_read | intros ? _].
  eapply mem_only_bind; [| intros ? _].
  { instantiate (1 := fun _ => True).
    destruct nothrow_move_constructible; [by apply mem_only_ret|apply mem_only_may_throw]. }
  repeat (eapply mem_only_bind; [apply mem_only_write | intros ? _]).
  apply mem_only_log.
Qed.

Lemma mem_only_value_construct p : mem_only (T := T) (value_construct p) (fun _ => True).
Proof.
  unfold value_construct.
  repeat (eapply mem_only_bind;
          [first [apply mem_only_may_throw | apply mem_only_write] | intros ? _]).
  apply mem_only_log.
Qed.

Lemma mem_only_copy_assign p q : mem_only (T := T) (copy_assign p q) (fun _ => True).
Proof.
  unfold copy_assign.
  repeat (eapply mem_only_bind;
          [first [apply mem_only_read | apply mem_only_may_throw | apply mem_only_write]
          | intros ? _]).
  apply mem_only_log.
Qed.

Lemma mem_only_move_assign p q : mem_only (T := T) (move_assign p q) (fun _ => True).
Proof.
  unfold move_assign.
  repeat (eapply mem_only_bind;
          [first [apply mem_only_read | apply mem_only_may_throw | apply mem_only_write]
          | intros ? _]).
  apply mem_only_log.
Qed.

Lemma mem_only_destroy_at p : mem_only (T := T) (destroy_at p) (fun _ => True).
Proof.
  unfold destroy_at.
  repeat (eapply mem_only_bind;
          [first [apply mem_only_read | apply mem_only_write] | intros ? _]).
  apply mem_only_log.
Qed.

Lemma mem_only_construct_at p args : mem_only (T := T) (construct_at p args) (fun _ => True).
Proof.
  destruct args; cbn [construct_at];
    [| apply mem_only_copy_construct | apply mem_only_move_construct ].
  repeat (eapply mem_only_bind;
          [first [apply mem_only_may_throw | apply mem_only_write] | intros ? _]).
  apply mem_only_log.
Qed.

Lemma mem_only_temporary args : mem_only (T := T) (temporary args) (fun _ => True).
Proof.
  destruct args; cbn [temporary].
  - repeat (eapply mem_only_bind;
            [first [apply mem_only_may_throw | apply mem_only_log] | intros ? _]).
    by apply mem_only_ret.
  - repeat (eapply mem_only_bind;
            [first [apply mem_only_read | apply mem_only_may_throw | apply mem_only_log]
            | intros ? _]).
    by apply mem_only_ret.
  - eapply mem_only_bind; [apply mem_only_read | intros ? _].
    eapply mem_only_bind; [| intros ? _].
    { instantiate (1 := fun _ => True).
      destruct nothrow_move_constructible; [by apply mem_only_ret|apply mem_only_may_throw]. }
    repeat (eapply mem_only_bind;
            [first [apply mem_only_write | apply mem_only_log] | intros ? _]).
    by apply mem_only_ret.
Qed.

Lemma mem_only_assign_temporary p x : mem_only (T := T) (assign_temporary p x) (fun _ => True).
Proof.
  unfold assign_temporary.
  repeat (eapply mem_only_bind;
          [first [apply mem_only_read | apply mem_only_may_throw | apply mem_only_write]
          | intros ? _]).
  apply mem_only_log.
Qed.

Lemma mem_only_destroy_n n : forall p, mem_only (T := T) (destroy_n p n) (fun _ => True).
Proof.
  induction n as [|n IH]; intros p; cbn [destroy_n]; [by apply mem_only_ret|].
  eapply mem_only_bind; [apply mem_only_destroy_at | intros ? _; apply IH].
Qed.

Lemma mem_only_uninitialized_loop ctor n :
  (forall p q, mem_only (T := T) (ctor p q) (fun _ => True)) ->
  forall d done q, mem_only (T := T) (uninitialized_loop ctor d done q n) (fun _ => True).
Proof.
  intros Hctor. induction n as [|n IH]; intros d done q; cbn [uninitialized_loop];
    [by apply mem_only_ret|].
  eapply mem_only_bind; [| intros ? _; apply IH].
  apply mem_only_on_throw; [apply Hctor | apply mem_only_destroy_n].
Qed.

Lemma mem_only_copy_loop n : forall p q, mem_only (T := T) (copy_loop p n q) (fun _ => True).
Proof.
  induction n as [|n IH]; intros p q; cbn [copy_loop]; [by apply mem_only_ret|].
  eapply mem_only_bind; [apply mem_only_copy_assign | intros ? _; apply IH].
Qed.

Lemma mem_only_move_loop n : forall p q, mem_only (T := T) (move_loop p n q) (fun _ => True).
Proof.
  induction n as [|n IH]; intros p q; cbn [move_loop]; [by apply mem_only_ret|].
  eapply mem_only_bind; [apply mem_only_move_assign | intros ? _; apply IH].
Qed.

Lemma mem_only_move_backward_loop n :
  forall p q, mem_only (T := T) (move_backward_loop p n q) (fun _ => True).
Proof.
  induction n as [|n IH]; intros p q; cbn [move_backward_loop]; [by apply mem_only_ret|].
  eapply mem_only_bind; [apply mem_only_move_assign | intros ? _; apply IH].
Qed.

Lemma mem_only_range_length p q : mem_only (T := T) (range_length p q) (fun _ => True).
Proof.
  unfold range_length, distance.
  eapply mem_only_bind.
  - instantiate (1 := fun _ => True). case_decide; [by apply mem_only_ret|apply mem_only_fault].
  - intros d _. eapply mem_only_bind; [apply mem_only_assert|].
    intros ? _. by apply mem_only_ret.
Qed.

Lemma mem_only_uninitialized_copy_n p n q :
  mem_only (T := T) (uninitialized_copy_n p n q) (fun _ => True).
Proof. apply mem_only_uninitialized_loop, mem_only_copy_construct. Qed.

Lemma mem_only_uninitialized_move_n p n q :
  mem_only (T := T) (uninitialized_move_n p n q) (fun _ => True).
Proof. apply mem_only_uninitialized_loop, mem_only_move_construct. Qed.

Lemma mem_only_uninitialized_value_construct_n p n :
  mem_only (T := T) (uninitialized_value_construct_n p n) (fun _ => True).
Proof.
  apply mem_only_uninitialized_loop. intros ? ?. apply mem_only_value_construct.
Qed.

Lemma mem_only_uninitialized_copy p q d :
  mem_only (T := T) (uninitialized_copy p q d) (fun _ => True).
Proof.
  eapply mem_only_bind; [apply mem_only_range_length | intros ? _].
  apply mem_only_uninitialized_loop, mem_only_copy_construct.
Qed.

Lemma mem_only_uninitialized_move p q d :
  mem_only (T := T) (uninitialized_move p q d) (fun _ => True).
Proof.
  eapply mem_only_bind; [apply mem_only_range_length | intros ? _].
  apply mem_only_uninitialized_loop, mem_only_move_construct.
Qed.

Lemma mem_only_copy_n p n q : mem_only (T := T) (copy_n p n q) (fun _ => True).
Proof. apply mem_only_copy_loop. Qed.

Lemma mem_only_move p q d : mem_only (T := T) (move p q d) (fun _ => True).
Proof.
  eapply mem_only_bind; [apply mem_only_range_length | intros ? _].
  apply mem_only_move_loop.
Qed.

Lemma mem_only_move_backward p q d : mem_only (T := T) (move_backward p q d) (fun _ => True).
Proof.
  eapply mem_only_bind; [apply mem_only_range_length | intros ? _].
  apply mem_only_move_backward_loop.
Qed.

Lemma mem_only_relocate (b : bool) (m1 m2 : M T unit) :
  mem_only m1 (fun _ => True) -> mem_only m2 (fun _ => True) ->
  mem_only (T := T) (if b then m1 else m2) (fun _ => True).
Proof. by destruct b. Qed.

Lemma mem_only_seq (m1 m2 : M T unit) :
  mem_only m1 (fun _ => True) -> mem_only m2 (fun _ => True) ->
  mem_only (T := T) (m1 ;; m2) (fun _ => True).
Proof. intros H1 H2. eapply mem_only_bind; [exact H1|]. intros ? _. exact H2. Qed.
End Frame.

#[export] Hint Resolve mem_only_Deallocate mem_only_construct_at mem_only_destroy_n
  mem_only_move_construct mem_only_temporary mem_only_assign_temporary
  mem_only_uninitialized_copy_n mem_only_uninitialized_move_n
  mem_only_uninitialized_value_construct_n mem_only_uninitialized_copy
  mem_only_uninitialized_move mem_only_copy_n mem_only_move mem_only_move_backward
  mem_only_relocate mem_only_seq : mem_only.

(** Running the code of a member function on the objects: the operations
    on the heap are left folded, and stepped over with what [mem_only]
    says of them. *)
Ltac ounfold :=
  cbv beta iota delta
    [bind ret fault throw assert on_throw finally get_state put_state
     get_vec put_vec remove_vec get_size set_size get_raw set_raw remove_local
     RawMemory_default RawMemory_ctor RawMemory_dtor RawMemory_Swap RawMemory_move_ctor
     RawMemory_plus RawMemory_index GetAddress RawMemory_Capacity
     with_local Size Capacity begin end_ cbegin cend Vector_default
     MoveOrCopyDataAndReplace MoveOrCopyDataByPartAndReplace distance];
  cbn [heap vecs raws script trace data_ size_ buffer_ capacity_ base off].

Ltac fresh_key :=
  match goal with
  | H : ?m !! ?k = Some _ |- _ <> _ =>
      let E := fresh in
      intros E; first [rewrite E in H | rewrite <- E in H];
      rewrite fresh_None in H; discriminate H
  end.

Ltac olookup :=
  repeat first
    [ rewrite insert_insert_eq
    | rewrite lookup_insert_eq
    | rewrite lookup_delete_eq
    | rewrite lookup_insert_ne by first [congruence | fresh_key]
    | rewrite lookup_delete_ne by first [congruence | fresh_key]
    | match goal with
      | H : ?m !! ?k = _ |- context [?m !! ?k] => rewrite H
      end ].

Ltac orun := repeat (progress (ounfold; olookup)).

Ltac mem_step_with H st m :=
  generalize (H st);
  destruct (m st) as [? [? ? ? ? ?]|[? ? ? ? ?]|];
  cbn [vecs raws];
  [ intros (-> & -> & ?) | intros (-> & ->) | intros _ ].

Ltac mem_step :=
  match goal with
  | |- context [Allocate ?n ?st] =>
      mem_step_with (mem_only_Allocate n) st (Allocate n)
  | |- context [match ?m ?st with Ok _ _ => _ | Throw _ => _ | Fault => _ end] =>
      lazymatch st with State _ _ _ _ _ => idtac end;
      let H := fresh "Hm" in
      assert (mem_only m (fun _ => True)) as H by (eauto with mem_only);
      mem_step_with H st m; clear H
  end.

Ltac bool_hyps :=
  repeat match goal with
    | H : (_ =? _) = true |- _ => apply Z.eqb_eq in H
    | H : (_ =? _) = false |- _ => apply Z.eqb_neq in H
    | H : (_ <=? _) = true |- _ => apply Z.leb_le in H
    | H : (_ <=? _) = false |- _ => apply Z.leb_gt in H
    | H : (_ <? _) = true |- _ => apply Z.ltb_lt in H
    | H : (_ <? _) = false |- _ => apply Z.ltb_ge in H
    end.

Ltac split_if :=
  match goal with
  | |- context [if ?b then _ else _] =>
      lazymatch b with
      | context [if _ then _ else _] => fail
      | _ => destruct b eqn:?
      end
  end.

Ltac same_objects :=
  cbn [vecs raws];
  first
    [ reflexivity
    | apply delete_fresh_insert
    | rewrite ?delete_fresh_insert; symmetry; apply insert_id; eassumption
    | rewrite ?insert_insert_eq; reflexivity
    | rewrite delete_insert_eq; apply delete_id; assumption ].

Ltac leaf :=
  first [ exact I
        | eexists; split; [same_objects | split; [same_objects|]] ].

Ltac unwrap :=
  repeat match goal with
    | |- context [wrap ?z] => rewrite (wrap_small z) by lia
    | H : context [wrap ?z] |- _ => rewrite (wrap_small z) in H by lia
    end.

Ltac numbers :=
  unfold vector_ok, grows in *; cbn [data_ size_ capacity_ buffer_] in *;
  bool_hyps;
  pose proof sizeof_range;
  repeat match goal with
    | H : _ /\ _ |- _ => destruct H
    | H : _ \/ _ |- _ => destruct H
    end;
  repeat match goal with
    | H' : ?c * sizeof <= PTRDIFF_MAX |- _ =>
        lazymatch goal with
        | _ : c < 2 ^ 63 |- _ => fail
        | _ => let H := fresh in
               assert (0 <= c) as H by lia;
               pose proof (capacity_bound c H H')
        end
    end;
  unfold PTRDIFF_MAX in *; subst; unwrap; try lia.

Section Effects.
Context {T : Type} `{!Element T}.

Lemma EmplaceBack_effect this args (s : state T) v :
  vecs s !! this = Some v -> vector_ok v ->
  after (EmplaceBack this args) s
    (changes this s (fun v' =>
       vector_ok v' /\ grows (capacity_ (data_ v)) (capacity_ (data_ v')))).
Proof.
  destruct s as [h vs rs sc tr], v as [[buf cap] size]. cbn.
  intros Hv [Hsz Hcap]. cbn in Hsz, Hcap.
  unfold after, EmplaceBack. orun.
  repeat (first [mem_step | split_if]; orun).
  all: leaf.
  all: numbers.
Qed.

Lemma PopBack_effect this (s : state T) v :
  vecs s !! this = Some v -> vector_ok v ->
  after (PopBack this) s
    (changes this s (fun v' =>
       vector_ok v' /\ capacity_ (data_ v') = capacity_ (data_ v))).
Proof.
  destruct s as [h vs rs sc tr], v as [[buf cap] size]. cbn.
  intros Hv [Hsz Hcap]. cbn in Hsz, Hcap.
  unfold after, PopBack. orun.
  repeat (first [mem_step | split_if]; orun).
  all: leaf.
  all: numbers.
Qed.

Lemma Reserve_effect this n (s : state T) v :
  vecs s !! this = Some v -> vector_ok v ->
  0 <= n -> n * sizeof < 2 ^ 64 ->
  after (Reserve this n) s
    (changes this s (fun v' =>
       vector_ok v' /\ size_ v' = size_ v /\
       (capacity_ (data_ v') = capacity_ (data_ v) \/
        capacity_ (data_ v) < n /\ capacity_ (data_ v') = n))).
Proof.
  destruct s as [h vs rs sc tr], v as [[buf cap] size]. cbn.
  intros Hv [Hsz Hcap] Hn Hfit. cbn in Hsz, Hcap.
  unfold after, Reserve. orun.
  repeat (first [mem_step | split_if]; orun).
  all: leaf.
  all: numbers.
Qed.
Lemma Resize_effect this n (s : state T) v :
  vecs s !! this = Some v -> vector_ok v ->
  0 <= n -> n * sizeof < 2 ^ 64 ->
  after (Resize this n) s
    (changes this s (fun v' =>
       vector_ok v' /\ capacity_ (data_ v) <= capacity_ (data_ v'))).
Proof.
  destruct s as [h vs rs sc tr], v as [[buf cap] size]. cbn.
  intros Hv [Hsz Hcap] Hn Hfit. cbn in Hsz, Hcap.
  unfold after, Resize, Reserve. orun.
  repeat (first [mem_step | split_if]; orun).
  all: leaf.
  all: numbers.
Qed.

Lemma Emplace_effect this pos args (s : state T) v :
  vecs s !! this = Some v -> vector_ok v ->
  after (Emplace this pos args) s
    (changes this s (fun v' =>
       vector_ok v' /\ capacity_ (data_ v) <= capacity_ (data_ v'))).
Proof.
  destruct s as [h vs rs sc tr], v as [[buf cap] size]. cbn.
  intros Hv [Hsz Hcap]. cbn in Hsz, Hcap.
  unfold after, Emplace, EmplaceBack. orun.
  repeat (first [mem_step | split_if]; orun).
  all: leaf.
  all: numbers.
Qed.

Lemma Erase_effect this pos (s : state T) v :
  vecs s !! this = Some v -> vector_ok v ->
  after (Erase this pos) s
    (changes this s (fun v' =>
       vector_ok v' /\ capacity_ (data_ v) <= capacity_ (data_ v'))).
Proof.
  destruct s as [h vs rs sc tr], v as [[buf cap] size]. cbn.
  intros Hv [Hsz Hcap]. cbn in Hsz, Hcap.
  unfold after, Erase, PopBack. orun.
  repeat (first [mem_step | split_if]; orun).
  all: leaf.
  all: numbers.
Qed.
Lemma Vector_ctor_effect this n (s : state T) :
  vecs s !! this = None -> 0 <= n -> n * sizeof < 2 ^ 64 ->
  after (Vector_ctor this n) s (creates this s vector_ok).
Proof.
  destruct s as [h vs rs sc tr]. cbn. intros Hv Hn Hfit.
  unfold after, Vector_ctor. orun.
  repeat (first [mem_step | split_if]; orun).
  all: try exact I.
  all: split; [same_objects|].
  all: first [ left; by same_objects | right; eexists; split; [same_objects|] ].
  all: numbers.
Qed.

Lemma Vector_copy_ctor_effect this other (s : state T) w :
  vecs s !! this = None -> vecs s !! other = Some w -> vector_ok w ->
  after (Vector_copy_ctor this other) s
    (creates this s (fun v' => vector_ok v' /\ capacity_ (data_ v') = size_ w)).
Proof.
  destruct s as [h vs rs sc tr], w as [[buf cap] size]. cbn. intros Hv Hw [Hsz Hcap].
  cbn in Hsz, Hcap.
  assert (other <> this) by congruence.
  assert (size * sizeof <= cap * sizeof) by (pose proof sizeof_range; nia).
  unfold after, Vector_copy_ctor. orun.
  repeat (first [mem_step | split_if]; orun).
  all: try exact I.
  all: split; [same_objects|].
  all: first [ left; by same_objects | right; eexists; split; [same_objects|] ].
  all: numbers.
Qed.

Lemma Vector_copy_assign_effect this rhs (s : state T) v w :
  vecs s !! this = Some v -> vector_ok v ->
  vecs s !! rhs = Some w -> vector_ok w ->
  after (Vector_copy_assign this rhs) s
    (changes this s (fun v' =>
       vector_ok v' /\ capacity_ (data_ v) <= capacity_ (data_ v'))).
Proof.
  destruct s as [h vs rs sc tr], v as [[buf cap] size], w as [[bufw capw] sizew]. cbn.
  intros Hv [Hsz Hcap] Hw [Hszw Hcapw]. cbn in Hsz, Hcap, Hszw, Hcapw.
  assert (sizew * sizeof <= capw * sizeof) by (pose proof sizeof_range; nia).
  unfold after, Vector_copy_assign.
  destruct (decide (this <> rhs)) as [Hne|Heq]; [|cbn; leaf; numbers].
  orun. destruct (cap <? sizew) eqn:Hlt.
  - unfold with_local_vector, Vector_copy_ctor. orun.
    mem_step; orun; [ | leaf; numbers | exact I ].
    mem_step; orun.
    + erewrite (Swap_distinct _ this (fresh (dom vs)));
        [ | fresh_key | cbn; olookup; reflexivity | cbn; olookup; reflexivity ].
      unfold Vector_dtor. orun.
      repeat (mem_step; orun).
      all: try exact I.
      all: eexists; split; [|split; [same_objects|]].
      all: try (cbn [vecs]; rewrite delete_insert_eq, delete_insert_ne by fresh_key;
                rewrite delete_fresh_insert; reflexivity).
      all: numbers.
    + repeat (mem_step; orun).
      all: leaf; numbers.
    + exact I.
  - orun.
    repeat (first [mem_step | split_if]; orun).
    all: leaf.
    all: numbers.
Qed.

(** What the exchange of the members of two vectors gives. *)
Lemma Swap_effect this other (s : state T) :
  match vecs s !! this, vecs s !! other with
  | Some a, Some b =>
      Swap this other s =
        Ok tt (State (heap s) (<[other := a]> (<[this := b]> (vecs s)))
                 (raws s) (script s) (trace s))
  | _, _ => Swap this other s = Fault
  end.
Proof.
  destruct s as [h vs rs sc tr]. cbn.
  destruct (vs !! this) as [a|] eqn:Ha; [destruct (vs !! other) as [b|] eqn:Hb|].
  - destruct (decide (this = other)) as [->|Hne].
    + rewrite (Swap_self _ _ a) by done. do 2 f_equal.
      assert (a = b) as -> by congruence.
      rewrite insert_insert_eq. symmetry. by apply insert_id.
    + by erewrite Swap_distinct.
  - destruct a as [[bufa capa] na].
    assert (this <> other) by congruence. mrun. reflexivity.
  - mrun. reflexivity.
Qed.
End Effects.

(** ** From one vector to all of them *)

Section Invariant.
Context {T : Type} `{!Element T}.

Lemma after_weaken {A} (m : M T A) s (P Q : state T -> Prop) :
  after m s P -> (forall s', P s' -> Q s') -> after m s Q.
Proof. unfold after. destruct (m s); auto. Qed.

Lemma after_seq_ret {A} (m : M T A) s (P : state T -> Prop) :
  after m s P -> after (m ;; ret tt) s P.
Proof. unfold after, bind, ret. by destruct (m s). Qed.

Lemma vector_ok_default : vector_ok (mkVector (mkRawMemory None 0) 0).
Proof. split; cbn; unfold PTRDIFF_MAX; lia. Qed.

Lemma changes_all_ok this (s s' : state T) P :
  all_ok s -> changes this s P s' -> (forall v', P v' -> vector_ok v') -> all_ok s'.
Proof.
  intros Hall (v' & Hvs & _ & HP) Hok r w. rewrite Hvs.
  destruct (decide (r = this)) as [->|Hne].
  - rewrite lookup_insert_eq. intros [= <-]. auto.
  - rewrite lookup_insert_ne by done. apply Hall.
Qed.

Lemma changes_kept this (s s' : state T) P v :
  vecs s !! this = Some v -> changes this s P s' ->
  (forall v', P v' -> capacity_ (data_ v) <= capacity_ (data_ v')) ->
  capacities_kept s s'.
Proof.
  intros Hv (v' & Hvs & _ & HP) Hcap r w Hw. rewrite Hvs.
  destruct (decide (r = this)) as [->|Hne].
  - rewrite lookup_insert_eq. exists v'. split; [done|].
    assert (w = v) as -> by congruence. auto.
  - rewrite lookup_insert_ne by done. exists w. split; [done|lia].
Qed.

Lemma creates_all_ok this (s s' : state T) P :
  all_ok s -> creates this s P s' -> (forall v', P v' -> vector_ok v') -> all_ok s'.
Proof.
  intros Hall (_ & [Hvs|(v' & Hvs & HP)]) Hok r w; rewrite Hvs; [apply Hall|].
  destruct (decide (r = this)) as [->|Hne].
  - rewrite lookup_insert_eq. intros [= <-]. auto.
  - rewrite lookup_insert_ne by done. apply Hall.
Qed.

Lemma creates_kept this (s s' : state T) P :
  vecs s !! this = None -> creates this s P s' -> capacities_kept s s'.
Proof.
  intros Hv (_ & [Hvs|(v' & Hvs & HP)]) r w Hw; rewrite Hvs.
  - exists w. split; [done|lia].
  - rewrite lookup_insert_ne by congruence. exists w. split; [done|lia].
Qed.

(** One call of [PushBack] or [PopBack]. *)
Lemma back_op_effect this o (s : state T) v :
  vecs s !! this = Some v -> vector_ok v ->
  after (run_back_op this o) s
    (changes this s (fun v' =>
       vector_ok v' /\ grows (capacity_ (data_ v)) (capacity_ (data_ v')))).
Proof.
  intros Hv Hok. destruct o as [value|]; cbn [run_back_op].
  - apply after_seq_ret. by apply EmplaceBack_effect.
  - eapply after_weaken; [by apply PopBack_effect|].
    intros s' (v' & ? & ? & ? & Hc). exists v'.
    split; [done|split; [done|split; [done|]]]. by left.
Qed.

Lemma grows_le c c' : 0 <= c -> grows c c' -> c <= c'.
Proof. unfold grows. lia. Qed.

Lemma size_within_intro this (s : state T) v :
  vecs s !! this = Some v -> vector_ok v -> size_within this s.
Proof.
  intros Hv [Hsz _]. exists (size_ v), (capacity_ (data_ v)).
  unfold size_of, capacity_of. rewrite Hv. done.
Qed.

(** The members of [a] and [b] exchanged. *)
Lemma exchanged_ok a b va vb (s : state T) :
  all_ok s -> vecs s !! a = Some va -> vecs s !! b = Some vb ->
  let s' := State (heap s) (<[b := va]> (<[a := vb]> (vecs s)))
                  (raws s) (script s) (trace s) in
  all_ok s' /\
  capacity_of s' a = capacity_of s b /\
  capacity_of s' b = capacity_of s a /\
  forall r, r <> a -> r <> b -> capacity_of s' r = capacity_of s r.
Proof.
  intros Hall Ha Hb s'. unfold capacity_of, s'. cbn [vecs]. split_and!.
  - intros r w. cbn [vecs].
    destruct (decide (r = b)) as [->|Hrb];
      [rewrite lookup_insert_eq; intros [= <-]; by eapply Hall|].
    rewrite lookup_insert_ne by done.
    destruct (decide (r = a)) as [->|Hra];
      [rewrite lookup_insert_eq; intros [= <-]; by eapply Hall|].
    rewrite lookup_insert_ne by done. apply Hall.
  - destruct (decide (a = b)) as [->|Hne].
    + rewrite lookup_insert_eq. congruence.
    + rewrite lookup_insert_ne, lookup_insert_eq by done. by rewrite Hb.
  - rewrite lookup_insert_eq. by rewrite Ha.
  - intros r Hra Hrb. by rewrite !lookup_insert_ne by done.
Qed.
End Invariant.

(** ** Moves and self-assignment *)

Section Moves.
Context {T : Type} `{!Element T}.

(** Move construction of a [RawMemory] leaves the source empty and gives
    the new object what the source had. *)
Lemma RawMemory_move_ctor_spec (s : state T) l other m :
  Local l <> other -> get_raw other s = Ok m s ->
  exists s', RawMemory_move_ctor (Local l) other s = Ok tt s' /\
    get_raw (Local l) s' = Ok m s' /\
    get_raw other s' = Ok (mkRawMemory None 0) s'.
Proof.
  intros Hne Hm. destruct other as [v|l'].
  - revert Hm. mrun. destruct (vecs s !! v) as [x|] eqn:Hx; [|done].
    intros [= <-]. mrun. eexists. split; [done|]. by mrun.
  - revert Hm. mrun. destruct (raws s !! l') as [x|] eqn:Hx; [|done].
    intros [= <-]. mrun. eexists. split; [done|]. by mrun.
Qed.

(** Move assignment to an object that owns a block deletes the block and
    then hands its address and capacity to the source. *)
Lemma RawMemory_move_assign_owning (s : state T) l r a cap blk m :
  l <> r ->
  raws s !! l = Some (mkRawMemory (Some a) cap) ->
  raws s !! r = Some m ->
  heap s !! a = Some blk ->
  exists s', RawMemory_move_assign (Local l) (Local r) s = Ok tt s' /\
    raws s' !! l = Some m /\
    raws s' !! r = Some (mkRawMemory (Some a) cap) /\
    heap s' !! a = None.
Proof.
  intros Hne Hl Hr Ha. mrun. eexists. split; [done|]. cbn. by mlookup.
Qed.

(** C7: move construction of a Vector never fails; the new object has the
    buffer, capacity, size and elements the source had, and the source is
    left with size 0 and capacity 0. *)
Theorem Vector_move_ctor_spec (s : state T) this other buf cap xs :
  this <> other ->
  is_vector s other buf cap xs ->
  let s' :=
    State (heap s)
      (<[other := mkVector (mkRawMemory None 0) 0]>
         (<[this := mkVector (mkRawMemory buf cap) (Z.of_nat (length xs))]> (vecs s)))
      (raws s) (script s) (trace s) in
  Vector_move_ctor this other s = Ok tt s' /\
  is_vector s' this buf cap xs /\
  is_vector s' other None 0 [].
Proof.
  intros Hne (Hv & Hle & Hfit & Hblk). cbn zeta.
  split; [|split].
  - unfold Vector_move_ctor, Vector_default, bind at 1, put_vec.
    erewrite Swap_distinct; cbn; [| done | by mlookup | by mlookup ].
    by mlookup.
  - repeat split; cbn; try done. by mlookup.
  - apply is_vector_empty. cbn. by mlookup.
Qed.

(** C10: assigning a Vector to itself, by copy or by move, changes
    nothing: the guard [this != &rhs] skips the whole body. *)
Theorem self_assignment_noop (s : state T) (v : nat) :
  Vector_copy_assign v v s = Ok tt s /\ Vector_move_assign v v s = Ok tt s.
Proof.
  unfold Vector_copy_assign, Vector_move_assign.
  destruct (decide (v <> v)) as [Hne|_]; [by destruct Hne|done].
Qed.
End Moves.

Lemma two_ints_is_vector : is_vector two_ints 0 (Some 0%nat) 2 [1; 2].
Proof. repeat split; cbn; unfold PTRDIFF_MAX; lia. Defined.

Lemma Vector_move_ctor_witness :
  Vector_move_ctor 1 0 two_ints =
    Ok tt (State (heap two_ints)
             (<[0%nat := mkVector (mkRawMemory None 0) 0]>
                (<[1%nat := mkVector (mkRawMemory (Some 0%nat) 2) 2]> (vecs two_ints)))
             ∅ [] []) /\
  is_vector (State (heap two_ints)
             (<[0%nat := mkVector (mkRawMemory None 0) 0]>
                (<[1%nat := mkVector (mkRawMemory (Some 0%nat) 2) 2]> (vecs two_ints)))
             ∅ [] []) 1 (Some 0%nat) 2 [1; 2] /\
  is_vector (State (heap two_ints)
             (<[0%nat := mkVector (mkRawMemory None 0) 0]>
                (<[1%nat := mkVector (mkRawMemory (Some 0%nat) 2) 2]> (vecs two_ints)))
             ∅ [] []) 0 None 0 [].
Proof.
  apply (Vector_move_ctor_spec two_ints 1 0 (Some 0%nat) 2 [1; 2]);
    [ lia | exact two_ints_is_vector ].
Defined.

(** C2, where the code departs from it: after [dst = std::move(src)] with
    a [dst] that owned a block, [src] is not empty.  It has the capacity
    [dst] had and the address of the block that the assignment deleted, so
    that the destructor of [src] deletes that block a second time. *)
Theorem RawMemory_move_assign_source_not_empty :
  exists s,
    move_assign_nonempty (initial []) = Ok tt s /\
    raws s !! 0%nat = Some (mkRawMemory (Some 1%nat) 3) /\
    raws s !! 1%nat = Some (mkRawMemory (Some 0%nat) 2) /\
    heap s !! 0%nat = None /\
    RawMemory_dtor (Local 1) s = Fault.
Proof.
  eexists. split; [vm_compute; reflexivity|]. repeat split.
Qed.

(** ** Claims about [PushBack] and [EmplaceBack] *)

Section EmplaceBackClaims.
Context {T : Type} `{!Element T}.

(** C9: EmplaceBack on a vector of size n returns a reference to the new
    element: afterwards the size is n+1, the element at index n is the
    value built from the arguments, and the reference returned is the one
    that operator[] gives for index n. *)
Theorem EmplaceBack_returns_new_element (s : state T) this buf cap xs args x :
  is_vector s this buf cap xs ->
  script s = [] ->
  arg_value (heap s) args = Some x ->
  (Z.of_nat (length xs) = cap -> grown cap * sizeof <= PTRDIFF_MAX) ->
  exists p s' buf' cap',
    EmplaceBack this args s = Ok p s' /\
    is_vector s' this buf' cap' (xs ++ [x]) /\
    p = Ptr buf' (Z.of_nat (length xs)) /\
    peek (heap s') p = Some x /\
    Vector_index this (Z.of_nat (length xs)) s' = Ok p s'.
Proof.
  intros Hv Hsc Hx Hgrow.
  destruct (EmplaceBack_ok s this buf cap xs args x Hv Hsc Hx Hgrow)
    as (p & s' & buf' & cap' & ? & ? & ? & ? & ? & _).
  by exists p, s', buf', cap'.
Qed.
(** C3: on a full vector EmplaceBack acquires the larger region and then,
    before anything else, constructs the new element in its tail slot.
    If that construction throws, EmplaceBack throws and leaves the heap
    and every object as they were, so the vector has the size, capacity
    and elements it had.  If nothing throws, the log shows the
    construction before the relocation of the existing elements. *)
Theorem EmplaceBack_constructs_first (s : state T) this buf cap xs args :
  is_vector s this buf cap xs ->
  Z.of_nat (length xs) = cap ->
  grown cap * sizeof <= PTRDIFF_MAX ->
  let a' := fresh (dom (heap s)) in
  let tail_slot := Ptr (Some a') cap in
  (forall sc' s2,
     script s = false :: sc' ->
     construct_at tail_slot args
       (State (<[a' := replicate (Z.to_nat (grown cap)) None]> (heap s)) (vecs s)
          (<[fresh (dom (raws s)) := mkRawMemory (Some a') (grown cap)]> (raws s))
          sc' (trace s ++ [EvNew a' (grown cap * sizeof)])) = Throw s2 ->
     let s' := State (heap s) (vecs s) (raws s) (script s2)
                 (trace s ++ [EvNew a' (grown cap * sizeof); EvDelete a']) in
     EmplaceBack this args s = Throw s' /\ is_vector s' this buf cap xs) /\
  (forall x,
     script s = [] ->
     arg_value (heap s) args = Some x ->
     exists p s',
       EmplaceBack this args s = Ok p s' /\
       trace s' =
         trace s ++ [EvNew a' (grown cap * sizeof); arg_event tail_slot args]
           ++ loop_events EvRelocate (Ptr (Some a') 0) (Ptr buf 0) (length xs)
           ++ destroy_events (Ptr buf 0) (length xs)
           ++ release_events buf).
Proof.
  intros (Hv & Hle & Hfit & Hbuf) Heq Hgrow a' tail_slot.
  destruct s as [h vs rs sc tr]. cbn in Hv, Hbuf, a' |- *. subst cap.
  set (cap := Z.of_nat (length xs)) in *.
  assert (cap < 2 ^ 63) as Hcap by (apply capacity_bound; [lia|done]).
  pose proof (grown_cases cap ltac:(lia)) as Hg.
  assert (cap < grown cap) as Hlt by lia.
  split.
  - intros sc' s2 -> Hthrow.
    destruct (construct_at_Throw _ _ _ _ _ _ _ _ Hthrow) as (sc2 & ->).
    split.
    + unfold EmplaceBack. mrun. unfold RawMemory_ctor.
      change (if cap =? 0 then 1 else wrap (cap * 2)) with (grown cap).
      rewrite Allocate_spec by (done || lia). fold a'. mrun.
      match goal with
      | |- context [construct_at ?p ?a ?st] =>
          replace (construct_at p a st) with
            (Throw (A := unit)
               (State (<[a' := replicate (Z.to_nat (grown cap)) None]> h) vs
                  (<[fresh (dom rs) := mkRawMemory (Some a') (grown cap)]> rs) sc2
                  (tr ++ [EvNew a' (grown cap * sizeof)])))
            by (symmetry; exact Hthrow)
      end.
      mrun.
      rewrite delete_fresh_insert, <- app_assoc.
      rewrite delete_insert_eq, delete_id by apply fresh_block_None.
      reflexivity.
    + by repeat split.
  - intros x -> Hx. eexists _, _. split.
    + apply EmplaceBack_full; try done. destruct buf; [by destruct Hbuf|done].
    + reflexivity.
Qed.
End EmplaceBackClaims.

Lemma EmplaceBack_returns_new_element_witness :
  exists p s' buf' cap',
    EmplaceBack 0 (Forward 3) two_ints = Ok p s' /\
    is_vector s' 0 buf' cap' ([1; 2] ++ [3]) /\
    p = Ptr buf' 2 /\
    peek (heap s') p = Some 3 /\
    Vector_index 0 2 s' = Ok p s'.
Proof.
  apply (EmplaceBack_returns_new_element two_ints 0 (Some 0%nat) 2 [1; 2] (Forward 3) 3).
  - exact two_ints_is_vector.
  - reflexivity.
  - reflexivity.
  - intros _. vm_compute. discriminate.
Defined.

(** A full vector of [int] and a script on which the allocation succeeds
    and the construction of the new element throws. *)
Lemma EmplaceBack_constructs_first_witness :
  EmplaceBack 0 (Forward 3)
    (State (heap two_ints) (vecs two_ints) ∅ [false; true] []) =
  Throw (State (heap two_ints) (vecs two_ints) ∅ [] [EvNew 1%nat 16; EvDelete 1%nat]).
Proof.
  pose proof (EmplaceBack_constructs_first
                (State (heap two_ints) (vecs two_ints) ∅ [false; true] [])
                0 (Some 0%nat) 2 [1; 2] (Forward 3)) as H.
  lapply H; [clear H; intros H | exact two_ints_is_vector].
  lapply H; [clear H; intros H | reflexivity].
  lapply H; [clear H; intros H | vm_compute; discriminate].
  destruct H as [H _].
  exact (proj1 (H [true] _ eq_refl eq_refl)).
Defined.

(** ** Claims about [Insert], [Emplace] and [Erase] *)

Section InsertClaims.
Context {T : Type} `{!Element T}.

(** C8: Insert at any valid position, followed by Erase at the position
    that Insert returned, gives back the sequence of values the vector
    had; Erase returns that same position. *)
Theorem Insert_then_Erase (s : state T) this buf cap xs (k : nat) args x :
  is_vector s this buf cap xs ->
  script s = [] ->
  (k <= length xs)%nat ->
  arg_value (heap s) args = Some x ->
  (Z.of_nat (length xs) = cap -> grown cap * sizeof <= PTRDIFF_MAX) ->
  exists p s1 q s2 buf' cap',
    Insert this (Ptr buf (Z.of_nat k)) args s = Ok p s1 /\
    Erase this p s1 = Ok q s2 /\
    is_vector s2 this buf' cap' xs /\
    q = p.
Proof.
  intros Hvec Hsc Hk Hx Hgrow.
  destruct (Emplace_ok s this buf cap xs k args x Hvec Hsc Hk Hx Hgrow)
    as (p & s1 & buf' & cap' & x' & Hins & Hvec1 & -> & Hsc1 & _).
  destruct (Erase_ok s1 this buf' cap' (take k xs) x' (drop k xs) Hvec1 Hsc1)
    as (s2 & Hers & Hvec2 & _).
  rewrite length_take, Nat.min_l in Hers by done. rewrite take_drop in Hvec2.
  by exists (Ptr buf' (Z.of_nat k)), s1, (Ptr buf' (Z.of_nat k)), s2, buf', cap'.
Qed.

(** Insert of a value, or of a reference to an object outside the vector,
    before the end: the elements before the position stay, the value sits
    at the position, the elements from the position on follow it, and the
    iterator returned designates the position. *)
Lemma Insert_of_outside_value (s : state T) this buf cap xs (k : nat) args x :
  is_vector s this buf cap xs ->
  script s = [] ->
  (k < length xs)%nat ->
  arg_value (heap s) args = Some x ->
  outside buf args ->
  (Z.of_nat (length xs) = cap -> grown cap * sizeof <= PTRDIFF_MAX) ->
  exists p s' buf' cap',
    Insert this (Ptr buf (Z.of_nat k)) args s = Ok p s' /\
    is_vector s' this buf' cap' (take k xs ++ x :: drop k xs) /\
    p = Ptr buf' (Z.of_nat k).
Proof.
  intros Hvec Hsc Hk Hx Hout Hgrow.
  destruct (Emplace_ok s this buf cap xs k args x Hvec Hsc ltac:(lia) Hx Hgrow)
    as (p & s1 & buf' & cap' & x' & Hins & Hvec1 & -> & Hsc1 & Hx').
  rewrite Hx' in Hvec1 by (by left).
  by exists (Ptr buf' (Z.of_nat k)), s1, buf', cap'.
Qed.
End InsertClaims.

Lemma Insert_then_Erase_witness :
  exists p s1 q s2 buf' cap',
    Insert 0 (Ptr (Some 0%nat) 1) (Forward 5) two_ints = Ok p s1 /\
    Erase 0 p s1 = Ok q s2 /\
    is_vector s2 0 buf' cap' [1; 2] /\
    q = p.
Proof.
  apply (Insert_then_Erase two_ints 0 (Some 0%nat) 2 [1; 2] 1 (Forward 5) 5).
  - exact two_ints_is_vector.
  - reflexivity.
  - cbn. lia.
  - reflexivity.
  - intros _. vm_compute. discriminate.
Defined.

(** C5, where the code departs from it.  Insert of a reference to an
    element of the vector itself, into spare capacity: the elements are
    shifted before the reference is read, so that the value inserted at the
    front of 1, 2, 3 for [v[2]] is 2, not 3.  When the vector is full the
    new element is constructed before anything moves, and the value
    inserted at the front of 1, 2, 3, 4 for [v[3]] is 4. *)
Theorem Insert_of_own_element :
  (exists p s,
     insert_own_element_spare (initial []) = Ok p s /\
     is_vector s 0 (base p) 4 [2; 1; 2; 3]) /\
  (exists p s,
     insert_own_element_full (initial []) = Ok p s /\
     is_vector s 0 (base p) 8 [4; 1; 2; 3; 4]).
Proof.
  split; eexists _, _; (split; [vm_compute; reflexivity|]);
    repeat split; try (cbn; unfold PTRDIFF_MAX; lia); vm_compute; reflexivity.
Qed.

(** ** Claims about copy assignment *)

Section CopyClaims.
Context {T : Type} `{!Element T}.

(** C6: copy assignment [a = b] between two different vectors.  When
    nothing throws, [a] ends with the size and the elements of [b], and
    with its own buffer and capacity if the size of [b] fits in them.  When
    the size of [b] exceeds the capacity of [a], the assignment either
    returns, with [a] holding the copies in a new block, or it throws from
    the construction of the temporary copy, and then the heap and every
    object, [a] among them, are exactly as before. *)
Theorem Vector_copy_assign_spec (s : state T) a b bufa capa xs bufb capb ys :
  a <> b ->
  is_vector s a bufa capa xs ->
  is_vector s b bufb capb ys ->
  bufa <> bufb \/ bufa = None ->
  (script s = [] ->
   exists s' bufa' capa',
     Vector_copy_assign a b s = Ok tt s' /\
     is_vector s' a bufa' capa' ys /\
     is_vector s' b bufb capb ys /\
     (Z.of_nat (length ys) <= capa -> bufa' = bufa /\ capa' = capa)) /\
  (capa < Z.of_nat (length ys) ->
   match Vector_copy_assign a b s with
   | Ok _ s' =>
       is_vector s' a (Some (fresh (dom (heap s)))) (Z.of_nat (length ys)) ys /\
       is_vector s' b bufb capb ys
   | Throw s' =>
       heap s' = heap s /\ vecs s' = vecs s /\ raws s' = raws s /\
       is_vector s' a bufa capa xs
   | Fault => False
   end).
Proof.
  intros Hab (Ha & Hlea & Hfita & Hbufa) (Hb & Hleb & Hfitb & Hbufb) Hdisj.
  destruct s as [h vs rs sc tr]. cbn [heap vecs raws script] in *.
  assert (capa < 2 ^ 63) as Hcapa by (apply capacity_bound; [lia|done]).
  assert (match bufa with
          | Some a0 => h !! a0 = Some (block_of xs capa)
          | None => xs = []
          end) as Hbufa'.
  { destruct bufa; [by destruct Hbufa|]. apply length_zero_iff_nil. lia. }
  assert (match bufb with
          | Some b0 => h !! b0 = Some (block_of ys capb)
          | None => ys = []
          end) as Hbufb'.
  { destruct bufb; [by destruct Hbufb|]. apply length_zero_iff_nil. lia. }
  assert (capa < Z.of_nat (length ys) ->
          match Vector_copy_assign a b (State h vs rs sc tr) with
          | Ok _ s' =>
              (is_vector s' a (Some (fresh (dom h))) (Z.of_nat (length ys)) ys /\
               is_vector s' b bufb capb ys) /\ (sc = [] -> script s' = [])
          | Throw s' =>
              (heap s' = h /\ vecs s' = vs /\ raws s' = rs /\
               is_vector s' a bufa capa xs) /\ sc <> []
          | Fault => False
          end) as Hgrow.
  { intros Hlt.
    pose proof (Vector_copy_assign_grow h vs rs sc tr a b bufa capa xs bufb capb ys
                  Hab Ha Hbufa' Hb Hbufb' Hleb Hfitb ltac:(lia)) as Hrun.
    destruct (Vector_copy_assign a b _) as [[] s'|s'|]; [| |done].
    - destruct Hrun as (sc' & tr' & -> & Hsc). split; [|exact Hsc].
      assert (ys <> []) as Hys by (intros ->; cbn in Hlt; lia).
      destruct bufb as [b0|]; [|done]. destruct Hbufb as (Hposb & Hb0).
      assert (b0 <> fresh (dom h)) as Hb0'.
      { intros E. pose proof (fresh_block_None h) as Hf. congruence. }
      assert (Z.of_nat (length ys) * sizeof <= PTRDIFF_MAX) as Hfit'.
      { pose proof sizeof_range. unfold PTRDIFF_MAX in *. nia. }
      split.
      + eapply is_vector_intro; cbn; mlookup; try done.
        split; [lia|]. rewrite block_of_full, app_nil_r by done.
        destruct bufa as [a0|]; cbn [release]; [|by mlookup].
        rewrite lookup_delete_ne, lookup_insert_eq; [done|].
        intros ->. pose proof (fresh_block_None h) as Hf. destruct Hbufa. congruence.
      + eapply is_vector_intro; cbn; mlookup; try done.
        split; [done|].
        destruct bufa as [a0|]; cbn [release]; [|by mlookup].
        rewrite lookup_delete_ne by (destruct Hdisj; congruence). by mlookup.
    - destruct Hrun as (Hh & Hv & Hr & Hsc). split; [|done].
      destruct s' as [h' vs' rs' sc' tr']. cbn in Hh, Hv, Hr. subst.
      unfold is_vector. cbn. by split_and!. }
  split.
  - intros ->. destruct (decide (Z.of_nat (length ys) <= capa)) as [Hfits|Hlt].
    + destruct (Vector_copy_assign_fit h vs rs tr a b bufa capa xs bufb capb ys)
        as (tr' & Hrun); try done; [by destruct bufa as [a0|]; [destruct Hbufa|] | lia |].
      eexists _, bufa, capa. split; [exact Hrun|]. split; [|split; [|done]].
      * eapply is_vector_intro; cbn; mlookup; try done.
        destruct bufa as [a0|]; [|done]. destruct Hbufa. split; [done|by mlookup].
      * eapply is_vector_intro; cbn; mlookup; try done.
        destruct bufb as [b0|]; [|done]. destruct Hbufb as (? & Hb0). split; [done|].
        destruct bufa as [a0|]; [|done].
        rewrite lookup_insert_ne by (destruct Hdisj; congruence). done.
    + specialize (Hgrow ltac:(lia)).
      destruct (Vector_copy_assign a b _) as [[] s'|s'|]; [| |done].
      * destruct Hgrow as ((Hva & Hvb) & _).
        eexists s', _, _. split; [done|]. split; [exact Hva|]. split; [exact Hvb|]. lia.
      * by destruct Hgrow as (_ & ?).
  - intros Hlt. specialize (Hgrow Hlt).
    destruct (Vector_copy_assign a b _) as [[] s'|s'|]; [| |done].
    + by destruct Hgrow.
    + by destruct Hgrow.
Qed.
End CopyClaims.

Lemma two_vectors_first sc : is_vector (two_vectors sc) 0 (Some 0%nat) 2 [1; 2].
Proof. repeat split; cbn; unfold PTRDIFF_MAX; lia. Defined.

Lemma two_vectors_second sc : is_vector (two_vectors sc) 1 (Some 1%nat) 4 [7; 8; 9].
Proof. repeat split; cbn; unfold PTRDIFF_MAX; lia. Defined.

Lemma Vector_copy_assign_witness :
  exists s' bufa' capa',
    Vector_copy_assign 0 1 (two_vectors []) = Ok tt s' /\
    is_vector s' 0 bufa' capa' [7; 8; 9] /\
    is_vector s' 1 (Some 1%nat) 4 [7; 8; 9] /\
    (3 <= 2 -> bufa' = Some 0%nat /\ capa' = 2).
Proof.
  apply (proj1 (Vector_copy_assign_spec (two_vectors []) 0 1 (Some 0%nat) 2 [1; 2]
                  (Some 1%nat) 4 [7; 8; 9] ltac:(lia) (two_vectors_first [])
                  (two_vectors_second []) ltac:(left; congruence))).
  reflexivity.
Defined.

(** ** The invariant of a vector, and its capacity *)

Section InvariantClaims.
Context {T : Type} `{!Element T}.

(** C4: along any sequence of [PushBack] and [PopBack] calls on a vector
    whose members are in order, in the state before the first call and in
    the state after each call (whether it returned or threw) the size is
    between 0 and the capacity; and from each of these states to the next
    the capacity does not decrease: it stays, or goes from 0 to 1, or
    doubles. *)
Theorem PushBack_PopBack_invariant this ops : forall (s : state T) v,
  vecs s !! this = Some v -> vector_ok v ->
  Forall (size_within this) (s :: observe this ops s) /\
  forall i s1 s2,
    (s :: observe this ops s) !! i = Some s1 ->
    (s :: observe this ops s) !! S i = Some s2 ->
    capacity_step this s1 s2.
Proof.
  induction ops as [|o ops IH]; intros s v Hv Hok.
  { cbn [observe]. split.
    - constructor; [by eapply size_within_intro|constructor].
    - intros i s1 s2 _ H2. by destruct i. }
  cbn [observe]. pose proof (back_op_effect this o s v Hv Hok) as He.
  unfold after in He.
  assert (forall s1, changes this s
            (fun v' => vector_ok v' /\ grows (capacity_ (data_ v)) (capacity_ (data_ v'))) s1 ->
          Forall (size_within this) (s :: s1 :: observe this ops s1) /\
          forall i sa sb,
            (s :: s1 :: observe this ops s1) !! i = Some sa ->
            (s :: s1 :: observe this ops s1) !! S i = Some sb ->
            capacity_step this sa sb) as Hstep.
  { intros s1 (v' & Hvs & _ & Hok' & Hg).
    assert (vecs s1 !! this = Some v') as Hv' by (rewrite Hvs; apply lookup_insert_eq).
    destruct (IH s1 v' Hv' Hok') as [IH1 IH2]. split.
    - constructor; [by eapply size_within_intro|done].
    - intros [|i] sa sb Ha Hb.
      + cbn in Ha, Hb. injection Ha as <-. injection Hb as <-.
        exists (capacity_ (data_ v)), (capacity_ (data_ v')).
        unfold capacity_of. rewrite Hv, Hv'. repeat split; try done.
        apply grows_le; [|done]. destruct Hok as [? _]. lia.
      + apply (IH2 i); done. }
  destruct (run_back_op this o s) as [a s1|s1|]; [by apply Hstep|by apply Hstep|].
  split.
  - constructor; [by eapply size_within_intro|constructor].
  - intros i s1 s2 _ H2. by destruct i.
Qed.

Ltac missing :=
  match goal with
  | s : state _ |- _ => destruct s; cbn in *; orun; exact I
  end.

(** C1, in the form that holds: every call of the interface, on arguments in range,
    leaves every vector with its size between 0 and its capacity (and its
    capacity one that a block can have), whether it returns or throws.
    [Swap] and the move assignment exchange the capacities of the two
    vectors and the move constructor leaves the source with capacity 0;
    after every other call no vector has a smaller capacity than before. *)
Theorem invariant_kept_by_every_call (c : call) (s : state T) :
  all_ok s -> call_ok s c ->
  after (run_call c) s (fun s' => all_ok s' /\ capacities_after c s s').
Proof.
  intros Hall Hc.
  destruct c as [this|this n|this other|this other|this rhs|this rhs|this other
                |this n|this n|this value|this|this pos value|this pos];
    cbn [run_call call_ok capacities_after] in *.
  - (* Vector() *)
    unfold after, Vector_default, put_vec. split.
    + intros r w. cbn. destruct (decide (r = this)) as [->|Hne].
      * rewrite lookup_insert_eq. intros [= <-]. apply vector_ok_default.
      * rewrite lookup_insert_ne by done. apply Hall.
    + intros r w Hw. cbn. rewrite lookup_insert_ne by congruence.
      exists w. split; [done|lia].
  - (* Vector(size) *)
    destruct Hc as (Hv & Hn & Hfit).
    eapply after_weaken; [by apply Vector_ctor_effect|].
    intros s' Hs'. split; [by eapply creates_all_ok|by eapply creates_kept].
  - (* Vector(const Vector&) *)
    destruct Hc as [Hv Hne]. destruct (vecs s !! other) as [w|] eqn:Hw.
    + eapply after_weaken; [eapply Vector_copy_ctor_effect; eauto|].
      intros s' Hs'. split; [|by eapply creates_kept].
      eapply creates_all_ok; [done|done|]. by intros ? [? _].
    + unfold after, Vector_copy_ctor. missing.
  - (* Vector(Vector&&) *)
    destruct Hc as [Hv Hne]. unfold after, Vector_move_ctor, bind, Vector_default, put_vec.
    match goal with |- context [Swap this other ?st] =>
      pose proof (Swap_effect this other st) as Hs;
      pose proof (exchanged_ok this other (mkVector (mkRawMemory None 0) 0)) as Hx;
      specialize (fun vb H1 H2 H3 => Hx vb st H1 H2 H3)
    end.
    cbn [vecs heap raws script trace] in Hs, Hx.
    rewrite lookup_insert_eq, lookup_insert_ne in Hs by done.
    destruct (vecs s !! other) as [b|] eqn:Hb; rewrite Hs; [|exact I].
    destruct (Hx b) as (Hok & Ha' & Hb' & Hr).
    + intros r w. cbn. destruct (decide (r = this)) as [->|Hr].
      * rewrite lookup_insert_eq. intros [= <-]. apply vector_ok_default.
      * rewrite lookup_insert_ne by done. apply Hall.
    + apply lookup_insert_eq.
    + by rewrite lookup_insert_ne.
    + split; [done|]. clear Ha' Hb' Hr. unfold capacity_of. cbn. split_and!.
      * rewrite lookup_insert_ne by done. by rewrite lookup_insert_eq, Hb.
      * by rewrite lookup_insert_eq.
      * intros r Hra Hrb. by rewrite !lookup_insert_ne by done.
  - (* operator=(const Vector&) *)
    destruct (decide (this = rhs)) as [->|Hne].
    { unfold after, Vector_copy_assign. rewrite decide_False by (intros ?; done).
      cbn. split; [done|]. intros r w Hw. exists w. split; [done|lia]. }
    destruct (vecs s !! rhs) as [w|] eqn:Hw;
      [destruct (vecs s !! this) as [v|] eqn:Hv|].
    + eapply after_weaken; [eapply Vector_copy_assign_effect; eauto|].
      intros s' Hs'. split.
      * eapply changes_all_ok; [done|done|]. by intros ? [? _].
      * eapply changes_kept; [done|done|]. by intros ? [_ ?].
    + unfold after, Vector_copy_assign. rewrite decide_True by done. missing.
    + unfold after, Vector_copy_assign. rewrite decide_True by done. missing.
  - (* operator=(Vector&&) *)
    unfold after, Vector_move_assign.
    destruct (decide (this <> rhs)) as [Hne|Heq].
    + pose proof (Swap_effect this rhs s) as Hs.
      destruct (vecs s !! this) as [a|] eqn:Ha;
        [destruct (vecs s !! rhs) as [b|] eqn:Hb|]; rewrite Hs; try exact I.
      by apply exchanged_ok.
    + assert (this = rhs) as -> by (destruct (decide (this = rhs)); [done|contradiction]).
      cbn. done.
  - (* Swap *)
    unfold after. pose proof (Swap_effect this other s) as Hs.
    destruct (vecs s !! this) as [a|] eqn:Ha;
      [destruct (vecs s !! other) as [b|] eqn:Hb|]; rewrite Hs; try exact I.
    by apply exchanged_ok.
  - (* Reserve *)
    destruct Hc as [Hn Hfit]. destruct (vecs s !! this) as [v|] eqn:Hv.
    + eapply after_weaken; [eapply Reserve_effect; eauto|].
      intros s' Hs'. split.
      * eapply changes_all_ok; [done|done|]. by intros ? [? _].
      * eapply changes_kept; [done|done|]. intros ? (_ & _ & ?). lia.
    + unfold after, Reserve. missing.
  - (* Resize *)
    destruct Hc as [Hn Hfit]. destruct (vecs s !! this) as [v|] eqn:Hv.
    + eapply after_weaken; [eapply Resize_effect; eauto|].
      intros s' Hs'. split.
      * eapply changes_all_ok; [done|done|]. by intros ? [? _].
      * eapply changes_kept; [done|done|]. by intros ? [_ ?].
    + unfold after, Resize. missing.
  - (* PushBack *)
    destruct (vecs s !! this) as [v|] eqn:Hv.
    + apply after_seq_ret.
      eapply after_weaken; [eapply EmplaceBack_effect; eauto|].
      intros s' Hs'. split.
      * eapply changes_all_ok; [done|done|]. by intros ? [? _].
      * eapply changes_kept; [done|done|]. intros ? [_ ?].
        apply grows_le; [|done]. destruct (Hall _ _ Hv) as [? _]. lia.
    + unfold after, PushBack, EmplaceBack. missing.
  - (* PopBack *)
    destruct (vecs s !! this) as [v|] eqn:Hv.
    + eapply after_weaken; [eapply PopBack_effect; eauto|].
      intros s' Hs'. split.
      * eapply changes_all_ok; [done|done|]. by intros ? [? _].
      * eapply changes_kept; [done|done|]. intros ? [_ ?]. lia.
    + unfold after, PopBack. missing.
  - (* Insert *)
    destruct (vecs s !! this) as [v|] eqn:Hv.
    + apply after_seq_ret.
      eapply after_weaken; [eapply Emplace_effect; eauto|].
      intros s' Hs'. split.
      * eapply changes_all_ok; [done|done|]. by intros ? [? _].
      * eapply changes_kept; [done|done|]. by intros ? [_ ?].
    + unfold after, Insert, Emplace. missing.
  - (* Erase *)
    destruct (vecs s !! this) as [v|] eqn:Hv.
    + apply after_seq_ret.
      eapply after_weaken; [eapply Erase_effect; eauto|].
      intros s' Hs'. split.
      * eapply changes_all_ok; [done|done|]. by intros ? [? _].
      * eapply changes_kept; [done|done|]. by intros ? [_ ?].
    + unfold after, Erase. missing.
Qed.
End InvariantClaims.

Lemma two_ints_vector_ok : vector_ok (T := Z) (mkVector (mkRawMemory (Some 0%nat) 2) 2).
Proof. split; cbn; unfold PTRDIFF_MAX; lia. Defined.

Lemma PushBack_PopBack_invariant_witness :
  let ops := [OpPushBack (Forward 3); OpPopBack; OpPopBack; OpPushBack (Forward 5)] in
  Forall (size_within 0) (two_ints :: observe 0 ops two_ints) /\
  forall i s1 s2,
    (two_ints :: observe 0 ops two_ints) !! i = Some s1 ->
    (two_ints :: observe 0 ops two_ints) !! S i = Some s2 ->
    capacity_step 0 s1 s2.
Proof.
  exact (PushBack_PopBack_invariant 0
           [OpPushBack (Forward 3); OpPopBack; OpPopBack; OpPushBack (Forward 5)]
           two_ints (mkVector (mkRawMemory (Some 0%nat) 2) 2)
           eq_refl two_ints_vector_ok).
Defined.

Lemma two_vectors_all_ok sc : all_ok (two_vectors sc).
Proof.
  intros r v. cbn. rewrite lookup_insert_Some.
  intros [[<- <-]|[_ H]]; [split; cbn; unfold PTRDIFF_MAX; lia|].
  apply lookup_singleton_Some in H as [<- <-].
  split; cbn; unfold PTRDIFF_MAX; lia.
Defined.

(** C1, as stated, fails: in [second = std::move(first)], with the
    vectors of [two_vectors], the vector [second] had capacity 4 and is left
    with capacity 2, the one [first] had. *)
Lemma move_assignment_shrinks_capacity :
  all_ok (two_vectors []) /\
  exists s',
    run_call (CallMoveAssign 1 0) (two_vectors []) = Ok tt s' /\
    capacity_of (two_vectors []) 1 = Some 4 /\
    capacity_of s' 1 = Some 2 /\
    ~ capacities_kept (two_vectors []) s'.
Proof.
  split; [apply two_vectors_all_ok|].
  eexists. split; [|split; [reflexivity|]].
  - cbn [run_call]. unfold Vector_move_assign. rewrite decide_True by done.
    eapply (Swap_distinct _ 1%nat 0%nat); [done|reflexivity|reflexivity].
  - split; [reflexivity|].
    intros Hk.
    destruct (Hk 1%nat (mkVector (mkRawMemory (Some 1%nat) 4) 3) eq_refl)
      as (v' & Hv' & Hle).
    cbn in Hv'. rewrite lookup_insert_ne, lookup_insert_eq in Hv' by done.
    injection Hv' as <-. cbn in Hle. lia.
Qed.

Lemma invariant_kept_by_every_call_witness :
  after (run_call (CallReserve 0 5)) (two_vectors [])
    (fun s' => all_ok s' /\ capacities_after (CallReserve 0 5) (two_vectors []) s').
Proof.
  apply (invariant_kept_by_every_call (CallReserve 0 5) (two_vectors [])
           (two_vectors_all_ok [])).
  cbn. lia.
Defined.

(** ** [Reserve], whatever the script *)

Section ReserveProofs.
Context {T : Type} `{!Element T}.
Implicit Types (h : gmap addr (list (option T))) (vs : gmap nat Vector)
  (rs : gmap nat RawMemory) (sc : list bool) (tr : list (event T)).


(** Relocation into the block of a local [RawMemory]: it returns with the
    two buffers exchanged, or a copy throws and every object is as it
    was. *)
Lemma MoveOrCopyDataAndReplace_any h vs rs sc tr this l a cap (xs : list T) post
    a' n' dpost sz :
  nothrow_move_constructible = true \/ copy_constructible = true \/ sc = [] ->
  vs !! this = Some (mkVector (mkRawMemory (Some a) cap) sz) ->
  sz = Z.of_nat (length xs) ->
  rs !! l = Some (mkRawMemory (Some a') n') ->
  a <> a' ->
  h !! a = Some ((Some <$> xs) ++ post) ->
  h !! a' = Some (replicate (length xs) None ++ dpost) ->
  match MoveOrCopyDataAndReplace this (Local l) (State h vs rs sc tr) with
  | Ok _ s' =>
      exists sc',
        s' = State (<[a := replicate (length xs) None ++ post]>
                      (<[a' := (Some <$> xs) ++ dpost]> h))
               (<[this := mkVector (mkRawMemory (Some a') n') sz]> vs)
               (<[l := mkRawMemory (Some a) cap]> rs) sc'
               (tr ++ loop_events EvRelocate (Ptr (Some a') 0) (Ptr (Some a) 0) (length xs)
                   ++ destroy_events (Ptr (Some a) 0) (length xs)) /\
        (sc = [] -> sc' = [])
  | Throw s' => heap s' = h /\ vecs s' = vs /\ raws s' = rs /\ sc <> []
  | Fault => False
  end.
Proof.
  intros Hkind Hv -> Hl Hne Ha Ha'.
  unfold MoveOrCopyDataAndReplace, uninitialized_move_n, uninitialized_copy_n. mrun.
  rewrite Nat2Z.id. unfold EvRelocate.
  destruct relocate_by_move eqn:E.
  - assert (nothrow_move_constructible = false -> sc = []) as Hnt.
    { intros Hf. unfold relocate_by_move in E. rewrite Hf in E. cbn in E.
      destruct Hkind as [?|[Hc|?]]; [congruence| |done].
      rewrite Hc in E. done. }
    rewrite (uninitialized_move_loop_spec xs h tr sc [] post [] dpost 0 0 0 a a' vs rs);
      try done.
    match goal with
    | |- context [destroy_n ?p (length xs) ?st] =>
        replace (destroy_n p (length xs) st)
          with (destroy_n p (length (moved_from <$> xs)) st)
          by (by rewrite length_fmap)
    end.
    rewrite (destroy_n_spec (moved_from <$> xs) _ _ [] post 0 a); [| by mlookup | done].
    rewrite length_fmap. mrun. exists sc. split; [|done].
    cbn. rewrite <- app_assoc. reflexivity.
  - pose proof (uninitialized_copy_loop_spec xs h tr sc [] post [] [] dpost 0 0 a a' vs rs
                  Hne Ha eq_refl Ha' eq_refl) as Hloop.
    cbn [length] in Hloop.
    destruct (uninitialized_loop _ _ _ _ _ _) as [[] s'|s'|]; [| |done].
    + subst s'.
      rewrite (destroy_n_spec xs _ _ [] post 0 a); [| by mlookup | done].
      mrun. eexists. split.
      { cbn. rewrite <- app_assoc. reflexivity. }
      intros ->. by rewrite drop_nil.
    + destruct Hloop as (Hh & ? & ? & ?). split_and!; try done.
      rewrite Hh. cbn. apply insert_id. exact Ha'.
Qed.

Lemma MoveOrCopyDataAndReplace_empty_any h vs rs sc tr this l m :
  vs !! this = Some (mkVector (mkRawMemory None 0) 0) ->
  rs !! l = Some m ->
  MoveOrCopyDataAndReplace this (Local l) (State h vs rs sc tr) =
    Ok tt (State h (<[this := mkVector m 0]> vs) (<[l := mkRawMemory None 0]> rs) sc tr).
Proof.
  intros Hv Hl.
  unfold MoveOrCopyDataAndReplace, uninitialized_move_n, uninitialized_copy_n. mrun.
  change (Z.to_nat 0) with 0%nat. cbn [uninitialized_loop destroy_n].
  destruct relocate_by_move; by mrun.
Qed.

(** [Reserve] beyond the capacity, whatever the script. *)
Lemma Reserve_grow h vs rs sc tr this buf cap (xs : list T) n :
  nothrow_move_constructible = true \/ copy_constructible = true \/ sc = [] ->
  vs !! this = Some (mkVector (mkRawMemory buf cap) (Z.of_nat (length xs))) ->
  match buf with
  | Some a => h !! a = Some (block_of xs cap)
  | None => cap = 0
  end ->
  Z.of_nat (length xs) <= cap -> cap < n -> n * sizeof <= PTRDIFF_MAX ->
  match Reserve this n (State h vs rs sc tr) with
  | Ok _ s' =>
      exists sc',
        s' = State (<[fresh (dom h) := block_of xs n]> (release buf h))
               (<[this := mkVector (mkRawMemory (Some (fresh (dom h))) n)
                            (Z.of_nat (length xs))]> vs) rs sc'
               (tr ++ [EvNew (fresh (dom h)) (n * sizeof)]
                   ++ loop_events EvRelocate (Ptr (Some (fresh (dom h))) 0) (Ptr buf 0)
                        (length xs)
                   ++ destroy_events (Ptr buf 0) (length xs)
                   ++ release_events buf) /\
        (sc = [] -> sc' = [])
  | Throw s' => heap s' = h /\ vecs s' = vs /\ raws s' = rs /\ sc <> []
  | Fault => False
  end.
Proof.
  intros Hkind Hv Hbuf Hle Hlt Hfit.
  set (a' := fresh (dom h)).
  assert (h !! a' = None) as Hfresh by apply fresh_block_None.
  unfold Reserve. mrun. unfold RawMemory_ctor.
  rewrite Allocate_spec by (done || lia). fold a'. set (l := fresh (dom rs)).
  destruct buf as [a|].
  - assert (a <> a') as Hne by (intros ->; congruence).
    unfold block_of in Hbuf.
    destruct sc as [|[] sc']; [| by repeat split |].
    all: mrun; cbn [tail].
    all: match goal with
      | |- context [MoveOrCopyDataAndReplace _ _ (State ?h1 ?vs1 ?rs1 ?sc1 ?tr1)] =>
          pose proof (MoveOrCopyDataAndReplace_any h1 vs1 rs1 sc1 tr1 this l a cap xs
                        (replicate (Z.to_nat cap - length xs) None) a' n
                        (replicate (Z.to_nat n - length xs) None)
                        (Z.of_nat (length xs))) as Hm
      end.
    all: lapply Hm; [clear Hm; intros Hm
                    | destruct Hkind as [?|[?|?]]; auto; try discriminate].
    all: lapply Hm; [clear Hm; intros Hm | done].
    all: specialize (Hm eq_refl).
    all: lapply Hm; [clear Hm; intros Hm | by mlookup].
    all: specialize (Hm Hne).
    all: lapply Hm; [clear Hm; intros Hm | by mlookup].
    all: lapply Hm; [clear Hm; intros Hm
                    | mlookup; f_equal; rewrite <- replicate_add; f_equal; lia].
    all: destruct (MoveOrCopyDataAndReplace _ _ _) as [[] s'|s'|]; [| |done].
    + destruct Hm as (sc'' & -> & Hsc). mrun. subst l. rewrite delete_fresh_insert.
      exists sc''. split; [|done].
      cbn [release release_events]. rewrite delete_insert_eq.
      rewrite (delete_insert_ne _ a a') by done.
      rewrite <- !app_assoc. reflexivity.
    + destruct Hm as (_ & _ & _ & ?). done.
    + destruct Hm as (sc'' & -> & Hsc). mrun. subst l. rewrite delete_fresh_insert.
      exists sc''. split; [|done].
      cbn [release release_events]. rewrite delete_insert_eq.
      rewrite (delete_insert_ne _ a a') by done.
      rewrite <- !app_assoc. reflexivity.
    + destruct Hm as (Hh & Hvs & Hrs & _). destruct s' as [h2 vs2 rs2 sc2 tr2].
      cbn in Hh, Hvs, Hrs. subst h2 vs2 rs2. mrun. subst l. cbn.
      rewrite !delete_insert_eq, !delete_id by (done || apply fresh_local_None). done.
  - subst cap. assert (xs = []) as -> by (apply length_zero_iff_nil; lia).
    destruct sc as [|[] sc']; [| by repeat split |].
    all: mrun; cbn [tail].
    all: erewrite (MoveOrCopyDataAndReplace_empty_any _ _ _ _ _ this l);
      [| done | by mlookup ].
    all: mrun; subst l; rewrite delete_fresh_insert; mrun.
    all: eexists; (split; [cbn; rewrite Nat.sub_0_r; reflexivity|done]).
Qed.
End ReserveProofs.

(** * Further properties of the member functions *)

Section ReserveTheorems.
Context {T : Type} `{!Element T}.

(** X1: [Reserve(n)], when nothing throws, keeps the elements and leaves the
    capacity at the larger of the old capacity and [n].  Within the
    capacity it does nothing at all.  Beyond it, it allocates a block of
    [n] slots, relocates the elements into it, destroys the old objects and
    deletes the old block, in this order. *)
Theorem Reserve_keeps_elements (s : state T) this buf cap xs n :
  is_vector s this buf cap xs ->
  script s = [] ->
  (cap < n -> n * sizeof <= PTRDIFF_MAX) ->
  exists s' buf',
    Reserve this n s = Ok tt s' /\
    is_vector s' this buf' (Z.max cap n) xs /\
    script s' = [] /\
    (n <= cap -> s' = s) /\
    (cap < n ->
       let a' := fresh (dom (heap s)) in
       buf' = Some a' /\
       heap s' = <[a' := block_of xs n]> (release buf (heap s)) /\
       trace s' =
         trace s ++ [EvNew a' (n * sizeof)]
           ++ loop_events EvRelocate (Ptr (Some a') 0) (Ptr buf 0) (length xs)
           ++ destroy_events (Ptr buf 0) (length xs)
           ++ release_events buf).
Proof.
  intros (Hv & Hle & Hfit & Hbuf) Hsc Hn.
  destruct s as [h vs rs sc tr]. cbn in Hv, Hbuf, Hsc |- *. subst sc.
  destruct (Z.leb_spec n cap) as [Hnc|Hnc].
  - exists (State h vs rs [] tr), buf. split; [|split; [|split; [done|split; [done|lia]]]].
    + unfold Reserve. by mrun.
    + rewrite Z.max_l by lia. by repeat split.
  - specialize (Hn Hnc).
    pose proof (Reserve_grow h vs rs [] tr this buf cap xs n) as Hg.
    lapply Hg; [clear Hg; intros Hg | auto].
    specialize (Hg Hv).
    lapply Hg; [clear Hg; intros Hg | destruct buf; [by destruct Hbuf|done]].
    specialize (Hg Hle Hnc Hn).
    destruct (Reserve this n _) as [[] s'|s'|]; [| |done].
    + destruct Hg as (sc' & -> & Hsc'). rewrite (Hsc' eq_refl).
      eexists _, _. split; [reflexivity|].
      split; [|split; [done|split; [lia|done]]].
      rewrite Z.max_r by lia.
      eapply is_vector_intro; cbn; mlookup; try done; [lia|].
      split; [lia|done].
    + by destruct Hg as (_ & _ & _ & ?).
Qed.

End ReserveTheorems.

Lemma Reserve_keeps_elements_witness :
  exists s' buf',
    Reserve 0 5 two_ints = Ok tt s' /\
    is_vector s' 0 buf' (Z.max 2 5) [1; 2] /\
    script s' = [] /\
    (5 <= 2 -> s' = two_ints) /\
    (2 < 5 ->
       let a' := fresh (dom (heap two_ints)) in
       buf' = Some a' /\
       heap s' = <[a' := block_of [1; 2] 5]> (release (Some 0%nat) (heap two_ints)) /\
       trace s' =
         trace two_ints ++ [EvNew a' (5 * sizeof (T := Z))]
           ++ loop_events EvRelocate (Ptr (Some a') 0) (Ptr (Some 0%nat) 0) (length [1; 2])
           ++ destroy_events (Ptr (Some 0%nat) 0) (length [1; 2])
           ++ release_events (Some 0%nat)).
Proof.
  apply (Reserve_keeps_elements two_ints 0 (Some 0%nat) 2 [1; 2] 5 two_ints_is_vector
           eq_refl).
  intros _. cbn. unfold PTRDIFF_MAX. lia.
Defined.


(** ** Value construction, whatever the script *)

Section ValueLoop.
Context {T : Type} `{!Element T}.
Implicit Types (h : gmap addr (list (option T))) (vs : gmap nat Vector)
  (rs : gmap nat RawMemory) (sc : list bool) (tr : list (event T)).

Lemma value_construct_any h vs rs sc tr a pre o post i :
  h !! a = Some (pre ++ o :: post) -> i = Z.of_nat (length pre) ->
  value_construct (Ptr (Some a) i) (State h vs rs sc tr) =
    match sc with
    | true :: sc' => Throw (State h vs rs sc' tr)
    | _ => Ok tt (State (<[a := pre ++ Some value_init :: post]> h) vs rs (tail sc)
                    (tr ++ [EvValueConstruct (Ptr (Some a) i)]))
    end.
Proof.
  intros Hd Hi. unfold value_construct, bind.
  destruct sc as [|[] sc']; cbn [may_throw script tail]; [|done|].
  all: by rewrite (write_mid _ _ _ _ _ _ _ _ (Some value_init) _ _ Hd Hi).
Qed.

(** The value-constructing loop, whatever the script: either every slot
    holds a value-initialised object, or a construction throws and the
    slots are raw storage again. *)
Lemma uninitialized_value_loop_any (n : nat) :
  forall h tr sc dpre (dn : list T) dpost d0 q a vs rs,
  h !! a = Some (dpre ++ (Some <$> dn) ++ replicate n None ++ dpost) ->
  d0 = Z.of_nat (length dpre) ->
  match uninitialized_loop (fun p _ => value_construct p) (Ptr (Some a) d0) (length dn)
          q n (State h vs rs sc tr) with
  | Ok _ s' =>
      s' = State (<[a := dpre ++ (Some <$> dn ++ replicate n value_init) ++ dpost]> h)
             vs rs (drop n sc)
             (tr ++ value_events (Ptr (Some a) (d0 + Z.of_nat (length dn))) n)
  | Throw s' =>
      heap s' = <[a := dpre ++ replicate (length dn + n) None ++ dpost]> h /\
      vecs s' = vs /\ raws s' = rs /\ sc <> []
  | Fault => False
  end.
Proof.
  induction n as [|n IH]; intros h tr sc dpre dn dpost d0 q a vs rs Hd Hd0.
  - cbn. rewrite !app_nil_r, drop_0. f_equal.
    symmetry. apply insert_id. exact Hd.
  - cbn [uninitialized_loop]. unfold bind at 1.
    assert (h !! a = Some ((dpre ++ (Some <$> dn)) ++
              None :: replicate n None ++ dpost)) as Hd'.
    { rewrite Hd. cbn. by rewrite <- app_assoc. }
    assert (d0 + Z.of_nat (length dn) = Z.of_nat (length (dpre ++ (Some <$> dn)))) as Hd0'.
    { rewrite length_app, length_fmap. lia. }
    unfold on_throw, ptr_add. cbn [base off].
    rewrite (value_construct_any _ _ _ _ _ _ _ _ _ _ Hd' Hd0').
    assert (forall sc', match
        uninitialized_loop (fun p _ => value_construct p) (Ptr (Some a) d0) (S (length dn))
          (Ptr (base q) (off q + 1)) n
          (State (<[a := (dpre ++ (Some <$> dn)) ++
                     Some value_init :: replicate n None ++ dpost]> h) vs rs sc'
             (tr ++ [EvValueConstruct (Ptr (Some a) (d0 + Z.of_nat (length dn)))])) with
      | Ok _ s' =>
          s' = State (<[a := dpre ++ (Some <$> dn ++ replicate (S n) value_init) ++ dpost]> h)
                 vs rs (drop n sc')
                 (tr ++ value_events (Ptr (Some a) (d0 + Z.of_nat (length dn))) (S n))
      | Throw s' =>
          heap s' = <[a := dpre ++ replicate (length dn + S n) None ++ dpost]> h /\
          vecs s' = vs /\ raws s' = rs /\ sc' <> []
      | Fault => False
      end) as Hnext.
    { intros sc'.
      specialize (IH (<[a := (dpre ++ (Some <$> dn)) ++
                     Some value_init :: replicate n None ++ dpost]> h)
        (tr ++ [EvValueConstruct (Ptr (Some a) (d0 + Z.of_nat (length dn)))])
        sc' dpre (dn ++ [value_init]) dpost d0 (Ptr (base q) (off q + 1)) a vs rs).
      replace (length (dn ++ [value_init])) with (S (length dn)) in IH
        by (rewrite length_app; cbn; lia).
      lapply IH; [clear IH; intros IH|].
      2:{ rewrite lookup_insert_eq, fmap_app, <- !app_assoc. done. }
      specialize (IH Hd0).
      destruct (uninitialized_loop _ _ _ _ _ _) as [[] s'|s'|]; [| |done].
      - rewrite IH, insert_insert_eq, value_events_S, <- !app_assoc.
        unfold ptr_add. cbn [base off replicate].
        replace (d0 + Z.of_nat (length dn) + 1) with (d0 + Z.of_nat (S (length dn))) by lia.
        reflexivity.
      - destruct IH as (Hh & Hv & Hr & Hsc). rewrite Hh, insert_insert_eq.
        replace (S (length dn) + n)%nat with (length dn + S n)%nat by lia.
        done. }
    destruct sc as [|[] sc'].
    + specialize (Hnext []). cbn [tail]. destruct (uninitialized_loop _ _ _ _ _ _)
        as [[] s'|s'|]; [| |done].
      * by rewrite drop_nil in *.
      * by destruct Hnext as (_ & _ & _ & ?).
    + rewrite (destroy_n_spec dn h tr dpre (replicate (S n) None ++ dpost)
                 d0 a vs rs sc' Hd Hd0).
      cbn [heap vecs raws]. repeat split; try done.
      by rewrite replicate_add, <- app_assoc.
    + specialize (Hnext sc'). cbn [tail drop]. destruct (uninitialized_loop _ _ _ _ _ _)
        as [[] s'|s'|]; [done| |done].
      destruct Hnext as (? & ? & ? & _). done.
Qed.
End ValueLoop.

Section CtorTheorems.
Context {T : Type} `{!Element T}.

(** X3: [Vector(n)] makes a vector of [n] value-initialised elements with
    capacity [n]; for [n = 0] it allocates nothing.  If the allocation or
    the construction of an element throws, the elements constructed so far
    are destroyed, the block is deleted and no object exists: the heap and
    the objects are as before.  No other vector is touched, and the call has
    defined behaviour in every case. *)
Theorem Vector_ctor_spec (s : state T) this n :
  vecs s !! this = None ->
  0 <= n -> n * sizeof <= PTRDIFF_MAX ->
  match Vector_ctor this n s with
  | Ok _ s' =>
      exists buf',
        is_vector s' this buf' n (replicate (Z.to_nat n) value_init) /\
        (n = 0 -> buf' = None /\ heap s' = heap s) /\
        (forall r, r <> this -> vecs s' !! r = vecs s !! r) /\
        (script s = [] -> script s' = [])
  | Throw s' =>
      heap s' = heap s /\ vecs s' = vecs s /\ raws s' = raws s /\ script s <> []
  | Fault => False
  end.
Proof.
  intros Hv Hn Hfit. destruct s as [h vs rs sc tr]. cbn in Hv |- *.
  unfold Vector_ctor, uninitialized_value_construct_n.
  destruct (decide (n = 0)) as [->|Hn0].
  - unfold Allocate. cbn. mrun. cbn [uninitialized_loop]. mrun.
    exists None. split; [|split; [done|split; [|done]]].
    + eapply is_vector_intro; cbn; mlookup; done.
    + intros r Hr. cbn. by rewrite lookup_insert_ne.
  - unfold bind at 1. rewrite Allocate_spec by (done || lia).
    set (a' := fresh (dom h)).
    assert (h !! a' = None) as Hfresh by apply fresh_block_None.
    destruct sc as [|[] sc']; [| by repeat split |].
    all: mrun.
    all: match goal with
         | |- context [uninitialized_loop _ _ _ ?q _ (State ?h1 ?vs1 ?rs1 ?sc1 ?tr1)] =>
             pose proof (uninitialized_value_loop_any (Z.to_nat n) h1 tr1 sc1 [] [] []
                           0 q a' vs1 rs1) as Hloop
         end.
    all: lapply Hloop; [clear Hloop; intros Hloop
                       | by rewrite lookup_insert_eq, app_nil_r ].
    all: specialize (Hloop eq_refl).
    all: cbn [length] in Hloop.
    all: destruct (uninitialized_loop _ _ _ _ _ _) as [[] s'|s'|]; [| |done].
    + subst s'. exists (Some a'). split; [|split; [lia|split]].
      * eapply is_vector_intro; cbn; mlookup; try done.
        -- rewrite length_replicate. lia.
        -- split; [lia|]. f_equal. unfold block_of.
           rewrite length_replicate, Nat.sub_diag, !app_nil_r. done.
      * intros r Hr. cbn. by rewrite lookup_insert_ne.
      * intros _. cbn. apply drop_nil.
    + destruct Hloop as (_ & _ & _ & ?). done.
    + subst s'. exists (Some a'). split; [|split; [lia|split]].
      * eapply is_vector_intro; cbn; mlookup; try done.
        -- rewrite length_replicate. lia.
        -- split; [lia|]. f_equal. unfold block_of.
           rewrite length_replicate, Nat.sub_diag, !app_nil_r. done.
      * intros r Hr. cbn. by rewrite lookup_insert_ne.
      * intros [=].
    + destruct Hloop as (Hh & Hvs & Hrs & _). destruct s' as [h2 vs2 rs2 sc2 tr2].
      cbn in Hh, Hvs, Hrs. subst h2 vs2 rs2. mrun. cbn.
      rewrite !delete_insert_eq, !delete_id by done. done.
Qed.
End CtorTheorems.

Lemma Vector_ctor_spec_witness :
  match Vector_ctor 1 3 two_ints with
  | Ok _ s' =>
      exists buf',
        is_vector s' 1 buf' 3 (replicate (Z.to_nat 3) value_init) /\
        (3 = 0 -> buf' = None /\ heap s' = heap two_ints) /\
        (forall r, r <> 1%nat -> vecs s' !! r = vecs two_ints !! r) /\
        (script two_ints = [] -> script s' = [])
  | Throw s' =>
      heap s' = heap two_ints /\ vecs s' = vecs two_ints /\ raws s' = raws two_ints /\
      script two_ints <> []
  | Fault => False
  end.
Proof.
  apply (Vector_ctor_spec two_ints 1 3 eq_refl); [lia|].
  cbn. unfold PTRDIFF_MAX. lia.
Defined.

(** ** [Resize] and the constructor from a size *)

Section ResizeProofs.
Context {T : Type} `{!Element T}.
Implicit Types (h : gmap addr (list (option T))) (vs : gmap nat Vector)
  (rs : gmap nat RawMemory) (sc : list bool) (tr : list (event T)).

Lemma block_of_take (xs : list T) cap (k : nat) :
  (k <= length xs)%nat -> Z.of_nat (length xs) <= cap ->
  (Some <$> take k xs) ++ replicate (length (drop k xs)) None
    ++ replicate (Z.to_nat cap - length xs) None = block_of (take k xs) cap.
Proof.
  intros Hk Hle. unfold block_of. f_equal.
  rewrite <- replicate_add. f_equal.
  rewrite length_drop, length_take. lia.
Qed.

Lemma block_of_split (xs : list T) cap :
  block_of xs cap = (Some <$> xs) ++ replicate (Z.to_nat cap - length xs) None.
Proof. reflexivity. Qed.

Lemma block_of_extend (xs : list T) cap (k : nat) :
  (length xs + k <= Z.to_nat cap)%nat ->
  (Some <$> xs) ++ replicate k (Some value_init)
    ++ replicate (Z.to_nat cap - length xs - k) None
  = block_of (xs ++ replicate k value_init) cap.
Proof.
  intros Hk. unfold block_of.
  rewrite fmap_app, fmap_replicate, <- app_assoc, length_app, length_replicate.
  do 3 f_equal. lia.
Qed.

(** [Reserve] when nothing throws. *)
Lemma Reserve_ok (s : state T) this buf cap xs n :
  is_vector s this buf cap xs ->
  script s = [] ->
  (cap < n -> n * sizeof <= PTRDIFF_MAX) ->
  exists s' buf',
    Reserve this n s = Ok tt s' /\
    is_vector s' this buf' (Z.max cap n) xs /\
    script s' = [] /\
    (n <= cap -> s' = s).
Proof.
  intros (Hv & Hle & Hfit & Hbuf) Hsc Hn.
  destruct s as [h vs rs sc tr]. cbn in Hv, Hbuf, Hsc |- *. subst sc.
  destruct (Z.leb_spec n cap) as [Hnc|Hnc].
  - exists (State h vs rs [] tr), buf. split; [|split; [|split; [done|done]]].
    + unfold Reserve. by mrun.
    + rewrite Z.max_l by lia. by repeat split.
  - specialize (Hn Hnc).
    pose proof (Reserve_grow h vs rs [] tr this buf cap xs n) as Hg.
    lapply Hg; [clear Hg; intros Hg | auto].
    specialize (Hg Hv).
    lapply Hg; [clear Hg; intros Hg | destruct buf; [by destruct Hbuf|done]].
    specialize (Hg Hle Hnc Hn).
    destruct (Reserve this n _) as [[] s'|s'|]; [| |done].
    + destruct Hg as (sc' & -> & Hsc'). rewrite (Hsc' eq_refl).
      exists (State (<[fresh (dom h) := block_of xs n]> (release buf h))
                (<[this := mkVector (mkRawMemory (Some (fresh (dom h))) n)
                             (Z.of_nat (length xs))]> vs) rs []
                (tr ++ [EvNew (fresh (dom h)) (n * sizeof)]
                    ++ loop_events EvRelocate (Ptr (Some (fresh (dom h))) 0) (Ptr buf 0)
                         (length xs)
                    ++ destroy_events (Ptr buf 0) (length xs)
                    ++ release_events buf)), (Some (fresh (dom h))).
      split; [reflexivity|]. split; [|split; [done|lia]].
      rewrite Z.max_r by lia.
      eapply is_vector_intro; cbn; mlookup; try done; [lia|].
      split; [lia|done].
    + by destruct Hg as (_ & _ & _ & ?).
Qed.

(** X4: [Resize(n)], when nothing throws, leaves the vector with exactly
    [n] elements: the first [n] of the old ones, followed by
    value-initialised elements where [n] is larger than the old size.  The
    capacity is the larger of the old capacity and [n]; within the old
    capacity the buffer stays. *)
Theorem Resize_sets_size (s : state T) this buf cap xs n :
  is_vector s this buf cap xs ->
  script s = [] ->
  0 <= n ->
  (cap < n -> n * sizeof <= PTRDIFF_MAX) ->
  exists s' buf',
    Resize this n s = Ok tt s' /\
    is_vector s' this buf' (Z.max cap n)
      (take (Z.to_nat n) xs ++ replicate (Z.to_nat n - length xs) value_init) /\
    (n <= cap -> buf' = buf) /\
    script s' = [].
Proof.
  intros Hvec Hsc Hn0 Hn.
  assert (cap < 2 ^ 63) as Hcap.
  { destruct Hvec as (_ & ? & ? & _). apply capacity_bound; [lia|done]. }
  assert (n < 2 ^ 63) as Hn63.
  { destruct (Z.leb_spec n cap); [lia|]. apply capacity_bound; auto. }
  destruct (Z.leb_spec n (Z.of_nat (length xs))) as [Hshrink|Hgrow].
  - destruct Hvec as (Hv & Hle & Hfit & Hbuf).
    destruct s as [h vs rs sc tr]. cbn in Hv, Hbuf, Hsc |- *. subst sc.
    replace (Z.to_nat n - length xs)%nat with 0%nat by lia.
    cbn [replicate]. rewrite app_nil_r, Z.max_l by lia.
    unfold Resize. mrun. rewrite wrap_small by lia.
    assert (length (drop (Z.to_nat n) xs) = Z.to_nat (Z.of_nat (length xs) - n)) as Hlen
      by (rewrite length_drop; lia).
    rewrite <- Hlen.
    destruct buf as [a|].
    + destruct Hbuf as (Hpos & Hh).
      rewrite <- (take_drop (Z.to_nat n) xs) in Hh at 1.
      unfold block_of in Hh. rewrite fmap_app, <- app_assoc in Hh.
      rewrite (destroy_n_spec (drop (Z.to_nat n) xs) h tr _ _ n a vs rs [] Hh)
        by (rewrite length_fmap, length_take; lia).
      mrun. eexists _, (Some a). split; [reflexivity|]. split; [|done].
      eapply is_vector_intro; cbn; mlookup; try done.
      * rewrite length_take. lia.
      * lia.
      * split; [done|]. f_equal. rewrite take_drop. apply block_of_take; lia.
    + subst cap. assert (xs = []) as -> by (apply length_zero_iff_nil; lia).
      cbn in Hshrink. assert (n = 0) as -> by lia.
      change (Z.to_nat 0) with 0%nat. cbn [drop length destroy_n]. mrun.
      eexists _, None. split; [reflexivity|]. split; [|done].
      eapply is_vector_intro; cbn; mlookup; done.
  - destruct (Reserve_ok s this buf cap xs n Hvec Hsc Hn)
      as (s1 & buf1 & HR & (Hv1 & Hle1 & Hfit1 & Hbuf1) & Hsc1 & Hsame).
    destruct s as [h vs rs sc tr]. cbn in Hsc. subst sc.
    destruct s1 as [h1 vs1 rs1 sc1 tr1]. cbn in Hv1, Hbuf1, Hsc1. subst sc1.
    assert (vs !! this = Some (mkVector (mkRawMemory buf cap) (Z.of_nat (length xs))))
      as Hv by (by destruct Hvec).
    rewrite take_ge by lia.
    destruct buf1 as [a1|]; [|cbn in Hbuf1; lia]. destruct Hbuf1 as (Hpos1 & Hh1).
    unfold Resize. erewrite bind_Ok; [| mrun; reflexivity ]. cbv beta.
    rewrite (proj2 (Z.leb_gt n (Z.of_nat (length xs)))) by lia.
    erewrite bind_Ok.
    2:{ erewrite bind_Ok; [| exact HR ]. cbv beta.
        mrun. rewrite wrap_small by lia.
        unfold uninitialized_value_construct_n.
        rewrite (uninitialized_value_loop_spec (Z.to_nat (n - Z.of_nat (length xs)))
                   h1 tr1 (Some <$> xs)
                   (replicate (Z.to_nat (Z.max cap n) - length xs
                               - Z.to_nat (n - Z.of_nat (length xs))) None)
                   (Z.of_nat (length xs)) 0 _ a1 vs1 rs1).
        - reflexivity.
        - rewrite Hh1. unfold block_of. do 2 f_equal.
          rewrite <- replicate_add. f_equal. lia.
        - rewrite length_fmap. lia. }
    cbv beta.
    mrun. eexists _, (Some a1). split; [reflexivity|]. split; [|split; [|done]].
    + eapply is_vector_intro; cbn; mlookup; try done.
      * rewrite length_app, length_replicate. lia.
      * lia.
      * split; [done|]. f_equal.
        replace (Z.to_nat n - length xs)%nat
          with (Z.to_nat (n - Z.of_nat (length xs))) by lia.
        apply block_of_extend. lia.
    + intros Hfits. specialize (Hsame Hfits). injection Hsame as -> -> -> ->.
      rewrite Hv in Hv1. by injection Hv1 as ->.
Qed.
End ResizeProofs.

(** ** [Resize], whatever the script *)

Section ResizeAny.
Context {T : Type} `{!Element T}.
Implicit Types (h : gmap addr (list (option T))) (vs : gmap nat Vector)
  (rs : gmap nat RawMemory) (sc : list bool) (tr : list (event T)).



End ResizeAny.



(** ** [PopBack], [operator[]] and sequences of [PushBack] *)

Section BackProofs.
Context {T : Type} `{!Element T}.
Implicit Types (h : gmap addr (list (option T))) (vs : gmap nat Vector)
  (rs : gmap nat RawMemory) (sc : list bool) (tr : list (event T)).

(** [PopBack] on a vector that is not empty, whatever the script. *)
Lemma PopBack_ok (s : state T) this buf cap xs x :
  is_vector s this buf cap (xs ++ [x]) ->
  exists a,
    buf = Some a /\
    PopBack this s =
      Ok tt (State (<[a := block_of xs cap]> (heap s))
               (<[this := mkVector (mkRawMemory buf cap) (Z.of_nat (length xs))]> (vecs s))
               (raws s) (script s)
               (trace s ++ [EvDestroy (Ptr buf (Z.of_nat (length xs)))])).
Proof.
  intros (Hv & Hle & Hfit & Hbuf). destruct s as [h vs rs sc tr]. cbn in Hv, Hbuf |- *.
  rewrite length_app in *. cbn [length] in *.
  assert (cap < 2 ^ 63) as Hcap by (apply capacity_bound; [lia|done]).
  destruct buf as [a|]; [|lia]. destruct Hbuf as (Hpos & Hh).
  exists a. split; [done|].
  unfold block_of in Hh. rewrite fmap_app, <- app_assoc in Hh. cbn [fmap list_fmap app] in Hh.
  unfold PopBack. mrun. rewrite wrap_small by lia.
  replace (Z.of_nat (length xs + 1) - 1) with (Z.of_nat (length xs)) by lia.
  rewrite (destroy_n_spec [x] h tr (Some <$> xs)
             (replicate (Z.to_nat cap - length (xs ++ [x])) None)
             (Z.of_nat (length xs)) a _ rs sc);
    [| by mlookup | by rewrite length_fmap].
  cbn [length destroy_events seq fmap list_fmap]. unfold ptr_add. cbn [base off].
  rewrite Z.add_0_r. do 3 f_equal. unfold block_of. f_equal.
  rewrite <- replicate_add. f_equal. rewrite length_app. cbn [length]. lia.
Qed.

(** [EmplaceBack] when nothing throws: the capacity changes only when the
    vector is full. *)
Lemma EmplaceBack_capacity (s : state T) this buf cap xs args x :
  is_vector s this buf cap xs ->
  script s = [] ->
  arg_value (heap s) args = Some x ->
  (Z.of_nat (length xs) = cap -> grown cap * sizeof <= PTRDIFF_MAX) ->
  exists p s' buf' cap',
    EmplaceBack this args s = Ok p s' /\
    is_vector s' this buf' cap' (xs ++ [x]) /\
    script s' = [] /\
    (Z.of_nat (length xs) = cap -> cap' = grown cap) /\
    (Z.of_nat (length xs) <> cap -> cap' = cap /\ buf' = buf).
Proof.
  intros (Hv & Hle & Hfit & Hbuf) Hsc Hx Hgrow.
  destruct s as [h vs rs sc tr]. cbn in Hv, Hbuf, Hsc, Hx. subst sc.
  assert (cap < 2 ^ 63) as Hcap by (apply capacity_bound; [lia|done]).
  destruct (decide (Z.of_nat (length xs) = cap)) as [Heq|Hne].
  - specialize (Hgrow Heq). subst cap.
    pose proof (grown_cases (Z.of_nat (length xs)) ltac:(lia)) as Hg.
    assert (Z.of_nat (length xs) < grown (Z.of_nat (length xs))) as Hlt by lia.
    eexists _, _, (Some (fresh (dom h))), (grown (Z.of_nat (length xs))).
    split.
    { apply EmplaceBack_full; try done. destruct buf; [by destruct Hbuf|done]. }
    split; [|split; [done|split; [done|done]]].
    eapply is_vector_intro; cbn; mlookup; try done.
    + rewrite length_app. cbn. lia.
    + lia.
    + split; [lia|done].
  - destruct buf as [a|]; [|lia]. destruct Hbuf as (Hpos & Hh).
    eexists _, _, (Some a), cap. split.
    { apply EmplaceBack_spare; try done; lia. }
    split; [|split; [done|split; [done|done]]].
    eapply is_vector_intro; cbn; mlookup; try done.
    + rewrite length_app. cbn. lia.
    + lia.
Qed.
End BackProofs.

Section BackTheorems.
Context {T : Type} `{!Element T}.

(** X5: [PopBack] destroys the last element and nothing else: the other
    elements, the buffer and the capacity stay, no block is deleted, and
    nothing can throw.  On an empty vector the call has no defined
    behaviour (the assertion [size_ > 0] fails). *)
Theorem PopBack_spec (s : state T) this buf cap xs :
  is_vector s this buf cap xs ->
  (xs = [] -> PopBack this s = Fault) /\
  (forall xs' x, xs = xs' ++ [x] ->
     exists s',
       PopBack this s = Ok tt s' /\
       is_vector s' this buf cap xs' /\
       dom (heap s') = dom (heap s) /\
       script s' = script s /\
       trace s' = trace s ++ [EvDestroy (Ptr buf (Z.of_nat (length xs')))]).
Proof.
  intros Hvec. split.
  - intros ->. destruct Hvec as (Hv & _). destruct s as [h vs rs sc tr].
    cbn in Hv. unfold PopBack. by mrun.
  - intros xs' x ->.
    destruct (PopBack_ok s this buf cap xs' x Hvec) as (a & -> & ->).
    destruct Hvec as (Hv & Hle & Hfit & Hpos & Hh).
    rewrite length_app in Hle. cbn in Hle.
    eexists. split; [reflexivity|]. split; [|split; [|done]].
    + eapply is_vector_intro; cbn; mlookup; try done. lia.
    + cbn. apply dom_insert_lookup_L. by eexists.
Qed.

(** X6: [operator[]] on an index below the size designates the element at
    that index and changes nothing; on any other index it has no defined
    behaviour (the assertion [index < size_] fails). *)
Theorem Vector_index_bounds (s : state T) this buf cap xs i :
  is_vector s this buf cap xs ->
  0 <= i ->
  (i < Z.of_nat (length xs) ->
     exists x,
       xs !! Z.to_nat i = Some x /\
       Vector_index this i s = Ok (Ptr buf i) s /\
       peek (heap s) (Ptr buf i) = Some x) /\
  (Z.of_nat (length xs) <= i -> Vector_index this i s = Fault).
Proof.
  intros (Hv & Hle & Hfit & Hbuf) Hi. destruct s as [h vs rs sc tr]. cbn in Hv, Hbuf |- *.
  split.
  - intros Hlt.
    destruct (lookup_lt_is_Some_2 xs (Z.to_nat i) ltac:(lia)) as [x Hx].
    exists x. split; [done|]. split.
    + unfold Vector_index. by mrun.
    + destruct buf as [a|]; [|lia]. destruct Hbuf as (_ & Hh).
      rewrite <- (take_drop_middle xs (Z.to_nat i) x Hx) in Hh.
      replace i with (Z.of_nat (length (take (Z.to_nat i) xs)))
        by (rewrite length_take; lia).
      by eapply peek_block_of.
  - intros Hge. unfold Vector_index. by mrun.
Qed.

(** X7: [PushBack] followed by [PopBack] gives back the elements the
    vector had; the capacity may have grown on the way, it has not
    shrunk. *)
Theorem PushBack_then_PopBack (s : state T) this buf cap xs value x :
  is_vector s this buf cap xs ->
  script s = [] ->
  arg_value (heap s) value = Some x ->
  (Z.of_nat (length xs) = cap -> grown cap * sizeof <= PTRDIFF_MAX) ->
  exists s' buf' cap',
    (PushBack this value ;; PopBack this) s = Ok tt s' /\
    is_vector s' this buf' cap' xs /\
    cap <= cap' /\
    script s' = [].
Proof.
  intros Hvec Hsc Hx Hgrow.
  assert (0 <= cap < 2 ^ 63) as Hcap.
  { destruct Hvec as (_ & ? & ? & _). split; [lia|]. apply capacity_bound; [lia|done]. }
  destruct (EmplaceBack_capacity s this buf cap xs value x Hvec Hsc Hx Hgrow)
    as (p & s1 & buf1 & cap1 & HE & Hvec1 & Hsc1 & Hfull & Hspare).
  assert (cap <= cap1) as Hmono.
  { pose proof (grown_cases cap ltac:(lia)).
    destruct (decide (Z.of_nat (length xs) = cap)) as [Heq|Hne].
    - rewrite (Hfull Heq). lia.
    - destruct (Hspare Hne) as [-> _]. lia. }
  destruct (PopBack_ok s1 this buf1 cap1 xs x Hvec1) as (a & -> & HP).
  exists (State (<[a := block_of xs cap1]> (heap s1))
            (<[this := mkVector (mkRawMemory (Some a) cap1) (Z.of_nat (length xs))]> (vecs s1))
            (raws s1) (script s1)
            (trace s1 ++ [EvDestroy (Ptr (Some a) (Z.of_nat (length xs)))])),
         (Some a), cap1.
  split; [|split; [|split; [done|done]]].
  - unfold PushBack. unfold bind at 1. unfold bind at 1. rewrite HE. unfold ret.
    exact HP.
  - destruct Hvec1 as (Hv1 & Hle1 & Hfit1 & Hpos1 & Hh1).
    rewrite length_app in Hle1. cbn in Hle1.
    eapply is_vector_intro; cbn; mlookup; try done. lia.
Qed.

(** X8: pushing the values [ys] one after the other on a vector that holds
    [xs] gives a vector that holds [xs ++ ys].  The capacity has not shrunk,
    and where it changed it is less than twice the new size. *)
Theorem push_all_appends (ys : list T) :
  forall (s : state T) this buf cap xs,
  is_vector s this buf cap xs ->
  script s = [] ->
  2 * (Z.of_nat (length xs) + Z.of_nat (length ys)) * sizeof <= PTRDIFF_MAX ->
  exists s' buf' cap',
    push_all this ys s = Ok tt s' /\
    is_vector s' this buf' cap' (xs ++ ys) /\
    script s' = [] /\
    cap <= cap' /\
    (cap' = cap \/ cap' < 2 * (Z.of_nat (length xs) + Z.of_nat (length ys))).
Proof.
  induction ys as [|y ys IH]; intros s this buf cap xs Hvec Hsc Hfit.
  - exists s, buf, cap. rewrite app_nil_r. cbn. split_and!; try done. by left.
  - cbn [length] in Hfit.
    assert (0 <= cap < 2 ^ 63) as Hcap.
    { destruct Hvec as (_ & ? & ? & _). split; [lia|]. apply capacity_bound; [lia|done]. }
    pose proof sizeof_range as Hsz.
    pose proof (grown_cases cap ltac:(lia)) as Hgc.
    assert (Z.of_nat (length xs) = cap -> grown cap * sizeof <= PTRDIFF_MAX) as Hgrow.
    { intros Heq. unfold PTRDIFF_MAX in *. nia. }
    destruct (EmplaceBack_capacity s this buf cap xs (Forward y) y Hvec Hsc eq_refl Hgrow)
      as (p & s1 & buf1 & cap1 & HE & Hvec1 & Hsc1 & Hfull & Hspare).
    destruct (IH s1 this buf1 cap1 (xs ++ [y]) Hvec1 Hsc1)
      as (s2 & buf2 & cap2 & HP & Hvec2 & Hsc2 & Hmono & Hbound).
    { rewrite length_app. cbn [length]. lia. }
    rewrite length_app in Hbound. cbn [length] in Hbound.
    exists s2, buf2, cap2. split_and!.
    + cbn [push_all]. unfold PushBack. unfold bind at 1. unfold bind at 1.
      rewrite HE. unfold ret. exact HP.
    + by rewrite <- app_assoc in Hvec2.
    + done.
    + destruct (decide (Z.of_nat (length xs) = cap)) as [Heq|Hne].
      * rewrite (Hfull Heq) in Hmono. lia.
      * destruct (Hspare Hne) as [-> _]. lia.
    + cbn [length].
      destruct (decide (Z.of_nat (length xs) = cap)) as [Heq|Hne].
      * rewrite (Hfull Heq) in *. right. lia.
      * destruct (Hspare Hne) as [-> _]. lia.
Qed.

(** X19: as long as the size stays within the capacity, [PushBack] does not
    reallocate: after pushing [ys] on a vector with room for them, the
    buffer and the capacity are the ones the vector had (pointers to its
    elements still designate them) and no block was allocated or deleted. *)
Theorem push_all_within_capacity (ys : list T) :
  forall (s : state T) this buf cap xs,
  is_vector s this buf cap xs ->
  script s = [] ->
  Z.of_nat (length xs) + Z.of_nat (length ys) <= cap ->
  exists s',
    push_all this ys s = Ok tt s' /\
    is_vector s' this buf cap (xs ++ ys) /\
    script s' = [] /\
    dom (heap s') = dom (heap s).
Proof.
  induction ys as [|y ys IH]; intros s this buf cap xs Hvec Hsc Hroom.
  - exists s. rewrite app_nil_r. by cbn.
  - cbn [length] in Hroom.
    destruct Hvec as (Hv & Hle & Hfit & Hbuf).
    assert (cap < 2 ^ 63) as Hcap by (apply capacity_bound; [lia|done]).
    destruct s as [h vs rs sc tr]. cbn in Hv, Hbuf, Hsc. subst sc.
    destruct buf as [a|]; [|lia]. destruct Hbuf as (Hpos & Hh).
    pose proof (EmplaceBack_spare h vs rs tr this a cap xs (Forward y) y Hv
                  ltac:(lia) ltac:(lia) Hh eq_refl) as HE.
    match type of HE with _ = Ok _ ?st => set (s1 := st) in * end.
    destruct (IH s1 this (Some a) cap (xs ++ [y])) as (s2 & HP & Hvec2 & Hsc2 & Hdom).
    + subst s1. eapply is_vector_intro; cbn; mlookup; try done.
      * rewrite length_app. cbn. lia.
      * lia.
    + done.
    + rewrite length_app. cbn [length]. lia.
    + exists s2. split_and!.
      * cbn [push_all]. unfold PushBack. unfold bind at 1. unfold bind at 1.
        rewrite HE. unfold ret. exact HP.
      * by rewrite <- app_assoc in Hvec2.
      * done.
      * rewrite Hdom. subst s1. cbn. apply dom_insert_lookup_L. by eexists.
Qed.
End BackTheorems.

(** ** [Erase], [Swap], copies and the destructor *)

Section MiscTheorems.
Context {T : Type} `{!Element T}.

(** X9: [Erase(pos)], when nothing throws, removes the element that [pos]
    designates and keeps the others in order, in the same buffer with the
    same capacity; the iterator it returns is [pos], which now designates
    the element that followed.  [Erase(end())] has no defined behaviour:
    it asks [std::move] for the range from [end() + 1] to [end()]. *)
Theorem Erase_removes_element (s : state T) this buf cap xs :
  is_vector s this buf cap xs ->
  script s = [] ->
  (forall xs1 x xs2, xs = xs1 ++ x :: xs2 ->
     exists s',
       Erase this (Ptr buf (Z.of_nat (length xs1))) s =
         Ok (Ptr buf (Z.of_nat (length xs1))) s' /\
       is_vector s' this buf cap (xs1 ++ xs2) /\
       script s' = [] /\
       (forall y, head xs2 = Some y ->
          peek (heap s') (Ptr buf (Z.of_nat (length xs1))) = Some y)) /\
  Erase this (Ptr buf (Z.of_nat (length xs))) s = Fault.
Proof.
  intros Hvec Hsc. split.
  - intros xs1 x xs2 ->.
    destruct (Erase_ok s this buf cap xs1 x xs2 Hvec Hsc) as (s' & HE & Hvec' & Hsc').
    exists s'. split_and!; try done.
    intros y Hy. destruct xs2 as [|y' xs2]; [done|]. injection Hy as ->.
    destruct Hvec' as (_ & Hle & _ & Hbuf).
    destruct buf as [a|].
    + destruct Hbuf as (_ & Hh). by eapply peek_block_of.
    + rewrite length_app in Hle. cbn in Hle. lia.
  - destruct Hvec as (Hv & _). destruct s as [h vs rs sc tr]. cbn in Hv.
    unfold Erase, move, range_length. mrun.
    rewrite Z.sub_diag. change (wrap 0) with 0. by mrun.
Qed.

(** X10: [Swap] of two different vectors exchanges their buffers,
    capacities and elements.  It touches no element and no block: the heap
    and the log of events are as before, and nothing can throw. *)
Theorem Swap_exchanges (s : state T) a b bufa capa xs bufb capb ys :
  a <> b ->
  is_vector s a bufa capa xs ->
  is_vector s b bufb capb ys ->
  exists s',
    Swap a b s = Ok tt s' /\
    is_vector s' a bufb capb ys /\
    is_vector s' b bufa capa xs /\
    heap s' = heap s /\ raws s' = raws s /\
    script s' = script s /\ trace s' = trace s /\
    (forall r, r <> a -> r <> b -> vecs s' !! r = vecs s !! r).
Proof.
  intros Hne (Ha & Hlea & Hfita & Hbufa) (Hb & Hleb & Hfitb & Hbufb).
  eexists. split; [by eapply Swap_distinct|].
  split_and!; try done.
  - eapply is_vector_intro; cbn; mlookup; done.
  - eapply is_vector_intro; cbn; mlookup; done.
  - intros r Hra Hrb. cbn. by rewrite !lookup_insert_ne.
Qed.

(** X11: swapping twice gives back the state the program started from. *)
Theorem Swap_involutive (s : state T) a b va vb :
  vecs s !! a = Some va -> vecs s !! b = Some vb ->
  (Swap a b ;; Swap a b) s = Ok tt s.
Proof.
  intros Ha Hb. destruct s as [h vs rs sc tr]. cbn in Ha, Hb.
  destruct (decide (a = b)) as [->|Hne].
  - unfold bind. by rewrite !(Swap_self _ b va).
  - unfold bind. rewrite (Swap_distinct _ a b va vb) by done. cbn.
    rewrite (Swap_distinct _ a b vb va); [|done|cbn; by mlookup|cbn; by mlookup].
    cbn. do 2 f_equal. apply map_eq. intros k.
    destruct (decide (k = b)) as [->|]; [by mlookup|].
    destruct (decide (k = a)) as [->|]; by mlookup.
Qed.

(** X12: the move assignment [a = std::move(b)] between two different
    vectors exchanges them: [a] holds the elements of [b], and [b] is not
    left empty but holds the elements, the buffer and the capacity [a] had.
    No element is destroyed and no block is deleted by the assignment. *)
Theorem Vector_move_assign_exchanges (s : state T) a b bufa capa xs bufb capb ys :
  a <> b ->
  is_vector s a bufa capa xs ->
  is_vector s b bufb capb ys ->
  exists s',
    Vector_move_assign a b s = Ok tt s' /\
    is_vector s' a bufb capb ys /\
    is_vector s' b bufa capa xs /\
    heap s' = heap s /\ trace s' = trace s.
Proof.
  intros Hne (Ha & Hlea & Hfita & Hbufa) (Hb & Hleb & Hfitb & Hbufb).
  eexists. split.
  - unfold Vector_move_assign. rewrite decide_True by done. by eapply Swap_distinct.
  - split_and!; try done.
    + eapply is_vector_intro; cbn; mlookup; done.
    + eapply is_vector_intro; cbn; mlookup; done.
Qed.

(** X13: the copy constructor makes a vector with the same elements whose
    capacity is the size of the source, not its capacity; an empty source
    gives a vector without a block.  The source is as it was.  If the
    allocation or a copy throws, the copies made so far are destroyed, the
    block is deleted and no object exists: the heap and the objects are as
    before.  The call has defined behaviour in every case. *)
Theorem Vector_copy_ctor_copies (s : state T) l b bufb capb ys :
  is_vector s b bufb capb ys ->
  vecs s !! l = None ->
  match Vector_copy_ctor l b s with
  | Ok _ s' =>
      exists buf',
        is_vector s' l buf' (Z.of_nat (length ys)) ys /\
        is_vector s' b bufb capb ys /\
        (ys = [] -> buf' = None /\ heap s' = heap s) /\
        (script s = [] -> script s' = [])
  | Throw s' =>
      heap s' = heap s /\ vecs s' = vecs s /\ raws s' = raws s /\ script s <> []
  | Fault => False
  end.
Proof.
  intros (Hb & Hle & Hfit & Hbuf) Hl. destruct s as [h vs rs sc tr]. cbn in Hb, Hbuf, Hl |- *.
  assert (l <> b) as Hlb by (intros ->; congruence).
  assert (Z.of_nat (length ys) * sizeof <= PTRDIFF_MAX) as Hfit'.
  { pose proof sizeof_range. unfold PTRDIFF_MAX in *. nia. }
  pose proof (Vector_copy_ctor_spec h vs rs sc tr l b bufb capb ys Hb) as Hc.
  lapply Hc; [clear Hc; intros Hc|].
  2:{ destruct bufb; [by destruct Hbuf|]. subst capb. apply length_zero_iff_nil. lia. }
  specialize (Hc Hle Hfit Hl).
  destruct (Vector_copy_ctor l b _) as [[] s'|s'|]; [|done|done].
  destruct Hc as (buf' & sc' & tr' & -> & Hbuf' & Hsc).
  exists buf'. split_and!; try done.
  - eapply is_vector_intro; cbn; mlookup; try done.
    destruct buf' as [a'|].
    + destruct Hbuf' as (-> & Hys). split.
      * destruct ys; [done|cbn; lia].
      * rewrite lookup_insert_eq. f_equal. unfold block_of.
        rewrite Nat2Z.id, Nat.sub_diag. cbn. by rewrite app_nil_r.
    + subst ys. done.
  - eapply is_vector_intro; cbn; mlookup; try done.
    destruct bufb as [b0|]; [|done]. destruct Hbuf as (Hpos & Hh). split; [done|].
    destruct buf' as [a'|]; [|done]. destruct Hbuf' as (-> & _).
    rewrite lookup_insert_ne; [done|].
    intros E. rewrite <- E in Hh. by rewrite fresh_block_None in Hh.
  - intros ->. destruct buf' as [a'|]; [by destruct Hbuf'|done].
Qed.

(** X14: the destructor destroys the elements from the first to the last,
    then deletes the block; the object is gone and nothing else has
    changed.  It cannot throw. *)
Theorem Vector_dtor_releases (s : state T) this buf cap xs :
  is_vector s this buf cap xs ->
  Vector_dtor this s =
    Ok tt (State (release buf (heap s)) (delete this (vecs s)) (raws s) (script s)
             (trace s ++ destroy_events (Ptr buf 0) (length xs) ++ release_events buf)).
Proof.
  intros (Hv & Hle & Hfit & Hbuf). destruct s as [h vs rs sc tr]. cbn in Hv, Hbuf |- *.
  eapply Vector_dtor_spec; [exact Hv|].
  destruct buf as [a|].
  - destruct Hbuf as (_ & Hh). exact Hh.
  - subst cap. apply length_zero_iff_nil. lia.
Qed.

(** X15: a copy that is made and destroyed leaves the heap and the objects
    as they were: every block it allocated is deleted again. *)
Theorem copy_then_destroy_restores (s : state T) l b bufb capb ys :
  is_vector s b bufb capb ys ->
  vecs s !! l = None ->
  script s = [] ->
  exists s',
    (Vector_copy_ctor l b ;; Vector_dtor l) s = Ok tt s' /\
    heap s' = heap s /\ vecs s' = vecs s /\ raws s' = raws s /\ script s' = [].
Proof.
  intros (Hb & Hle & Hfit & Hbuf) Hl Hsc. destruct s as [h vs rs sc tr].
  cbn in Hb, Hbuf, Hl, Hsc |- *. subst sc.
  pose proof (Vector_copy_ctor_spec h vs rs [] tr l b bufb capb ys Hb) as Hc.
  lapply Hc; [clear Hc; intros Hc|].
  2:{ destruct bufb; [by destruct Hbuf|]. subst capb. apply length_zero_iff_nil. lia. }
  specialize (Hc Hle Hfit Hl). unfold bind.
  destruct (Vector_copy_ctor l b _) as [[] s'|s'|]; [| |done].
  - destruct Hc as (buf' & sc' & tr' & -> & Hbuf' & Hsc). rewrite (Hsc eq_refl).
    erewrite (Vector_dtor_spec _ _ _ _ _ l buf' _ ys []).
    + eexists. split; [reflexivity|]. cbn. split_and!; try done.
      * destruct buf' as [a'|]; [|done]. destruct Hbuf' as (-> & _). cbn.
        rewrite delete_insert_eq. apply delete_id, fresh_block_None.
      * rewrite delete_insert_eq. by apply delete_id.
    + by mlookup.
    + destruct buf' as [a'|]; [|done]. by rewrite lookup_insert_eq, app_nil_r.
  - by destruct Hc as (_ & _ & _ & ?).
Qed.

(** X16: [RawMemory(n)] multiplies [n] by [sizeof(T)] in [size_t] without
    a check.  When the product exceeds [2^64] and its remainder is a size
    that [operator new] accepts, the constructor returns normally with
    [capacity_ = n] over a block that has room for fewer than [n] objects,
    and [operator+] then accepts the offset [n], beyond the block. *)
Theorem RawMemory_ctor_overflow (s : state T) l n :
  script s = [] ->
  0 < n < 2 ^ 64 ->
  2 ^ 64 <= n * sizeof ->
  wrap (n * sizeof) <= PTRDIFF_MAX ->
  exists s' a blk,
    RawMemory_ctor (Local l) n s = Ok tt s' /\
    raws s' !! l = Some (mkRawMemory (Some a) n) /\
    heap s' !! a = Some blk /\
    Z.of_nat (length blk) < n /\
    RawMemory_plus (Local l) n s' = Ok (Ptr (Some a) n) s'.
Proof.
  intros Hsc Hn Hover Hfit. destruct s as [h vs rs sc tr]. cbn in Hsc. subst sc.
  pose proof sizeof_range as Hsz.
  unfold RawMemory_ctor, Allocate, operator_new.
  destruct (n =? 0) eqn:E; [lia|].
  unfold bind at 1. unfold bind at 1. unfold bind at 1.
  destruct (PTRDIFF_MAX <? wrap (n * sizeof)) eqn:E'; [lia|].
  mrun. cbn.
  eexists _, _, _. split; [reflexivity|]. cbn. split_and!.
  - by rewrite lookup_insert_eq.
  - by rewrite lookup_insert_eq.
  - rewrite length_replicate.
    assert (0 <= wrap (n * sizeof) < 2 ^ 64) as Hw by (unfold wrap; apply Z.mod_pos_bound; lia).
    assert (wrap (n * sizeof) / sizeof < n) by (apply Z.div_lt_upper_bound; lia).
    assert (0 <= wrap (n * sizeof) / sizeof) by (apply Z.div_pos; lia).
    lia.
  - unfold RawMemory_plus. mrun. done.
Qed.
End MiscTheorems.

(** ** [PushBack], whatever the script *)

Section PushProofs.
Context {T : Type} `{!Element T}.
Implicit Types (h : gmap addr (list (option T))) (vs : gmap nat Vector)
  (rs : gmap nat RawMemory) (sc : list bool) (tr : list (event T)).



End PushProofs.

Section PushTheorems.
Context {T : Type} `{!Element T}.

End PushTheorems.


(** ** Instances on vectors of [int] *)

Lemma Resize_sets_size_witness :
  exists s' buf',
    Resize 0 5 two_ints = Ok tt s' /\
    is_vector s' 0 buf' (Z.max 2 5)
      (take (Z.to_nat 5) [1; 2] ++ replicate (Z.to_nat 5 - length [1; 2]) value_init) /\
    (5 <= 2 -> buf' = Some 0%nat) /\
    script s' = [].
Proof.
  apply (Resize_sets_size two_ints 0 (Some 0%nat) 2 [1; 2] 5 two_ints_is_vector eq_refl);
    [lia|].
  intros _. cbn. unfold PTRDIFF_MAX. lia.
Defined.

Lemma PopBack_spec_witness :
  ([1; 2] = [] -> PopBack 0 two_ints = Fault) /\
  (forall xs' x, [1; 2] = xs' ++ [x] ->
     exists s',
       PopBack 0 two_ints = Ok tt s' /\
       is_vector s' 0 (Some 0%nat) 2 xs' /\
       dom (heap s') = dom (heap two_ints) /\
       script s' = script two_ints /\
       trace s' = trace two_ints ++ [EvDestroy (Ptr (Some 0%nat) (Z.of_nat (length xs')))]).
Proof. exact (PopBack_spec two_ints 0 (Some 0%nat) 2 [1; 2] two_ints_is_vector). Defined.

Lemma Vector_index_bounds_witness :
  (1 < Z.of_nat (length [1; 2]) ->
     exists x,
       [1; 2] !! Z.to_nat 1 = Some x /\
       Vector_index 0 1 two_ints = Ok (Ptr (Some 0%nat) 1) two_ints /\
       peek (heap two_ints) (Ptr (Some 0%nat) 1) = Some x) /\
  (Z.of_nat (length [1; 2]) <= 1 -> Vector_index 0 1 two_ints = Fault).
Proof.
  apply (Vector_index_bounds two_ints 0 (Some 0%nat) 2 [1; 2] 1 two_ints_is_vector). lia.
Defined.

Lemma PushBack_then_PopBack_witness :
  exists s' buf' cap',
    (PushBack 0 (Forward 3) ;; PopBack 0) two_ints = Ok tt s' /\
    is_vector s' 0 buf' cap' [1; 2] /\
    2 <= cap' /\
    script s' = [].
Proof.
  apply (PushBack_then_PopBack two_ints 0 (Some 0%nat) 2 [1; 2] (Forward 3) 3
           two_ints_is_vector eq_refl eq_refl).
  intros _. vm_compute. discriminate.
Defined.

Lemma push_all_appends_witness :
  exists s' buf' cap',
    push_all 0 [3; 4; 5] two_ints = Ok tt s' /\
    is_vector s' 0 buf' cap' ([1; 2] ++ [3; 4; 5]) /\
    script s' = [] /\
    2 <= cap' /\
    (cap' = 2 \/ cap' < 2 * (Z.of_nat (length [1; 2]) + Z.of_nat (length [3; 4; 5]))).
Proof.
  apply (push_all_appends [3; 4; 5] two_ints 0 (Some 0%nat) 2 [1; 2] two_ints_is_vector
           eq_refl).
  vm_compute. discriminate.
Defined.

Lemma Erase_removes_element_witness :
  (forall xs1 x xs2, [1; 2] = xs1 ++ x :: xs2 ->
     exists s',
       Erase 0 (Ptr (Some 0%nat) (Z.of_nat (length xs1))) two_ints =
         Ok (Ptr (Some 0%nat) (Z.of_nat (length xs1))) s' /\
       is_vector s' 0 (Some 0%nat) 2 (xs1 ++ xs2) /\
       script s' = [] /\
       (forall y, head xs2 = Some y ->
          peek (heap s') (Ptr (Some 0%nat) (Z.of_nat (length xs1))) = Some y)) /\
  Erase 0 (Ptr (Some 0%nat) (Z.of_nat (length [1; 2]))) two_ints = Fault.
Proof.
  exact (Erase_removes_element two_ints 0 (Some 0%nat) 2 [1; 2] two_ints_is_vector eq_refl).
Defined.

Lemma Swap_exchanges_witness :
  exists s',
    Swap 0 1 (two_vectors []) = Ok tt s' /\
    is_vector s' 0 (Some 1%nat) 4 [7; 8; 9] /\
    is_vector s' 1 (Some 0%nat) 2 [1; 2] /\
    heap s' = heap (two_vectors []) /\ raws s' = raws (two_vectors []) /\
    script s' = script (two_vectors []) /\ trace s' = trace (two_vectors []) /\
    (forall r, r <> 0%nat -> r <> 1%nat -> vecs s' !! r = vecs (two_vectors []) !! r).
Proof.
  apply (Swap_exchanges (two_vectors []) 0 1 (Some 0%nat) 2 [1; 2] (Some 1%nat) 4 [7; 8; 9]);
    [lia | exact (two_vectors_first []) | exact (two_vectors_second [])].
Defined.

Lemma Swap_involutive_witness :
  (Swap 0 1 ;; Swap 0 1) (two_vectors []) = Ok tt (two_vectors []).
Proof.
  exact (Swap_involutive (two_vectors []) 0 1
           (mkVector (mkRawMemory (Some 0%nat) 2) 2)
           (mkVector (mkRawMemory (Some 1%nat) 4) 3) eq_refl eq_refl).
Defined.

Lemma Vector_move_assign_exchanges_witness :
  exists s',
    Vector_move_assign 0 1 (two_vectors []) = Ok tt s' /\
    is_vector s' 0 (Some 1%nat) 4 [7; 8; 9] /\
    is_vector s' 1 (Some 0%nat) 2 [1; 2] /\
    heap s' = heap (two_vectors []) /\ trace s' = trace (two_vectors []).
Proof.
  apply (Vector_move_assign_exchanges (two_vectors []) 0 1 (Some 0%nat) 2 [1; 2]
           (Some 1%nat) 4 [7; 8; 9]);
    [lia | exact (two_vectors_first []) | exact (two_vectors_second [])].
Defined.

Lemma Vector_copy_ctor_copies_witness :
  match Vector_copy_ctor 2 1 (two_vectors [false; false; true]) with
  | Ok _ s' =>
      exists buf',
        is_vector s' 2 buf' (Z.of_nat (length [7; 8; 9])) [7; 8; 9] /\
        is_vector s' 1 (Some 1%nat) 4 [7; 8; 9] /\
        ([7; 8; 9] = [] -> buf' = None /\ heap s' = heap (two_vectors [false; false; true])) /\
        (script (two_vectors [false; false; true]) = [] -> script s' = [])
  | Throw s' =>
      heap s' = heap (two_vectors [false; false; true]) /\
      vecs s' = vecs (two_vectors [false; false; true]) /\
      raws s' = raws (two_vectors [false; false; true]) /\
      script (two_vectors [false; false; true]) <> []
  | Fault => False
  end.
Proof.
  exact (Vector_copy_ctor_copies (two_vectors [false; false; true]) 2 1 (Some 1%nat) 4
           [7; 8; 9] (two_vectors_second _) eq_refl).
Defined.

Lemma Vector_dtor_releases_witness :
  Vector_dtor 0 two_ints =
    Ok tt (State (release (Some 0%nat) (heap two_ints)) (delete 0%nat (vecs two_ints))
             (raws two_ints) (script two_ints)
             (trace two_ints ++ destroy_events (Ptr (Some 0%nat) 0) (length [1; 2])
                ++ release_events (Some 0%nat))).
Proof. exact (Vector_dtor_releases two_ints 0 (Some 0%nat) 2 [1; 2] two_ints_is_vector). Defined.

Lemma copy_then_destroy_restores_witness :
  exists s',
    (Vector_copy_ctor 1 0 ;; Vector_dtor 1) two_ints = Ok tt s' /\
    heap s' = heap two_ints /\ vecs s' = vecs two_ints /\ raws s' = raws two_ints /\
    script s' = [].
Proof.
  exact (copy_then_destroy_restores two_ints 1 0 (Some 0%nat) 2 [1; 2] two_ints_is_vector
           eq_refl eq_refl).
Defined.

Lemma RawMemory_ctor_overflow_witness :
  exists s' a blk,
    RawMemory_ctor (Local 0) (2 ^ 62) (initial (T := Z) []) = Ok tt s' /\
    raws s' !! 0%nat = Some (mkRawMemory (Some a) (2 ^ 62)) /\
    heap s' !! a = Some blk /\
    Z.of_nat (length blk) < 2 ^ 62 /\
    RawMemory_plus (Local 0) (2 ^ 62) s' = Ok (Ptr (Some a) (2 ^ 62)) s'.
Proof.
  apply (RawMemory_ctor_overflow (initial (T := Z) []) 0 (2 ^ 62) eq_refl).
  - lia.
  - cbn. lia.
  - vm_compute. discriminate.
Defined.


Lemma push_all_within_capacity_witness :
  exists s',
    push_all 1 [5] (two_vectors []) = Ok tt s' /\
    is_vector s' 1 (Some 1%nat) 4 ([7; 8; 9] ++ [5]) /\
    script s' = [] /\
    dom (heap s') = dom (heap (two_vectors [])).
Proof.
  apply (push_all_within_capacity [5] (two_vectors []) 1 (Some 1%nat) 4 [7; 8; 9]
           (two_vectors_second []) eq_refl).
  cbn. lia.
Defined.
